(** * repomgr: the repository dashboard

    A shallow embedding of the data-carrying code of the dashboard page
    (the table columns, the URL layers, import and export of the
    annotation bundle, the REST pagination of [fetchRepos]) and of the
    server endpoint [POST /api/repos] (the cursor pagination), with the
    properties the specification states about them.

    The page comes in two states of development. [Layered] is the page
    with three data layers (GitHub data, tofu URLs, custom data); [Flat]
    is [routes/+page.svelte], with a single URL layer [repoUrls] and the
    migration of the older URL formats. The type, class and description
    columns and [fetchRepos] are the same in both; the URL column of
    [View] is that of the layered page.

    JavaScript objects used as dictionaries are finite maps ([gmap]) over
    their own properties; a read under a key that can be a property name of
    [Object.prototype] goes through [Proto.get], which also answers with
    what a plain object inherits. Arrays are lists; [null]/[undefined]
    results are [option]. The platform's [JSON.parse], [JSON.stringify]
    and the order of [Object.entries] are parameters of import and
    export. *)

From Stdlib Require Import ZArith String Ascii List Lia.
From stdpp Require Import base option list gmap strings fin_maps pretty.
Import ListNotations.
Open Scope string_scope.
Open Scope list_scope.
Open Scope nat_scope.
Set Warnings "-register-all".

(** ** The repository record *)

(** [type Repo] of the page. [owner] is the [login] of the nested owner
    object; [commits] is the optional field. *)
Record Repo := mkRepo {
  name : string;
  html_url : string;
  description : option string;
  language : option string;
  fork : bool;
  private : bool;
  stargazers_count : Z;
  created_at : string;
  size : Z;
  owner : string;
  commits : option Z
}.

(** [function repoKey(r)]: the template string [`${r.owner.login}/${r.name}`]. *)
Definition repoKey (r : Repo) : string := owner r +:+ "/" +:+ name r.

(** ** JavaScript truthiness of strings, and the [||] and [??] operators at
    the types the columns use them *)

(** A string is falsy exactly when it is empty. *)
Definition truthy_str (s : string) : bool :=
  match s with
  | EmptyString => false
  | String _ _ => true
  end.

(** [a || b] where [a] is a string or undefined/null and [b] a string. *)
Definition or_str (a : option string) (b : string) : string :=
  match a with
  | Some s => if truthy_str s then s else b
  | None => b
  end.

(** [a ?? b]. *)
Definition nullish {A} (a : option A) (b : A) : A :=
  match a with
  | Some x => x
  | None => b
  end.

(** [l.join(sep)] on an array of strings. *)
Fixpoint join (sep : string) (l : list string) : string :=
  match l with
  | [] => EmptyString
  | [x] => x
  | x :: r => x +:+ sep +:+ join sep r
  end.

(** ** What every plain object inherits *)

Module Proto.

(** The property names of [Object.prototype]. A plain object (an object
    literal, a result of [JSON.parse], a copy made by a spread) answers a
    read under one of them even when it has no such property of its own:
    with a function, or, under [__proto__], with [Object.prototype]
    itself. All of these values are truthy, none is [null] or
    [undefined], none is a string, and none can be spread into an array. *)
Definition names : list string :=
  [ "constructor"; "__proto__"; "hasOwnProperty"; "isPrototypeOf";
    "propertyIsEnumerable"; "toLocaleString"; "toString"; "valueOf";
    "__defineGetter__"; "__defineSetter__"; "__lookupGetter__";
    "__lookupSetter__" ].

Definition inherited (k : string) : bool := existsb (String.eqb k) names.

(** What a read finds: a property of the object itself, or the built-in
    value inherited under the name [k]. *)
Inductive found (A : Type) :=
| Own (a : A)
| Builtin (k : string).
Arguments Own {A} a.
Arguments Builtin {A} k.

(** The read [o[k]]; [None] is [undefined]. *)
Definition get {A} (o : gmap string A) (k : string) : option (found A) :=
  match o !! k with
  | Some a => Some (Own a)
  | None => if inherited k then Some (Builtin k) else None
  end.

(** An object without own properties under the inherited names. *)
Definition plain {A} (o : gmap string A) : Prop :=
  ∀ k, inherited k = true → o !! k = None.

End Proto.

(** ** JavaScript values as [JSON.parse] returns them *)

Module Js.

(** A parsed JSON document. Objects keep their own properties in a finite
    map (a repeated member keeps its last value, as in [JSON.parse]).
    Numbers are integers: the page only ever tests a number for being
    zero. *)
Inductive value :=
| Null
| Bool (b : bool)
| Num (n : Z)
| Str (s : string)
| Arr (l : list value)
| Obj (o : gmap string value).

(** [ToBoolean]: [null], [false], [0] and the empty string are falsy;
    arrays and objects are truthy, empty or not. *)
Definition truthy (v : value) : bool :=
  match v with
  | Null => false
  | Bool b => b
  | Num n => negb (n =? 0)%Z
  | Str s => truthy_str s
  | Arr _ => true
  | Obj _ => true
  end.

(** Truthiness of the result of a property read; [None] is [undefined]. *)
Definition truthy_opt (o : option value) : bool :=
  match o with
  | Some v => truthy v
  | None => false
  end.

(** How a statement completes. [Thrown] is an exception on its way to the
    enclosing [catch]. [Untyped] marks a run that left the declared
    TypeScript types at a point where the embedding does not follow
    JavaScript any further (spreading or indexing a value that is neither
    an array nor a dictionary, or an object whose prototype has been
    replaced). *)
Inductive completion (A : Type) :=
| Normal (a : A)
| Thrown
| Untyped.
Arguments Normal {A} a.
Arguments Thrown {A}.
Arguments Untyped {A}.

(** The property read [v.k] for the names the page reads ([classes],
    [repoUrls], [pages_urls], [value], ...): none of them is a built-in
    property of a number, boolean, string or array, so only an object can
    answer; reading a property of [null] throws a [TypeError]. *)
Definition member (v : value) (k : string) : completion (option value) :=
  match v with
  | Null => Thrown
  | Obj o => Normal (o !! k)
  | _ => Normal None
  end.

(** Statements over a state [St]: the state is kept when an exception
    passes, since the assignments made before it stay made. *)
Definition M (St A : Type) : Type := St → St * completion A.

Definition ret {St A} (a : A) : M St A := λ s, (s, Normal a).

Definition bind {St A B} (m : M St A) (k : A → M St B) : M St B :=
  λ s, match m s with
       | (s', Normal a) => k a s'
       | (s', Thrown) => (s', Thrown)
       | (s', Untyped) => (s', Untyped)
       end.

Definition lift {St A} (c : completion A) : M St A := λ s, (s, c).

Definition modify {St} (f : St → St) : M St unit := λ s, (f s, Normal tt).

Definition gets {St A} (f : St → A) : M St A := λ s, (s, Normal (f s)).

(** [const parsed = JSON.parse(data)]: a [SyntaxError] is [None]. *)
Definition parsing {St} (r : option value) : M St value :=
  match r with
  | Some v => ret v
  | None => lift Thrown
  end.

(** The own properties a read can find: those of a dictionary. *)
Definition own (v : value) : gmap string value :=
  match v with
  | Obj o => o
  | _ => ∅
  end.

(** The value of a variable [x] after [if (o.k) x = o.k], [old] before. *)
Definition pick (o : gmap string value) (k : string) (old : value) : value :=
  match o !! k with
  | Some v => if truthy v then v else old
  | None => old
  end.

(** The state after [if (c) x = c], where [f] assigns to [x]. *)
Definition assign {St} (c : option value) (f : value → St → St) (p : St) : St :=
  match c with
  | Some v => if truthy v then f v p else p
  | None => p
  end.

(** [if (c) stmt] where [c] is a property read and [stmt] uses its value. *)
Definition if_truthy {St} (c : option value) (stmt : value → M St unit) : M St unit :=
  match c with
  | Some v => if truthy v then stmt v else ret tt
  | None => ret tt
  end.

End Js.

Notation "'let*' x ':=' m 'in' k" := (Js.bind m (λ x, k))
  (at level 10, x name, m at level 100, k at level 200).
Notation "m ';;;' k" := (Js.bind m (λ _, k))
  (at level 100, k at level 200, right associativity).

(** ** The table columns (the page with the three data layers) *)

Module View.
Import Js.

(** [function getType(r)]. *)
Definition getType (r : Repo) : string :=
  if fork r then "Fork" else if private r then "Private" else "Public".

(** [filterFn] of the [type] column; [row.original] is the repository. *)
Definition type_filterFn (row : Repo) (filterValue : string) : bool :=
  let type := getType row in
  if String.eqb filterValue "Sources"
  then String.eqb type "Public" || String.eqb type "Private"
  else String.eqb type filterValue.

(** [filterFn] of the [class] column, over the [repoClasses] layer. *)
Definition class_filterFn (repoClasses : gmap string string)
    (row : Repo) (filterValue : string) : bool :=
  let cls := nullish (repoClasses !! repoKey row) EmptyString in
  if String.eqb filterValue "(none)"
  then String.eqb cls EmptyString
  else String.eqb cls filterValue.

(** [accessorFn] of the [class] column: the class label of a row. *)
Definition class_accessorFn (repoClasses : gmap string string) (row : Repo) : string :=
  nullish (repoClasses !! repoKey row) EmptyString.

(** [accessorFn] of the [description] column, also the [Description] field
    of [exportEnabledProjectData]:
    [repoDescriptions[key] || row.description || '']. *)
Definition description_accessorFn (repoDescriptions : gmap string string)
    (row : Repo) : string :=
  or_str (repoDescriptions !! repoKey row) (or_str (description row) EmptyString).

(** The first loop of [combinedUrls], [if (url) result[key] = [url]]: one
    entry per truthy tofu URL. [map_fold] visits every own property once,
    as [Object.entries] does. Under the key [__proto__] the assignment
    does not add a property: it makes the array the prototype of [result],
    and what [result] then answers to a read is not followed. *)
Definition tofu_step (key url : string)
    (result : completion (gmap string (list string)))
    : completion (gmap string (list string)) :=
  match result with
  | Normal r =>
      if truthy_str url then
        if String.eqb key "__proto__" then Untyped
        else Normal (<[key := [url]]> r)
      else Normal r
  | _ => result
  end.

(** The second loop: [result[key] = [...(result[key] || []), ...urls]]. An
    array is truthy, so [result[key] || []] is the array when [result] has
    one of its own; a built-in is truthy too, and spreading it throws a
    [TypeError]. *)
Definition custom_step (key : string) (urls : list string)
    (result : completion (gmap string (list string)))
    : completion (gmap string (list string)) :=
  match result with
  | Normal r =>
      match Proto.get r key with
      | Some (Proto.Own l) => Normal (<[key := (l ++ urls)%list]> r)
      | Some (Proto.Builtin _) => Thrown
      | None => Normal (<[key := urls]> r)
      end
  | _ => result
  end.

(** What the first loop leaves under a name. *)
Definition tofu_entry (tofuUrls : gmap string string) (k : string)
    : option (list string) :=
  match tofuUrls !! k with
  | Some url => if truthy_str url then Some [url] else None
  | None => None
  end.

(** [const combinedUrls = $derived.by(...)]; [result] is local, so a run
    that throws leaves nothing behind. *)
Definition combinedUrls (tofuUrls : gmap string string)
    (customUrls : gmap string (list string))
    : completion (gmap string (list string)) :=
  map_fold custom_step (map_fold tofu_step (Normal ∅) tofuUrls) customUrls.

(** [combined[row.name] ?? []] for a finished [combined]. *)
Definition urls_of (combined : gmap string (list string)) (row : Repo)
    : Proto.found (list string) :=
  nullish (Proto.get combined (name row)) (Proto.Own []).

(** The URL list of a row: [combinedUrls[row.name] ?? []], as read by the
    [pages_url] column and by the [URLs] field of the enabled-projects
    export. *)
Definition row_urls (tofuUrls : gmap string string)
    (customUrls : gmap string (list string)) (row : Repo)
    : completion (Proto.found (list string)) :=
  match combinedUrls tofuUrls customUrls with
  | Normal combined => Normal (urls_of combined row)
  | Thrown => Thrown
  | Untyped => Untyped
  end.

(** [accessorFn] of the [pages_url] column:
    [(combinedUrls[row.name] ?? []).join(', ')]. A built-in has no [join],
    so the call throws. *)
Definition pages_url_accessorFn (tofuUrls : gmap string string)
    (customUrls : gmap string (list string)) (row : Repo) : completion string :=
  match row_urls tofuUrls customUrls row with
  | Normal (Proto.Own urls) => Normal (join ", " urls)
  | Normal (Proto.Builtin _) => Thrown
  | Thrown => Thrown
  | Untyped => Untyped
  end.

(** The filtered row model for a single column filter. *)
Definition filtered_rows (p : Repo → bool) (repos : list Repo) : list Repo :=
  List.filter p repos.

End View.

(** ** The server endpoint: [POST /api/repos] *)

Module Server.

(** [type RepoNode]. [owner] is the [login]; [primaryLanguage] the [name] of
    the nested object or [null]; [defaultBranchRef] is the commit count at
    the end of the chain [defaultBranchRef?.target?.history?.totalCount],
    [None] when a link of the chain is missing. *)
Record RepoNode := mkNode {
  name : string;
  description : option string;
  url : string;
  stargazerCount : Z;
  primaryLanguage : option string;
  homepageUrl : option string;
  isPrivate : bool;
  isFork : bool;
  createdAt : string;
  diskUsage : Z;
  owner : string;
  defaultBranchRef : option Z
}.

(** [data.viewer.repositories] of [type GraphQLResponse]. *)
Record Repositories := mkRepositories {
  totalCount : nat;
  hasNextPage : bool;
  endCursor : option string;
  nodes : list RepoNode
}.

(** The body of a reply: [data?] and the [message]s of [errors?]. *)
Record GraphQLResponse := mkResponse {
  data : option Repositories;
  errors : option (list string)
}.

(** What [fetch] resolves to: the HTTP status and the body. *)
Record Reply := mkReply {
  status : Z;
  body : GraphQLResponse
}.

(** [res.ok]: the status is in the range 200-299. *)
Definition ok (status : Z) : bool := (200 <=? status)%Z && (status <=? 299)%Z.

(** The value handed to [json(...)]: the body [{ repos, error? }] and the
    status of the response. *)
Record Response := mkPostResponse {
  response_status : Z;
  repos : list Repo;
  error : option string
}.

(** The number of entries asked for by the query: [first: 100]. *)
Definition first : nat := 100.

(** [allRepos.map((r) => ({ ... }))]: the node in the shape of [Repo]. *)
Definition to_repo (r : RepoNode) : Repo :=
  mkRepo (name r)              (* name *)
         (url r)               (* html_url *)
         (description r)       (* description *)
         (primaryLanguage r)   (* language: r.primaryLanguage?.name ?? null *)
         (isFork r)            (* fork *)
         (isPrivate r)         (* private *)
         (stargazerCount r)    (* stargazers_count *)
         (createdAt r)         (* created_at *)
         (diskUsage r)         (* size *)
         (owner r)             (* owner *)
         (defaultBranchRef r)  (* commits *).

(** [result.errors?.length]: the first message when the array is there and
    not empty. *)
Definition first_error (r : GraphQLResponse) : option string :=
  match errors r with
  | Some (m :: _) => Some m
  | _ => None
  end.

Section Handler.

(** The GraphQL endpoint of the remote: the reply to a request whose
    [variables] are [{ cursor }]. *)
Variable graphql : option string → Reply.

(** The [while (hasNextPage)] loop. [fuel] bounds the number of turns: the
    loop of the source runs for as long as the remote reports a next page.
    The second component lists the cursors of the requests issued, oldest
    first. *)
Fixpoint paginate (fuel : nat) (hasNextPage : bool) (cursor : option string)
    (allRepos : list RepoNode) (sent : list (option string))
    : option (Response * list (option string)) :=
  if hasNextPage then
    match fuel with
    | O => None
    | S fuel' =>
        let res := graphql cursor in
        let sent' := (sent ++ [cursor])%list in
        if negb (ok (status res)) then
          Some ({| response_status := status res; repos := [];
                   error := Some ("GitHub API error: " +:+ pretty (status res)) |},
                sent')
        else
          match first_error (body res) with
          | Some message =>
              Some ({| response_status := 400; repos := []; error := Some message |},
                    sent')
          | None =>
              match data (body res) with
              | None =>
                  Some ({| response_status := 200; repos := to_repo <$> allRepos;
                           error := None |}, sent')
              | Some d =>
                  paginate fuel' (Server.hasNextPage d) (endCursor d)
                    (allRepos ++ nodes d)%list sent'
              end
          end
    end
  else
    Some ({| response_status := 200; repos := to_repo <$> allRepos; error := None |},
          sent).

(** [export const POST]: the request body is [{ token }]. *)
Definition POST (fuel : nat) (token : string)
    : option (Response * list (option string)) :=
  if negb (truthy_str token) then
    Some ({| response_status := 400; repos := []; error := Some "Token required" |}, [])
  else paginate fuel true None [] [].

End Handler.

(** A remote whose pages follow one another along the cursors: from the
    cursor [c] it serves the pages [ds] in a row, each one a success
    without errors, each but the last announcing a next page. *)
Inductive serves (graphql : option string → Reply)
    : option string → list Repositories → Prop :=
| serves_last c d :
    ok (status (graphql c)) = true →
    first_error (body (graphql c)) = None →
    data (body (graphql c)) = Some d →
    hasNextPage d = false →
    serves graphql c [d]
| serves_next c d ds :
    ok (status (graphql c)) = true →
    first_error (body (graphql c)) = None →
    data (body (graphql c)) = Some d →
    hasNextPage d = true →
    serves graphql (endCursor d) ds →
    serves graphql c (d :: ds).

(** The pages cut a collection of [total] records into runs of [first]:
    every page reports [total], a page that announces a next page is full,
    the last page is not longer than [first] and is not empty unless the
    collection is. *)
Definition cut_in_pages (total : nat) (ds : list Repositories) : Prop :=
  length (concat (nodes <$> ds)) = total
  ∧ ∀ d, d ∈ ds →
      totalCount d = total
      ∧ (hasNextPage d = true → length (nodes d) = first)
      ∧ (hasNextPage d = false →
           (length (nodes d) ≤ first)%nat
           ∧ ((0 < total)%nat → (0 < length (nodes d))%nat)).

(** The cursors of the requests that fetch the pages [ds] from the cursor
    [c]: [c] itself, then the end cursor of every page but the last. *)
Definition cursors (c : option string) (ds : list Repositories)
    : list (option string) :=
  c :: (endCursor <$> take (length ds - 1) ds).

(** [ceil(n / 100)]. *)
Definition ceil_div (n d : nat) : nat := (n + (d - 1)) / d.

(** An opaque cursor that stands for an offset into the collection. *)
Fixpoint cursor_at (offset : nat) : string :=
  match offset with
  | O => EmptyString
  | S n => String "c" (cursor_at n)
  end.

(** The offset a cursor stands for; no cursor is the start. *)
Definition offset_of (cursor : option string) : nat :=
  match cursor with
  | None => 0
  | Some c => String.length c
  end.

(** The page of [first] records after [offset]. *)
Definition page_at (records : list RepoNode) (offset : nat) : Repositories :=
  let nodes := take first (drop offset records) in
  {| totalCount := length records;
     hasNextPage := offset + first <? length records;
     endCursor := match nodes with
                  | [] => None
                  | _ => Some (cursor_at (offset + length nodes))
                  end;
     nodes := nodes |}.

(** A remote that pages through [records] along such cursors. *)
Definition remote_of (records : list RepoNode) (cursor : option string) : Reply :=
  {| status := 200;
     body := {| data := Some (page_at records (offset_of cursor)); errors := None |} |}.

(** Its pages from [offset]: [more] full pages and a last one. *)
Fixpoint pages_from (records : list RepoNode) (offset more : nat) : list Repositories :=
  match more with
  | O => [page_at records offset]
  | S more' => page_at records offset :: pages_from records (offset + first) more'
  end.
End Server.

(** ** The page with three data layers (GitHub data, tofu URLs, custom data) *)

Module Layered.
Import Js.

(** The custom data: [classes], [repoClasses], [customUrls], [repoEnabled]
    and [repoDescriptions]. The variables are typed in the source, but
    import assigns whatever the payload holds, so each one is a value. *)
Record Custom := mkCustom {
  classes : value;
  repoClasses : value;
  customUrls : value;
  repoEnabled : value;
  repoDescriptions : value
}.

(** [localStorage]: per key, the value whose JSON text is stored ([None]:
    the key was never set). *)
Record Storage := mkStorage {
  repomgr_token : option string;
  repomgr_username : option string;
  repomgr_github : option (list Repo);
  repomgr_tofu_urls : option value;
  repomgr_custom : option Custom
}.

(** The [$state] variables of the component and the browser's store. *)
Record Page := mkPage {
  token : string;
  username : string;
  repos : list Repo;
  loading : bool;
  error : string;
  tofuUrls : value;
  custom : Custom;
  localStorage : Storage
}.

(** The state of a freshly created component: the initial values of the
    [$state] declarations. *)
Definition initial (store : Storage) : Page :=
  {| token := EmptyString; username := EmptyString; repos := []; loading := false; error := EmptyString;
     tofuUrls := Obj ∅;
     custom := {| classes := Arr []; repoClasses := Obj ∅; customUrls := Obj ∅;
                  repoEnabled := Obj ∅; repoDescriptions := Obj ∅ |};
     localStorage := store |}.

(** Assignments to the variables. *)
Definition set_custom (f : Custom → Custom) (p : Page) : Page :=
  {| token := token p; username := username p; repos := repos p;
     loading := loading p; error := error p; tofuUrls := tofuUrls p;
     custom := f (custom p); localStorage := localStorage p |}.

Definition set_classes (v : value) : Page → Page :=
  set_custom (λ c, {| classes := v; repoClasses := repoClasses c;
                      customUrls := customUrls c; repoEnabled := repoEnabled c;
                      repoDescriptions := repoDescriptions c |}).

Definition set_repoClasses (v : value) : Page → Page :=
  set_custom (λ c, {| classes := classes c; repoClasses := v;
                      customUrls := customUrls c; repoEnabled := repoEnabled c;
                      repoDescriptions := repoDescriptions c |}).

Definition set_customUrls (v : value) : Page → Page :=
  set_custom (λ c, {| classes := classes c; repoClasses := repoClasses c;
                      customUrls := v; repoEnabled := repoEnabled c;
                      repoDescriptions := repoDescriptions c |}).

Definition set_repoEnabled (v : value) : Page → Page :=
  set_custom (λ c, {| classes := classes c; repoClasses := repoClasses c;
                      customUrls := customUrls c; repoEnabled := v;
                      repoDescriptions := repoDescriptions c |}).

Definition set_repoDescriptions (v : value) : Page → Page :=
  set_custom (λ c, {| classes := classes c; repoClasses := repoClasses c;
                      customUrls := customUrls c; repoEnabled := repoEnabled c;
                      repoDescriptions := v |}).

Definition set_tofuUrls (v : value) (p : Page) : Page :=
  {| token := token p; username := username p; repos := repos p;
     loading := loading p; error := error p; tofuUrls := v;
     custom := custom p; localStorage := localStorage p |}.

Definition set_repos (l : list Repo) (p : Page) : Page :=
  {| token := token p; username := username p; repos := l;
     loading := loading p; error := error p; tofuUrls := tofuUrls p;
     custom := custom p; localStorage := localStorage p |}.

Definition set_loading (b : bool) (p : Page) : Page :=
  {| token := token p; username := username p; repos := repos p;
     loading := b; error := error p; tofuUrls := tofuUrls p;
     custom := custom p; localStorage := localStorage p |}.

Definition set_error (e : string) (p : Page) : Page :=
  {| token := token p; username := username p; repos := repos p;
     loading := loading p; error := e; tofuUrls := tofuUrls p;
     custom := custom p; localStorage := localStorage p |}.

Definition set_localStorage (f : Storage → Storage) (p : Page) : Page :=
  {| token := token p; username := username p; repos := repos p;
     loading := loading p; error := error p; tofuUrls := tofuUrls p;
     custom := custom p; localStorage := f (localStorage p) |}.

(** [function persistGithub()]. *)
Definition persistGithub (p : Page) : Page :=
  set_localStorage (λ s,
    {| repomgr_token := Some (token p);
       repomgr_username := Some (username p);
       repomgr_github := Some (repos p);
       repomgr_tofu_urls := repomgr_tofu_urls s;
       repomgr_custom := repomgr_custom s |}) p.

(** [function persistTofuUrls()]. *)
Definition persistTofuUrls (p : Page) : Page :=
  set_localStorage (λ s,
    {| repomgr_token := repomgr_token s;
       repomgr_username := repomgr_username s;
       repomgr_github := repomgr_github s;
       repomgr_tofu_urls := Some (tofuUrls p);
       repomgr_custom := repomgr_custom s |}) p.

(** [function persistCustom()]. *)
Definition persistCustom (p : Page) : Page :=
  set_localStorage (λ s,
    {| repomgr_token := repomgr_token s;
       repomgr_username := repomgr_username s;
       repomgr_github := repomgr_github s;
       repomgr_tofu_urls := repomgr_tofu_urls s;
       repomgr_custom := Some (custom p) |}) p.

(** The object literal
    [{ classes, repoClasses, customUrls, repoEnabled, repoDescriptions }]. *)
Definition bundle (c : Custom) : value :=
  Obj (<["classes" := classes c]>
      (<["repoClasses" := repoClasses c]>
      (<["customUrls" := customUrls c]>
      (<["repoEnabled" := repoEnabled c]>
      (<["repoDescriptions" := repoDescriptions c]> ∅))))).

(** The custom data after the five conditional assignments of an import
    whose payload has the own properties [o]. *)
Definition imported (o : gmap string value) (c : Custom) : Custom :=
  {| classes := pick o "classes" (classes c);
     repoClasses := pick o "repoClasses" (repoClasses c);
     customUrls := pick o "customUrls" (customUrls c);
     repoEnabled := pick o "repoEnabled" (repoEnabled c);
     repoDescriptions := pick o "repoDescriptions" (repoDescriptions c) |}.

(** The five variables hold truthy values: so it is at the start, and
    import only ever assigns a truthy value. *)
Definition truthy_bundle (c : Custom) : Prop :=
  truthy (classes c) = true ∧ truthy (repoClasses c) = true
  ∧ truthy (customUrls c) = true ∧ truthy (repoEnabled c) = true
  ∧ truthy (repoDescriptions c) = true.

Section Codec.

(** The platform's [JSON.parse] ([None]: it throws a [SyntaxError]) and
    [JSON.stringify(value, null, space)]. *)
Variable JSON_parse : string → option value.
Variable JSON_stringify : value → nat → string.

(** [function exportCustomData()]. *)
Definition exportCustomData (p : Page) : string :=
  JSON_stringify (bundle (custom p)) 2.

(** The body of the [try] of [importCustomData]. *)
Definition importCustomData_try (data : string) : M Page unit :=
  let* parsed := parsing (JSON_parse data) in
  let* v := lift (member parsed "classes") in
  if_truthy v (λ x, modify (set_classes x)) ;;;
  let* v := lift (member parsed "repoClasses") in
  if_truthy v (λ x, modify (set_repoClasses x)) ;;;
  let* v := lift (member parsed "customUrls") in
  if_truthy v (λ x, modify (set_customUrls x)) ;;;
  let* v := lift (member parsed "repoEnabled") in
  if_truthy v (λ x, modify (set_repoEnabled x)) ;;;
  let* v := lift (member parsed "repoDescriptions") in
  if_truthy v (λ x, modify (set_repoDescriptions x)) ;;;
  modify persistCustom.

(** [function importCustomData(data)]: [try { ... } catch {}] keeps the
    state the body reached. *)
Definition importCustomData (data : string) (p : Page) : Page :=
  fst (importCustomData_try data p).

(** [parsed.pages_urls?.value]. *)
Definition pages_urls_value (parsed : value) : completion (option value) :=
  match member parsed "pages_urls" with
  | Normal None => Normal None
  | Normal (Some Null) => Normal None
  | Normal (Some o) => member o "value"
  | Thrown => Thrown
  | Untyped => Untyped
  end.

(** The body of the [try] of [importTofuOutput]. *)
Definition importTofuOutput_try (data : string) : M Page unit :=
  let* parsed := parsing (JSON_parse data) in
  let* v := lift (pages_urls_value parsed) in
  if_truthy v (λ x, modify (set_tofuUrls x) ;;; modify persistTofuUrls).

(** [function importTofuOutput(data)]. *)
Definition importTofuOutput (data : string) (p : Page) : Page :=
  fst (importTofuOutput_try data p).

End Codec.

(** What one REST request resolves to: the promise rejects with an [Error]
    carrying [message] (no connection, a body that is not JSON), or there
    is a response with a status and, when it is read, an array. *)
Inductive RestReply :=
| Rejected (message : string)
| Answered (status : Z) (data : list Repo).

(** How the [try] block of [fetchRepos] ends: with the list to show, or in
    the [catch] with the message of the error. *)
Inductive Attempt :=
| Got (allRepos : list Repo)
| Failed (message : string).

Section Fetch.

(** The remote: the GraphQL endpoint behind [/api/repos], and the REST
    endpoint [users/{username}/repos?per_page={n}&page={k}]. *)
Variable graphql : option string → Server.Reply.
Variable rest : string → nat → nat → RestReply.

(** The [while (true)] loop of the fallback. [fuel] bounds the number of
    turns. The second component lists the [(per_page, page)] of the
    requests issued, oldest first. *)
Fixpoint rest_loop (fuel : nat) (username : string) (allRepos : list Repo)
    (page : nat) (sent : list (nat * nat)) : option (Attempt * list (nat * nat)) :=
  match fuel with
  | O => None
  | S fuel' =>
      let sent' := (sent ++ [(100, page)])%list in
      match rest username 100 page with
      | Rejected message => Some (Failed message, sent')
      | Answered status data =>
          if negb (Server.ok status) then
            Some (Failed ("GitHub API error: " +:+ pretty status), sent')
          else
            let allRepos' := (allRepos ++ data)%list in
            if (length data <? 100)%nat then Some (Got allRepos', sent')
            else rest_loop fuel' username allRepos' (S page) sent'
      end
  end.

(** The token branch: the page posts [{ token }] to its own endpoint,
    reads the body and throws when [result.error] is truthy. The status
    of the response is not looked at. *)
Definition via_server (fuel : nat) (token : string) : option Attempt :=
  match Server.POST graphql fuel token with
  | None => None
  | Some (result, _) =>
      match Server.error result with
      | Some message =>
          if truthy_str message then Some (Failed message)
          else Some (Got (Server.repos result))
      | None => Some (Got (Server.repos result))
      end
  end.

(** The [try] block of [fetchRepos] up to the assignment to [repos]: the
    token branch when there is a token, the REST fallback otherwise. *)
Definition attempt (fuel : nat) (p : Page) : option Attempt :=
  if truthy_str (token p) then via_server fuel (token p)
  else fst <$> rest_loop fuel (username p) [] 1 [].

(** [async function fetchRepos()]. [None]: the loops did not finish within
    [fuel] turns. *)
Definition fetchRepos (fuel : nat) (p : Page) : option Page :=
  if negb (truthy_str (token p)) && negb (truthy_str (username p)) then Some p
  else
    let p := set_error EmptyString (set_loading true p) in
    match attempt fuel p with
    | None => None
    | Some (Got allRepos) =>
        Some (set_loading false (persistGithub (set_repos allRepos p)))
    | Some (Failed message) =>
        Some (set_loading false (set_repos [] (set_error message p)))
    end.

End Fetch.

(** A REST remote that pages through [records]: page [k] (from 1) holds
    the next [per_page] records after the first [per_page * (k - 1)]. *)
Definition rest_of (records : list Repo) (username : string)
    (per_page page : nat) : RestReply :=
  Answered 200 (take per_page (drop (per_page * (page - 1)) records)).

(** The annotation state at its declared types:
    [string[]], [Record<string, string>], [Record<string, string[]>],
    [Record<string, boolean>], [Record<string, string>]. *)
Record Annotations := mkAnnotations {
  a_classes : list string;
  a_repoClasses : gmap string string;
  a_customUrls : gmap string (list string);
  a_repoEnabled : gmap string bool;
  a_repoDescriptions : gmap string string
}.

(** The values that hold such a state. *)
Definition of_annotations (a : Annotations) : Custom :=
  {| classes := Arr (Str <$> a_classes a);
     repoClasses := Obj (Str <$> a_repoClasses a);
     customUrls := Obj ((λ urls, Arr (Str <$> urls)) <$> a_customUrls a);
     repoEnabled := Obj (Bool <$> a_repoEnabled a);
     repoDescriptions := Obj (Str <$> a_repoDescriptions a) |}.

End Layered.

(** ** The page with a single URL layer ([routes/+page.svelte]) *)

Module Flat.
Import Js.

(** [localStorage], for the keys that [persistClasses] writes. *)
Record Storage := mkStorage {
  repomgr_classes : option value;
  repomgr_repo_classes : option value;
  repomgr_repo_urls : option value;
  repomgr_repo_enabled : option value;
  repomgr_repo_descriptions : option value
}.

(** The [$state] variables that import and export read and write, and the
    store. ([token], [username], [repos], [loading] and [error] are not
    touched by them.) *)
Record Page := mkPage {
  classes : value;
  repoClasses : value;
  repoUrls : value;
  repoEnabled : value;
  repoDescriptions : value;
  localStorage : Storage
}.

Definition set_classes (v : value) (p : Page) : Page :=
  {| classes := v; repoClasses := repoClasses p; repoUrls := repoUrls p;
     repoEnabled := repoEnabled p; repoDescriptions := repoDescriptions p;
     localStorage := localStorage p |}.

Definition set_repoClasses (v : value) (p : Page) : Page :=
  {| classes := classes p; repoClasses := v; repoUrls := repoUrls p;
     repoEnabled := repoEnabled p; repoDescriptions := repoDescriptions p;
     localStorage := localStorage p |}.

Definition set_repoUrls (v : value) (p : Page) : Page :=
  {| classes := classes p; repoClasses := repoClasses p; repoUrls := v;
     repoEnabled := repoEnabled p; repoDescriptions := repoDescriptions p;
     localStorage := localStorage p |}.

Definition set_repoEnabled (v : value) (p : Page) : Page :=
  {| classes := classes p; repoClasses := repoClasses p; repoUrls := repoUrls p;
     repoEnabled := v; repoDescriptions := repoDescriptions p;
     localStorage := localStorage p |}.

Definition set_repoDescriptions (v : value) (p : Page) : Page :=
  {| classes := classes p; repoClasses := repoClasses p; repoUrls := repoUrls p;
     repoEnabled := repoEnabled p; repoDescriptions := v;
     localStorage := localStorage p |}.

(** [function persistClasses()]. *)
Definition persistClasses (p : Page) : Page :=
  {| classes := classes p; repoClasses := repoClasses p; repoUrls := repoUrls p;
     repoEnabled := repoEnabled p; repoDescriptions := repoDescriptions p;
     localStorage :=
       {| repomgr_classes := Some (classes p);
          repomgr_repo_classes := Some (repoClasses p);
          repomgr_repo_urls := Some (repoUrls p);
          repomgr_repo_enabled := Some (repoEnabled p);
          repomgr_repo_descriptions := Some (repoDescriptions p) |} |}.

(** One turn of the migration loop:
    [if (typeof urls[key] === 'string') urls[key] = urls[key] ? [urls[key]] : []]. *)
Definition migrate_entry (v : value) : value :=
  match v with
  | Str s => if truthy_str s then Arr [Str s] else Arr []
  | _ => v
  end.

(** The migration loop over [Object.keys(urls)]. A dictionary and an array
    are rewritten entry by entry. A number or a boolean has no keys. The
    keys of a string are its indices and each entry is a string, so the
    first turn assigns into a string, which throws in a module (strict
    mode); [Object.keys(null)] throws as well. *)
Definition migrate (urls : value) : completion value :=
  match urls with
  | Obj o => Normal (Obj (migrate_entry <$> o))
  | Arr l => Normal (Arr (migrate_entry <$> l))
  | Str EmptyString => Normal urls
  | Str (String _ _) => Thrown
  | Null => Thrown
  | Num _ => Normal urls
  | Bool _ => Normal urls
  end.

(** One turn of the legacy loop, for the entry [[key, value]]:
    [if (typeof value === 'string' && value)
       repoUrls[key] = [...(repoUrls[key] || []), value]].
    Followed where [repoUrls] is a dictionary and the entry under [key] is
    missing, falsy or an array. A built-in read under an inherited name
    is truthy and cannot be spread: the turn throws. *)
Definition append_url (key : string) (value : Js.value) : M Page unit :=
  match value with
  | Str s =>
      if truthy_str s then
        let* urls := gets repoUrls in
        match urls with
        | Obj o =>
            match Proto.get o key with
            | None => modify (set_repoUrls (Obj (<[key := Arr [value]]> o)))
            | Some (Proto.Builtin _) => lift Thrown
            | Some (Proto.Own (Arr l)) =>
                modify (set_repoUrls (Obj (<[key := Arr (l ++ [value])]> o)))
            | Some (Proto.Own e) =>
                if truthy e then lift Untyped
                else modify (set_repoUrls (Obj (<[key := Arr [value]]> o)))
            end
        | _ => lift Untyped
        end
      else ret tt
  | _ => ret tt
  end.

Section Codec.

Variable JSON_parse : string → option value.
Variable JSON_stringify : value → nat → string.

(** [Object.entries] of a dictionary: its own properties, each once, in
    the order of the platform (index-like keys first, then the others as
    they were added), which a finite map does not keep. *)
Variable Object_entries : gmap string value → list (string * value).

(** The legacy loop over [Object.entries(parsed.pages_urls.value)]: one
    turn per own property of a dictionary, in their order; a turn that
    throws ends the loop with the entries before it appended. A number or
    a boolean has no entries. The entries of an array or of a string are
    not followed. *)
Definition append_all (v : value) : M Page unit :=
  match v with
  | Obj m =>
      foldl (λ turns entry, turns ;;; append_url entry.1 entry.2) (ret tt)
        (Object_entries m)
  | Num _ => ret tt
  | Bool _ => ret tt
  | _ => lift Untyped
  end.

(** [function exportClassData()]. *)
Definition exportClassData (p : Page) : string :=
  JSON_stringify
    (Obj (<["classes" := classes p]>
         (<["repoClasses" := repoClasses p]>
         (<["repoUrls" := repoUrls p]>
         (<["repoEnabled" := repoEnabled p]>
         (<["repoDescriptions" := repoDescriptions p]> ∅)))))) 2.

(** The body of the [try] of [importClassData]. *)
Definition importClassData_try (data : string) : M Page unit :=
  let* parsed := parsing (JSON_parse data) in
  let* v := lift (member parsed "classes") in
  if_truthy v (λ x, modify (set_classes x)) ;;;
  let* v := lift (member parsed "repoClasses") in
  if_truthy v (λ x, modify (set_repoClasses x)) ;;;
  let* v := lift (member parsed "repoUrls") in
  if_truthy v (λ x, let* urls := lift (migrate x) in modify (set_repoUrls urls)) ;;;
  let* v := lift (member parsed "repoEnabled") in
  if_truthy v (λ x, modify (set_repoEnabled x)) ;;;
  let* v := lift (member parsed "repoDescriptions") in
  if_truthy v (λ x, modify (set_repoDescriptions x)) ;;;
  let* v := lift (Layered.pages_urls_value parsed) in
  if_truthy v append_all ;;;
  modify persistClasses.

(** [function importClassData(data)]: [try { ... } catch {}] keeps the
    state the body reached; [None] when the run is not followed to its
    end. *)
Definition importClassData (data : string) (p : Page) : option Page :=
  match importClassData_try data p with
  | (_, Untyped) => None
  | (p', _) => Some p'
  end.

End Codec.

(** [Object.entries] lists the own properties, each once. *)
Definition enumerates (entries : gmap string value → list (string * value)) : Prop :=
  ∀ m, entries m ≡ₚ map_to_list m.

(** The four plain variables around the URL layer: [classes] and
    [repoClasses] are assigned before it, [repoEnabled] and
    [repoDescriptions] after it. *)
Definition simple_before (payload : gmap string value) (p : Page) : Page :=
  assign (payload !! "repoClasses") set_repoClasses
    (assign (payload !! "classes") set_classes p).

Definition simple_after (payload : gmap string value) (p : Page) : Page :=
  assign (payload !! "repoDescriptions") set_repoDescriptions
    (assign (payload !! "repoEnabled") set_repoEnabled p).

(** What the legacy loop is to compute for one name: the non-empty string
    [value] goes to the end of the array already there. *)
Definition appended (existing incoming : option value) : option value :=
  match incoming with
  | Some (Str s) =>
      if truthy_str s then
        match existing with
        | Some (Arr l) => Some (Arr (l ++ [Str s]))
        | _ => Some (Arr [Str s])
        end
      else existing
  | _ => existing
  end.

(** A turn of the legacy loop that throws: a non-empty string filed under
    an inherited name for which the dictionary [o] has no entry. *)
Definition stops (o : gmap string value) (key : string) (value : Js.value) : bool :=
  match value with
  | Str s => truthy_str s && bool_decide (o !! key = None) && Proto.inherited key
  | _ => false
  end.

(** Every entry that a legacy payload touches is an array, or missing or
    falsy. *)
Definition appendable (o : gmap string value) : Prop :=
  ∀ k e, o !! k = Some e → truthy e = true → ∃ l, e = Arr l.

End Flat.

(** ** A small JSON reader and printer

    An instance of the platform's codec for the documents the page
    exchanges, to run import and export on concrete texts. *)

Module MiniJson.
Import Js.

Definition newline : ascii := ascii_of_nat 10.

(** The double quote. *)
Definition dquote : ascii := ascii_of_nat 34.

(** A JSON text written with ['] where the text has a double quote. *)
Fixpoint text (s : string) : string :=
  match s with
  | EmptyString => EmptyString
  | String c r => String (if Ascii.eqb c "'" then dquote else c) (text r)
  end.

Definition is_space (c : ascii) : bool :=
  match nat_of_ascii c with
  | 32 | 10 | 13 | 9 => true
  | _ => false
  end.

Definition digit (c : ascii) : option Z :=
  let n := nat_of_ascii c in
  if (48 <=? n)%nat && (n <=? 57)%nat then Some (Z.of_nat (n - 48)) else None.

Fixpoint skip (s : string) : string :=
  match s with
  | String c r => if is_space c then skip r else s
  | EmptyString => s
  end.

(** The characters of a string literal, after the opening quote; the
    escapes are those of [quote]. *)
Fixpoint read_chars (s : string) : option (string * string) :=
  match s with
  | EmptyString => None
  | String c r =>
      if Ascii.eqb c dquote then Some (EmptyString, r)
      else if Ascii.eqb c "\" then
        match r with
        | String e r' =>
            match read_chars r' with
            | Some (x, rest) =>
                if Ascii.eqb e "n" then Some (String newline x, rest)
                else Some (String e x, rest)
            | None => None
            end
        | EmptyString => None
        end
      else
        match read_chars r with
        | Some (x, rest) => Some (String c x, rest)
        | None => None
        end
  end.

Fixpoint read_digits (s : string) (acc : Z) : Z * string :=
  match s with
  | String c r =>
      match digit c with
      | Some d => read_digits r (10 * acc + d)
      | None => (acc, s)
      end
  | EmptyString => (acc, s)
  end.

Definition read_number (s : string) : option (value * string) :=
  match s with
  | String "-" (String c r as digits) =>
      match digit c with
      | Some _ => let '(n, rest) := read_digits digits 0 in Some (Num (- n), rest)
      | None => None
      end
  | String c _ =>
      match digit c with
      | Some _ => let '(n, rest) := read_digits s 0 in Some (Num n, rest)
      | None => None
      end
  | EmptyString => None
  end.

Definition after (prefix s : string) : option string :=
  if String.prefix prefix s
  then Some (String.substring (String.length prefix)
                              (String.length s - String.length prefix) s)
  else None.

(** A value, the elements of an array after [[], the members of an
    object after [{]. *)
Fixpoint read_value (fuel : nat) (s : string) : option (value * string) :=
  match fuel with
  | O => None
  | S fuel' =>
      match skip s with
      | EmptyString => None
      | String c r =>
          if Ascii.eqb c dquote then
            match read_chars r with
            | Some (x, rest) => Some (Str x, rest)
            | None => None
            end
          else if Ascii.eqb c "[" then
            match skip r with
            | String "]" rest => Some (Arr [], rest)
            | _ =>
                match read_elements fuel' r with
                | Some (l, rest) => Some (Arr l, rest)
                | None => None
                end
            end
          else if Ascii.eqb c "{" then
            match skip r with
            | String "}" rest => Some (Obj ∅, rest)
            | _ =>
                match read_members fuel' r with
                | Some (o, rest) => Some (Obj o, rest)
                | None => None
                end
            end
          else
            let t := String c r in
            match after "null" t, after "true" t, after "false" t with
            | Some rest, _, _ => Some (Null, rest)
            | _, Some rest, _ => Some (Bool true, rest)
            | _, _, Some rest => Some (Bool false, rest)
            | _, _, _ => read_number t
            end
      end
  end
with read_elements (fuel : nat) (s : string) : option (list value * string) :=
  match fuel with
  | O => None
  | S fuel' =>
      match read_value fuel' s with
      | Some (v, r) =>
          match skip r with
          | String "]" rest => Some ([v], rest)
          | String "," rest =>
              match read_elements fuel' rest with
              | Some (l, rest') => Some (v :: l, rest')
              | None => None
              end
          | _ => None
          end
      | None => None
      end
  end
with read_members (fuel : nat) (s : string) : option (gmap string value * string) :=
  match fuel with
  | O => None
  | S fuel' =>
      match skip s with
      | EmptyString => None
      | String c r =>
          if Ascii.eqb c dquote then
            match read_chars r with
            | Some (k, r1) =>
                match skip r1 with
                | String ":" r2 =>
                    match read_value fuel' r2 with
                    | Some (v, r3) =>
                        match skip r3 with
                        | String "}" rest => Some ({[k := v]}, rest)
                        | String "," rest =>
                            match read_members fuel' rest with
                            | Some (o, rest') =>
                                (* a later member with the same key wins *)
                                Some (match o !! k with
                                      | Some _ => o
                                      | None => <[k := v]> o
                                      end, rest')
                            | None => None
                            end
                        | _ => None
                        end
                    | None => None
                    end
                | _ => None
                end
            | None => None
            end
          else None
      end
  end.

(** [parse]: the whole text is one value. *)
Definition parse (s : string) : option value :=
  match read_value (2 * String.length s + 2) s with
  | Some (v, rest) =>
      match skip rest with
      | EmptyString => Some v
      | _ => None
      end
  | None => None
  end.

Fixpoint quote_chars (s : string) : string :=
  match s with
  | EmptyString => String dquote EmptyString
  | String c r =>
      if Ascii.eqb c dquote || Ascii.eqb c "\" then String "\" (String c (quote_chars r))
      else if Ascii.eqb c newline then String "\" (String "n" (quote_chars r))
      else String c (quote_chars r)
  end.

Definition quote (s : string) : string := String dquote (quote_chars s).

Fixpoint spaces (n : nat) : string :=
  match n with
  | O => EmptyString
  | S n' => String " " (spaces n')
  end.

Definition break (space level : nat) : string :=
  match space with
  | O => EmptyString
  | _ => String newline (spaces (space * level))
  end.

Fixpoint print (space level : nat) (v : value) : string :=
  match v with
  | Null => "null"
  | Bool true => "true"
  | Bool false => "false"
  | Num n => pretty n
  | Str s => quote s
  | Arr [] => "[]"
  | Arr l =>
      "[" +:+ break space (S level)
      +:+ join ("," +:+ break space (S level)) (print space (S level) <$> l)
      +:+ break space level +:+ "]"
  | Obj o =>
      match map_fold (λ k x acc,
                (quote k +:+ (if space is O then ":" else ": ")
                 +:+ print space (S level) x) :: acc) [] o with
      | [] => "{}"
      | members =>
          "{" +:+ break space (S level)
          +:+ join ("," +:+ break space (S level)) members
          +:+ break space level +:+ "}"
      end
  end.

(** [stringify value space]. *)
Definition stringify (v : value) (space : nat) : string := print space 0 v.

(** The fuel that [read_value] uses up on the text of a value: one unit
    for the value, and one for each element or member on top of its
    own. *)
Fixpoint cost (v : value) : nat :=
  match v with
  | Arr l => S (foldr (λ x acc, S (cost x + acc)) 0 l)
  | Obj o => S (map_fold (λ _ x acc, S (cost x + acc)) 0 o)
  | _ => 1
  end.

(** A text that does not go on with a digit: what follows a number. *)
Definition ends_number (rest : string) : Prop :=
  match rest with
  | String c _ => digit c = None
  | EmptyString => True
  end.

(** The text of a number starts with a digit or a minus sign. *)
Inductive number_start : string → Prop :=
| start_digit d r : (d < 10)%N → number_start (String (pretty_N_char d) r)
| start_minus d r : (d < 10)%N → number_start (String "-" (String (pretty_N_char d) r)).

(** The text of a member of an object, as [print] writes it. *)
Definition member_text (space level : nat) (kx : string * value) : string :=
  quote kx.1 +:+ (if space is O then ":" else ": ") +:+ print space level kx.2.

End MiniJson.

(** ** The URL merge rule in the words of the specification *)

Module Stated.

(** [resolvedUrls = [infraUrls[name]] (if present and non-empty)
      ++ annotations[ownerKey].customUrls (if present)], empty entries
    filtered out: the infra layer is read under the bare name, the custom
    layer under the repo key ["{owner}/{name}"]. *)
Definition resolvedUrls (infraUrls : gmap string string)
    (customUrls : gmap string (list string)) (r : Repo) : list string :=
  ((match infraUrls !! name r with
    | Some url => if truthy_str url then [url] else []
    | None => []
    end)
   ++ List.filter truthy_str (nullish (customUrls !! repoKey r) []))%list.

End Stated.

(** ** Sample data *)

Module Sample.

Definition repo (owner name : string) (fork private : bool) : Repo :=
  mkRepo name ("https://github.com/" +:+ owner +:+ "/" +:+ name) None None
         fork private 0 "2024-01-01T00:00:00Z" 0 owner None.

Definition site : Repo := repo "octo" "site" false false.

(** The stored list of an earlier fetch. *)
Definition earlier : list Repo := [site; repo "octo" "notes" false true].

(** Two public repositories, a private one and a fork. *)
Definition four : list Repo :=
  [ repo "octo" "site" false false;
    repo "octo" "notes" false true;
    repo "octo" "linux" true false;
    repo "octo" "tools" false false ].

(** Nodes [repo-start], ..., one per number. *)
Definition node (i : nat) : Server.RepoNode :=
  Server.mkNode ("repo-" +:+ pretty i) None
    ("https://github.com/octo/repo-" +:+ pretty i) 0 None None false false
    "2024-01-01T00:00:00Z" 0 "octo" (Some 1%Z).

Definition nodes_from (start count : nat) : list Server.RepoNode :=
  node <$> seq start count.

Definition success (d : Server.Repositories) : Server.Reply :=
  {| Server.status := 200;
     Server.body := {| Server.data := Some d; Server.errors := None |} |}.

(** An account without repositories: one empty page. *)
Definition empty_page : Server.Repositories :=
  {| Server.totalCount := 0; Server.hasNextPage := false;
     Server.endCursor := None; Server.nodes := [] |}.

Definition empty_account (cursor : option string) : Server.Reply :=
  success empty_page.

(** An account with 150 repositories: a full page, then 50. *)
Definition page_one : Server.Repositories :=
  {| Server.totalCount := 150; Server.hasNextPage := true;
     Server.endCursor := Some "Y3Vyc29yOjEwMA=="; Server.nodes := nodes_from 0 100 |}.

Definition page_two : Server.Repositories :=
  {| Server.totalCount := 150; Server.hasNextPage := false;
     Server.endCursor := Some "Y3Vyc29yOjE1MA=="; Server.nodes := nodes_from 100 50 |}.

Definition two_pages (cursor : option string) : Server.Reply :=
  match cursor with
  | None => success page_one
  | Some _ => success page_two
  end.

(** The same account, but the second request is answered with status 200
    and an error whose message is empty. *)
Definition silent_error (cursor : option string) : Server.Reply :=
  match cursor with
  | None => success page_one
  | Some _ =>
      {| Server.status := 200;
         Server.body := {| Server.data := None; Server.errors := Some [EmptyString] |} |}
  end.

(** The same account, but the second request is answered with status 502. *)
Definition bad_gateway (cursor : option string) : Server.Reply :=
  match cursor with
  | None => success page_one
  | Some _ =>
      {| Server.status := 502;
         Server.body := {| Server.data := None; Server.errors := None |} |}
  end.

(** No REST endpoint is asked on the token path. *)
Definition no_rest (username : string) (per_page page : nat) : Layered.RestReply :=
  Layered.Rejected "Failed to fetch".

Definition no_store : Layered.Storage :=
  {| Layered.repomgr_token := None; Layered.repomgr_username := None;
     Layered.repomgr_github := None; Layered.repomgr_tofu_urls := None;
     Layered.repomgr_custom := None |}.

(** A page that holds a token and the list of an earlier fetch, in memory
    and in the store. *)
Definition with_token : Layered.Page :=
  Layered.persistGithub
    {| Layered.token := "ghp_token"; Layered.username := EmptyString;
       Layered.repos := earlier; Layered.loading := false; Layered.error := EmptyString;
       Layered.tofuUrls := Js.Obj ∅;
       Layered.custom := Layered.custom (Layered.initial no_store);
       Layered.localStorage := no_store |}.

(** A page that holds a user name only. *)
Definition with_username : Layered.Page :=
  Layered.persistGithub
    {| Layered.token := EmptyString; Layered.username := "octo";
       Layered.repos := earlier; Layered.loading := false; Layered.error := EmptyString;
       Layered.tofuUrls := Js.Obj ∅;
       Layered.custom := Layered.custom (Layered.initial no_store);
       Layered.localStorage := no_store |}.

(** An annotation state at its declared types. *)
Definition annotations : Layered.Annotations :=
  {| Layered.a_classes := ["lib"; "app"];
     Layered.a_repoClasses := {["octo/site" := "app"]};
     Layered.a_customUrls :=
       <["site" := ["https://octo.example"; "https://octo.example"]]>
         {["notes" := []]};
     Layered.a_repoEnabled := <["octo/site" := true]> {["octo/notes" := false]};
     Layered.a_repoDescriptions := {["octo/site" := "docs\site"]} |}.

(** The page that holds it. *)
Definition annotated : Layered.Page :=
  Layered.set_custom (λ _, Layered.of_annotations annotations) with_username.

(** A page with a single URL layer that holds [urls]. *)
Definition flat_store : Flat.Storage :=
  {| Flat.repomgr_classes := None; Flat.repomgr_repo_classes := None;
     Flat.repomgr_repo_urls := None; Flat.repomgr_repo_enabled := None;
     Flat.repomgr_repo_descriptions := None |}.

Definition flat_page (urls : gmap string Js.value) : Flat.Page :=
  {| Flat.classes := Js.Arr []; Flat.repoClasses := Js.Obj ∅;
     Flat.repoUrls := Js.Obj urls;
     Flat.repoEnabled := Js.Obj ∅; Flat.repoDescriptions := Js.Obj ∅;
     Flat.localStorage := flat_store |}.

(** Records [repo-0], ..., for the REST endpoint. *)
Definition records (count : nat) : list Repo :=
  (λ i, repo "octo" ("repo-" +:+ pretty i) false false) <$> seq 0 count.

End Sample.

(** ** The counts next to the filter options *)

Module Aggregates.

(** What a tally can hold under a key, or answer to a read: a number; the
    built-in that a plain object inherits under the name [k]; or a text.
    A text is kept as its pieces: [Source k] is the built-in under [k]
    converted to a string, [Digits n] the decimal digits of [n]. *)
Inductive piece :=
| Source (k : string)
| Digits (n : nat).

Inductive tally :=
| Count (n : nat)
| Native (k : string)
| Text (t : list piece).

(** [ToString]. *)
Definition pieces (e : tally) : list piece :=
  match e with
  | Count n => [Digits n]
  | Native k => [Source k]
  | Text t => t
  end.

(** [a + b]: the sum of two numbers, the concatenation otherwise. *)
Definition plus (a b : tally) : tally :=
  match a, b with
  | Count x, Count y => Count (x + y)
  | _, _ => Text (pieces a ++ pieces b)
  end.

(** [counts[k] || 0], the value put next to an option: zero and the empty
    text are falsy, a built-in is truthy. *)
Definition shown (counts : gmap string tally) (k : string) : tally :=
  match Proto.get counts k with
  | Some (Proto.Own (Text [])) => Count 0
  | Some (Proto.Own e) => e
  | Some (Proto.Builtin b) => Native b
  | None => Count 0
  end.

(** The assignment [acc[k] = e] of a number or a text. Under the key
    [__proto__], when [acc] has no such property of its own, it reaches
    the setter of [Object.prototype], which ignores a value that is not
    an object. *)
Definition store (k : string) (e : tally) (acc : gmap string tally)
    : gmap string tally :=
  match acc !! k with
  | None => if String.eqb k "__proto__" then acc else <[k := e]> acc
  | Some _ => <[k := e]> acc
  end.

(** One turn of the reducers: [acc[k] = (acc[k] || 0) + 1]. *)
Definition bump (k : string) (acc : gmap string tally) : gmap string tally :=
  store k (plus (shown acc k) (Count 1)) acc.

(** [const languageCounts = $derived(repos.reduce(...))]. *)
Definition languageCounts (repos : list Repo) : gmap string tally :=
  foldl (λ acc r, bump (nullish (language r) "(none)") acc) ∅ repos.

(** [const typeCounts]. *)
Definition typeCounts (repos : list Repo) : gmap string tally :=
  foldl (λ acc r, bump (View.getType r) acc) ∅ repos.

(** [const ownerCounts]. *)
Definition ownerCounts (repos : list Repo) : gmap string tally :=
  foldl (λ acc r, bump (owner r) acc) ∅ repos.

(** [const classCounts]: the key is [repoClasses[repoKey(r)] || '(none)']. *)
Definition classCounts (repoClasses : gmap string string) (repos : list Repo)
    : gmap string tally :=
  foldl (λ acc r, bump (or_str (repoClasses !! repoKey r) "(none)") acc) ∅ repos.

(** [const sourceCount]. *)
Definition sourceCount (repos : list Repo) : tally :=
  plus (shown (typeCounts repos) "Public") (shown (typeCounts repos) "Private").

(** The number next to a type option:
    [type === 'Sources' ? sourceCount : typeCounts[type] || 0]. *)
Definition type_option_count (repos : list Repo) (type : string) : tally :=
  if String.eqb type "Sources" then sourceCount repos
  else shown (typeCounts repos) type.

(** [filterFn] of the [language] column:
    [row.original.language === filterValue]. *)
Definition language_filterFn (row : Repo) (filterValue : string) : bool :=
  match language row with
  | Some l => String.eqb l filterValue
  | None => false
  end.

(** The number that an entry holds, if it holds one. *)
Definition number (e : tally) : nat :=
  match e with
  | Count n => n
  | _ => 0
  end.

(** The sum of the numbers of a tally. *)
Definition total (counts : gmap string tally) : nat :=
  map_fold (λ _ e acc, number e + acc) 0 counts.

(** What a tally holds under a key after [n] turns for it: nothing
    before the first turn; then their number, or, under an inherited
    name, the text of the built-in followed by [n] digits 1; under
    [__proto__] nothing is ever stored. *)
Definition held (k : string) (n : nat) : option tally :=
  match n with
  | 0 => None
  | S _ =>
      if Proto.inherited k then
        if String.eqb k "__proto__" then None
        else Some (Text (Source k :: replicate n (Digits 1)))
      else Some (Count n)
  end.

(** What it shows under an inherited name after [n] turns for it. *)
Definition garbled (k : string) (n : nat) : tally :=
  match held k n with
  | Some e => e
  | None => Native k
  end.

End Aggregates.

(** ** The editing handlers of the table, at the declared types *)

Module Editor.
Import Js Layered.

(** The five annotation variables and the [repomgr_custom] key of the
    store. *)
Record State := mkState {
  annotations : Annotations;
  repomgr_custom : option Annotations
}.

Definition set_classes (l : list string) (a : Annotations) : Annotations :=
  {| a_classes := l; a_repoClasses := a_repoClasses a;
     a_customUrls := a_customUrls a; a_repoEnabled := a_repoEnabled a;
     a_repoDescriptions := a_repoDescriptions a |}.

Definition set_repoClasses (m : gmap string string) (a : Annotations) : Annotations :=
  {| a_classes := a_classes a; a_repoClasses := m;
     a_customUrls := a_customUrls a; a_repoEnabled := a_repoEnabled a;
     a_repoDescriptions := a_repoDescriptions a |}.

Definition set_customUrls (m : gmap string (list string)) (a : Annotations)
    : Annotations :=
  {| a_classes := a_classes a; a_repoClasses := a_repoClasses a;
     a_customUrls := m; a_repoEnabled := a_repoEnabled a;
     a_repoDescriptions := a_repoDescriptions a |}.

Definition set_repoEnabled (m : gmap string bool) (a : Annotations) : Annotations :=
  {| a_classes := a_classes a; a_repoClasses := a_repoClasses a;
     a_customUrls := a_customUrls a; a_repoEnabled := m;
     a_repoDescriptions := a_repoDescriptions a |}.

Definition set_repoDescriptions (m : gmap string string) (a : Annotations)
    : Annotations :=
  {| a_classes := a_classes a; a_repoClasses := a_repoClasses a;
     a_customUrls := a_customUrls a; a_repoEnabled := a_repoEnabled a;
     a_repoDescriptions := m |}.

(** An assignment to one of the variables followed by [persistCustom()]. *)
Definition update (f : Annotations → Annotations) (st : State) : State :=
  {| annotations := f (annotations st);
     repomgr_custom := Some (f (annotations st)) |}.

(** The [onkeydown] of the class input on Enter; [name] is the trimmed
    text of the input. *)
Definition add_class (name : string) (st : State) : State :=
  if truthy_str name then
    if bool_decide (name ∈ a_classes (annotations st)) then st
    else update (λ a, set_classes (a_classes a ++ [name]) a) st
  else st.

(** The [onclick] of the button next to the class [cls]:
    [classes = classes.filter((c) => c !== cls)]. *)
Definition delete_class (cls : string) (st : State) : State :=
  update (λ a, set_classes
                 (List.filter (λ c, negb (String.eqb c cls)) (a_classes a)) a) st.

(** The [onclick] of the cell of the [enabled] column:
    [repoEnabled[key] = !repoEnabled[key]]; a missing entry is
    [undefined], whose negation is [true]. *)
Definition toggle_enabled (row : Repo) (st : State) : State :=
  update (λ a, set_repoEnabled
                 (<[repoKey row :=
                      negb (nullish (a_repoEnabled a !! repoKey row) false)]>
                    (a_repoEnabled a)) a) st.

(** [{@const repoCustomUrls = customUrls[repoName] ?? []}]: the array under
    the bare name, the empty array, or a built-in when the name is one
    that every object inherits and [customUrls] has no entry of its own
    for it. *)
Definition repoCustomUrls (st : State) (repoName : string)
    : Proto.found (list string) :=
  nullish (Proto.get (a_customUrls (annotations st)) repoName) (Proto.Own []).

(** The [oninput] of the [i]-th custom URL of the repository name
    [repoName]. The inputs are rendered from the list, so there is none
    beyond its end ([None]). An input rendered for a built-in throws in
    [[...repoCustomUrls]], before anything is assigned. *)
Definition edit_url (repoName : string) (i : nat) (value : string) (st : State)
    : option (completion State) :=
  match repoCustomUrls st repoName with
  | Proto.Own urls =>
      if i <? length urls then
        Some (Normal (update (λ a, set_customUrls
                                     (<[repoName := <[i := value]> urls]>
                                        (a_customUrls a)) a) st))
      else None
  | Proto.Builtin _ => Some Thrown
  end.

(** The [onclick] of the button next to the [i]-th custom URL:
    [repoCustomUrls.filter((_, idx) => idx !== i)]; a built-in has no
    [filter], so the call throws. *)
Definition remove_url (repoName : string) (i : nat) (st : State)
    : completion State :=
  match repoCustomUrls st repoName with
  | Proto.Own urls =>
      Normal (update (λ a, set_customUrls
                             (<[repoName := delete i urls]> (a_customUrls a)) a) st)
  | Proto.Builtin _ => Thrown
  end.

(** The [onkeydown] of the new-URL input on Enter; [value] is the trimmed
    text of the input. Spreading a built-in throws, before anything is
    assigned. *)
Definition add_url (repoName : string) (value : string) (st : State)
    : completion State :=
  if truthy_str value then
    match repoCustomUrls st repoName with
    | Proto.Own urls =>
        Normal (update (λ a, set_customUrls
                               (<[repoName := urls ++ [value]]> (a_customUrls a)) a) st)
    | Proto.Builtin _ => Thrown
    end
  else Normal st.

(** The [oninput] of the description text area. *)
Definition edit_description (row : Repo) (value : string) (st : State) : State :=
  update (λ a, set_repoDescriptions
                 (<[repoKey row := value]> (a_repoDescriptions a)) a) st.

(** The [onclick] of "Clear Override": [delete repoDescriptions[key]]. *)
Definition clear_description (row : Repo) (st : State) : State :=
  update (λ a, set_repoDescriptions
                 (delete (repoKey row) (a_repoDescriptions a)) a) st.

(** The [onValueChange] of the class select: [repoClasses[key] = v ?? '']. *)
Definition select_class (row : Repo) (v : option string) (st : State) : State :=
  update (λ a, set_repoClasses
                 (<[repoKey row := nullish v EmptyString]> (a_repoClasses a)) a) st.

(** The handlers as events. *)
Inductive event :=
| AddClass (name : string)
| DeleteClass (cls : string)
| ToggleEnabled (row : Repo)
| EditUrl (repoName : string) (i : nat) (value : string)
| RemoveUrl (repoName : string) (i : nat)
| AddUrl (repoName : string) (value : string)
| EditDescription (row : Repo) (value : string)
| ClearDescription (row : Repo)
| SelectClass (row : Repo) (v : option string).

(** The state after a handler: one that throws has assigned nothing and
    stored nothing, and the page goes on with the state it had. *)
Definition settle (c : completion State) (st : State) : State :=
  match c with
  | Normal st' => st'
  | _ => st
  end.

Definition handle (e : event) (st : State) : option State :=
  match e with
  | AddClass name => Some (add_class name st)
  | DeleteClass cls => Some (delete_class cls st)
  | ToggleEnabled row => Some (toggle_enabled row st)
  | EditUrl repoName i value =>
      match edit_url repoName i value st with
      | Some c => Some (settle c st)
      | None => None
      end
  | RemoveUrl repoName i => Some (settle (remove_url repoName i st) st)
  | AddUrl repoName value => Some (settle (add_url repoName value st) st)
  | EditDescription row value => Some (edit_description row value st)
  | ClearDescription row => Some (clear_description row st)
  | SelectClass row v => Some (select_class row v st)
  end.

(** A sequence of events, oldest first. *)
Fixpoint handle_all (es : list event) (st : State) : option State :=
  match es with
  | [] => Some st
  | e :: es' =>
      match handle e st with
      | Some st' => handle_all es' st'
      | None => None
      end
  end.

(** [accessorFn] of the [enabled] column: [repoEnabled[repoKey(row)] ?? false]. *)
Definition enabled_accessorFn (repoEnabled : gmap string bool) (row : Repo) : bool :=
  nullish (repoEnabled !! repoKey row) false.

(** One record of the enabled-projects export; [Commits] is [None] for
    the empty string that stands for a missing count; [Type_] and
    [Class_] are the keys [Type] and [Class]. [URLs] holds what
    [combinedUrls[repo.name] ?? []] gives: an array, or a built-in, which
    [JSON.stringify] does not write as an array. *)
Record ProjectData := mkProjectData {
  Enabled : bool;
  Owner : string;
  Name : string;
  URLs : Proto.found (list string);
  Language : string;
  Type_ : string;
  Stars : Z;
  Commits : option Z;
  Created : string;
  Size : Z;
  Class_ : string;
  Description : string
}.

(** The record of one enabled repository. *)
Definition project (combined : gmap string (list string)) (a : Annotations)
    (repo : Repo) : ProjectData :=
  {| Enabled := true;
     Owner := owner repo;
     Name := name repo;
     URLs := View.urls_of combined repo;
     Language := nullish (language repo) EmptyString;
     Type_ := View.getType repo;
     Stars := stargazers_count repo;
     Commits := commits repo;
     Created := created_at repo;
     Size := size repo;
     Class_ := nullish (a_repoClasses a !! repoKey repo) EmptyString;
     Description := or_str (a_repoDescriptions a !! repoKey repo)
                      (or_str (description repo) EmptyString) |}.

(** The array that [exportEnabledProjectData] writes to the clipboard.
    [combinedUrls] is a derived value, computed when the first record
    reads it: without enabled repositories it is not read. *)
Definition exportEnabledProjectData (tofuUrls : gmap string string)
    (a : Annotations) (repos : list Repo) : completion (list ProjectData) :=
  let enabledRepos :=
    List.filter (λ r, nullish (a_repoEnabled a !! repoKey r) false) repos in
  match enabledRepos with
  | [] => Normal []
  | _ =>
      match View.combinedUrls tofuUrls (a_customUrls a) with
      | Normal combined => Normal (project combined a <$> enabledRepos)
      | Thrown => Thrown
      | Untyped => Untyped
      end
  end.

(** The store is in step with the variables. *)
Definition in_step (st : State) : Prop :=
  repomgr_custom st = Some (annotations st).

End Editor.

(** ** Loading the store when the page is mounted *)

Module Startup.
Import Js Layered.

(** [v ?? d] on values: only [null] (and a missing property) gives [d]. *)
Definition nullish_value (v d : value) : value :=
  match v with
  | Null => d
  | _ => v
  end.

(** [onMount] of the page with three layers. The store holds, per key, the
    value whose text was stored, so each [JSON.parse] gives that value
    back and the stored bundle has its five keys. *)
Definition onMount (p : Page) : Page :=
  let s := localStorage p in
  {| token := nullish (repomgr_token s) EmptyString;
     username := nullish (repomgr_username s) EmptyString;
     repos := nullish (repomgr_github s) (repos p);
     loading := loading p;
     error := error p;
     tofuUrls := nullish (repomgr_tofu_urls s) (tofuUrls p);
     custom :=
       match repomgr_custom s with
       | Some data =>
           {| classes := nullish_value (classes data) (Arr []);
              repoClasses := nullish_value (repoClasses data) (Obj ∅);
              customUrls := nullish_value (customUrls data) (Obj ∅);
              repoEnabled := nullish_value (repoEnabled data) (Obj ∅);
              repoDescriptions := nullish_value (repoDescriptions data) (Obj ∅) |}
       | None => custom p
       end;
     localStorage := s |}.

(** No field of the bundle is [null]. *)
Definition without_null (c : Custom) : Prop :=
  classes c ≠ Null ∧ repoClasses c ≠ Null ∧ customUrls c ≠ Null
  ∧ repoEnabled c ≠ Null ∧ repoDescriptions c ≠ Null.

End Startup.

(** ** The formats of the URL layer *)

Module Formats.
Import Js.

(** The present format: every entry is an array. *)
Definition arrays (o : gmap string value) : Prop :=
  ∀ k e, o !! k = Some e → ∃ l, e = Arr l.

(** The present or the older format: every entry is an array or a bare
    string. *)
Definition strings_or_arrays (o : gmap string value) : Prop :=
  ∀ k e, o !! k = Some e → (∃ s, e = Str s) ∨ (∃ l, e = Arr l).

End Formats.

(** ** Runs of the endpoint that stop before the last page *)

Module Runs.
Import Server.

(** From the cursor [c] the remote serves the pages [ds] in a row, each a
    success without errors that announces a next page, and so leads to
    the cursor [c']. *)
Inductive leads (graphql : option string → Reply)
    : option string → list Repositories → option string → Prop :=
| leads_here c : leads graphql c [] c
| leads_on c d ds c' :
    ok (status (graphql c)) = true →
    first_error (body (graphql c)) = None →
    data (body (graphql c)) = Some d →
    hasNextPage d = true →
    leads graphql (endCursor d) ds c' →
    leads graphql c (d :: ds) c'.

(** The cursors of the requests that fetched the pages [ds] from [c]. *)
Definition requested (c : option string) (ds : list Repositories)
    : list (option string) :=
  take (length ds) (c :: (endCursor <$> ds)).

(** The REST remote answers the pages [1], ..., [k] with full pages
    [datas]. *)
Definition full_pages (rest : string → nat → nat → Layered.RestReply)
    (username : string) (datas : list (list Repo)) : Prop :=
  ∀ j data, datas !! j = Some data →
    100 ≤ length data
    ∧ ∃ status, rest username 100 (S j) = Layered.Answered status data
                ∧ ok status = true.

End Runs.

(** ** More sample data *)

Module Cases.

(** An account whose second request is answered with status 200 and a
    body without [data] and without [errors]. *)
Definition dataless (cursor : option string) : Server.Reply :=
  match cursor with
  | None => Sample.success Sample.page_one
  | Some _ =>
      {| Server.status := 200;
         Server.body := {| Server.data := None; Server.errors := None |} |}
  end.

(** A REST remote whose second page is answered with status 403. *)
Definition rate_limited (username : string) (per_page page : nat)
    : Layered.RestReply :=
  match page with
  | 1 => Layered.Answered 200 (Sample.records 100)
  | _ => Layered.Answered 403 []
  end.

(** An editor state with two classes and one labelled repository. *)
Definition editing : Editor.State :=
  {| Editor.annotations := Sample.annotations;
     Editor.repomgr_custom := Some Sample.annotations |}.

(** Rows under three class labels: one spelled like the option for rows
    without a label, one spelled like a property of every object. *)
Definition labelled : gmap string string :=
  <["octo/site" := "app"]>
    (<["octo/notes" := "(none)"]> (<["octo/tools" := "constructor"]> ∅)).

(** A repository written in a language. *)
Definition in_language (lang : option string) (r : Repo) : Repo :=
  mkRepo (name r) (html_url r) (description r) lang (fork r) (private r)
         (stargazers_count r) (created_at r) (size r) (owner r) (commits r).

(** Two repositories in one language, one without a language, and one
    whose language is spelled like a property of every object. *)
Definition polyglot : list Repo :=
  [ in_language (Some "Rust") (Sample.repo "octo" "site" false false);
    in_language (Some "Rust") (Sample.repo "octo" "notes" false true);
    in_language None (Sample.repo "octo" "linux" true false);
    in_language (Some "constructor") (Sample.repo "octo" "tools" false false) ].

End Cases.

(** * Properties *)

(** ** Properties of the table columns *)

Section Columns.
Import View.

(** A repo key holds a slash, which no inherited name does: the maps that
    are read under repo keys never answer with a built-in. *)
Lemma repoKey_not_inherited (r : Repo) : Proto.inherited (repoKey r) = false.
Proof.
  assert (Hslash : ∀ a b, In "/"%char (list_ascii_of_string (a +:+ "/" +:+ b))).
  { intros a b. induction a as [|c a IH]; simpl; [by left | by right]. }
  destruct (Proto.inherited (repoKey r)) eqn:Hinh; [|done].
  unfold Proto.inherited in Hinh. apply existsb_exists in Hinh as (n & Hn & Heq).
  apply String.eqb_eq in Heq. specialize (Hslash (owner r) (name r)).
  fold (repoKey r) in Hslash. rewrite Heq in Hslash.
  unfold Proto.names in Hn. simpl in Hn.
  repeat (destruct Hn as [<-|Hn];
          [simpl in Hslash; repeat (destruct Hslash as [Hslash|Hslash];
                                    [discriminate|]); done|]).
  done.
Qed.

Lemma get_repoKey {A} (o : gmap string A) (r : Repo) :
  Proto.get o (repoKey r) = Proto.Own <$> o !! repoKey r.
Proof.
  unfold Proto.get. rewrite repoKey_not_inherited. by destruct (o !! repoKey r).
Qed.

Lemma getType_cases r :
  getType r = (if fork r then "Fork" else if private r then "Private" else "Public").
Proof. reflexivity. Qed.

Lemma type_filterFn_Sources r :
  type_filterFn r "Sources" = negb (fork r).
Proof.
  unfold type_filterFn, getType.
  destruct (fork r), (private r); reflexivity.
Qed.

Lemma filter_ext_eq {A} (f g : A → bool) (l : list A) :
  (∀ x, f x = g x) → List.filter f l = List.filter g l.
Proof.
  intros Hfg. induction l as [|x l IH]; simpl; [done|].
  rewrite Hfg, IH. done.
Qed.

(** The three type labels split the rows. *)
Lemma type_counts_total (repos : list Repo) :
  (length (List.filter (λ r, String.eqb (getType r) "Public") repos)
   + length (List.filter (λ r, String.eqb (getType r) "Private") repos)
   + length (List.filter (λ r, String.eqb (getType r) "Fork") repos))%nat
  = length repos.
Proof.
  induction repos as [|r repos IH]; simpl; [done|].
  rewrite (getType_cases r). destruct (fork r), (private r); simpl; lia.
Qed.

Lemma sources_count (repos : list Repo) :
  length (List.filter (λ r, type_filterFn r "Sources") repos)
  = (length (List.filter (λ r, String.eqb (getType r) "Public") repos)
     + length (List.filter (λ r, String.eqb (getType r) "Private") repos))%nat.
Proof.
  induction repos as [|r repos IH]; simpl; [done|].
  rewrite type_filterFn_Sources, (getType_cases r).
  destruct (fork r), (private r); simpl; lia.
Qed.

(** [C6] The type filter value "Sources" matches a row exactly when its
    computed type is "Public" or "Private", that is, exactly when the type
    is not "Fork"; among rows with 2 public, 1 private and 1 fork
    repositories it keeps exactly the 3 rows that are not forks. *)
Theorem sources_filter_keeps_non_forks (repos : list Repo) (r : Repo) :
  (type_filterFn r "Sources" = true ↔ getType r = "Public" ∨ getType r = "Private")
  ∧ (type_filterFn r "Sources" = false ↔ getType r = "Fork")
  ∧ (length (List.filter (λ r, String.eqb (getType r) "Public") repos) = 2%nat →
     length (List.filter (λ r, String.eqb (getType r) "Private") repos) = 1%nat →
     length (List.filter (λ r, String.eqb (getType r) "Fork") repos) = 1%nat →
     filtered_rows (λ r, type_filterFn r "Sources") repos
       = List.filter (λ r, negb (fork r)) repos
     ∧ length (filtered_rows (λ r, type_filterFn r "Sources") repos) = 3%nat
     ∧ length repos = 4%nat).
Proof.
  split; [|split].
  - rewrite type_filterFn_Sources. unfold getType.
    destruct (fork r), (private r); simpl; split; intros; try done; try tauto.
    all: destruct H; discriminate.
  - rewrite type_filterFn_Sources. unfold getType.
    destruct (fork r), (private r); simpl; split; intros; done.
  - intros Hpub Hpriv Hfork. unfold filtered_rows. split; [|split].
    + apply filter_ext_eq. intros x. apply type_filterFn_Sources.
    + rewrite sources_count, Hpub, Hpriv. reflexivity.
    + rewrite <- type_counts_total, Hpub, Hpriv, Hfork. reflexivity.
Qed.

(** [C7] The class filter value "(none)" matches a row exactly when its
    class label is empty, and the label is empty both when the repo key is
    missing from the class mapping and when it is mapped to the empty
    string: the two maps give the same answer to every filter value. *)
Theorem none_filter_matches_empty_class (repoClasses : gmap string string)
    (row : Repo) :
  (class_filterFn repoClasses row "(none)" = true
     ↔ class_accessorFn repoClasses row = EmptyString)
  ∧ (class_accessorFn repoClasses row = EmptyString
     ↔ repoClasses !! repoKey row = None ∨ repoClasses !! repoKey row = Some EmptyString)
  ∧ (∀ filterValue,
       class_filterFn (<[repoKey row := EmptyString]> repoClasses) row filterValue
       = class_filterFn (delete (repoKey row) repoClasses) row filterValue).
Proof.
  unfold class_filterFn, class_accessorFn. split; [|split].
  - simpl. apply String.eqb_eq.
  - destruct (repoClasses !! repoKey row) as [s|]; simpl; split; intros H.
    + right. by subst.
    + destruct H as [H|H]; [done|]. by inversion H.
    + by left.
    + done.
  - intros fv. rewrite lookup_insert_eq, lookup_delete_eq. reflexivity.
Qed.

(** [C8] The description shown for a row is the override when there is a
    non-empty one; otherwise (no override, or an empty one) it is the
    remote description when there is one, and the empty string when there
    is none. *)
Theorem description_override_then_remote (repoDescriptions : gmap string string)
    (row : Repo) :
  description_accessorFn repoDescriptions row =
    match repoDescriptions !! repoKey row with
    | Some (String c s) => String c s
    | Some EmptyString | None =>
        match description row with
        | Some d => d
        | None => EmptyString
        end
    end.
Proof.
  unfold description_accessorFn, or_str.
  destruct (repoDescriptions !! repoKey row) as [[|c s]|]; simpl;
    destruct (description row) as [[|c' s']|]; reflexivity.
Qed.

End Columns.

(** ** The URL column *)

Section Urls.
Import Js View.

(** A map is plain when none of the inherited names is a key of it. *)
Lemma plain_names {A} (o : gmap string A) :
  forallb (λ k, bool_decide (o !! k = None)) Proto.names = true → Proto.plain o.
Proof.
  intros Hall k Hk. unfold Proto.inherited in Hk.
  apply existsb_exists in Hk as (n & Hn & Hkn). apply String.eqb_eq in Hkn as ->.
  rewrite forallb_forall in Hall. specialize (Hall n Hn).
  by apply bool_decide_eq_true in Hall.
Qed.

Lemma plain_empty {A} : Proto.plain (∅ : gmap string A).
Proof. intros k _. apply lookup_empty. Qed.

Lemma get_plain {A} (o : gmap string A) (k : string) :
  Proto.inherited k = false →
  Proto.get o k = Proto.Own <$> o !! k.
Proof. intros Hk. unfold Proto.get. rewrite Hk. by destruct (o !! k). Qed.

Lemma get_own {A} (o : gmap string A) (k : string) (a : A) :
  o !! k = Some a → Proto.get o k = Some (Proto.Own a).
Proof. intros Hk. unfold Proto.get. by rewrite Hk. Qed.

Lemma get_builtin {A} (o : gmap string A) (k : string) :
  Proto.inherited k = true → o !! k = None →
  Proto.get o k = Some (Proto.Builtin k).
Proof. intros Hk Ho. unfold Proto.get. by rewrite Ho, Hk. Qed.

(** The first loop: it ends with one entry per truthy tofu URL, unless one
    of them is filed under [__proto__]. *)
Lemma tofu_loop (tofuUrls : gmap string string) :
  match map_fold tofu_step (Normal ∅) tofuUrls with
  | Normal r =>
      tofu_entry tofuUrls "__proto__" = None
      ∧ ∀ k, r !! k = tofu_entry tofuUrls k
  | Thrown => False
  | Untyped => tofu_entry tofuUrls "__proto__" ≠ None
  end.
Proof.
  apply (map_fold_weak_ind (λ result m,
    match result with
    | Normal r => tofu_entry m "__proto__" = None ∧ ∀ k, r !! k = tofu_entry m k
    | Thrown => False
    | Untyped => tofu_entry m "__proto__" ≠ None
    end)).
  - unfold tofu_entry. split; [by rewrite lookup_empty|].
    intros k. by rewrite !lookup_empty.
  - intros i x m result Hfresh IH. unfold tofu_step.
    destruct result as [r| |]; [|done|].
    + destruct IH as [Hp Hl].
      destruct (truthy_str x) eqn:Hx.
      * destruct (String.eqb_spec i "__proto__") as [->|Hne].
        -- unfold tofu_entry. by rewrite lookup_insert_eq, Hx.
        -- split.
           ++ unfold tofu_entry in *. by rewrite lookup_insert_ne.
           ++ intros k. unfold tofu_entry. destruct (decide (i = k)) as [<-|Hk].
              ** by rewrite !lookup_insert_eq, Hx.
              ** rewrite !lookup_insert_ne by done. apply Hl.
      * split.
        -- unfold tofu_entry in *. destruct (decide (i = "__proto__")) as [->|Hne].
           ++ by rewrite lookup_insert_eq, Hx.
           ++ by rewrite lookup_insert_ne.
        -- intros k. unfold tofu_entry. destruct (decide (i = k)) as [<-|Hk].
           ++ rewrite lookup_insert_eq, Hx, Hl. unfold tofu_entry. by rewrite Hfresh.
           ++ rewrite lookup_insert_ne by done. apply Hl.
    + unfold tofu_entry in *. destruct (decide (i = "__proto__")) as [->|Hne].
      * by rewrite Hfresh in IH.
      * by rewrite lookup_insert_ne.
Qed.

Lemma custom_loop_untyped (customUrls : gmap string (list string)) :
  map_fold custom_step Untyped customUrls = Untyped.
Proof.
  apply (map_fold_weak_ind (λ result _, result = Untyped)); [done|].
  intros i x m result _ ->. reflexivity.
Qed.

(** The second loop over the result [base] of the first: it appends name
    by name, unless a key is an inherited name without an entry in
    [base]. *)
Lemma custom_loop (base : gmap string (list string))
    (customUrls : gmap string (list string)) :
  match map_fold custom_step (Normal base) customUrls with
  | Normal r =>
      (∀ k, is_Some (customUrls !! k) → Proto.inherited k = true →
            is_Some (base !! k))
      ∧ ∀ k, r !! k = match customUrls !! k with
                      | Some urls => Some (nullish (base !! k) [] ++ urls)%list
                      | None => base !! k
                      end
  | Thrown =>
      ∃ k, is_Some (customUrls !! k) ∧ Proto.inherited k = true ∧ base !! k = None
  | Untyped => False
  end.
Proof.
  apply (map_fold_weak_ind (λ result m,
    match result with
    | Normal r =>
        (∀ k, is_Some (m !! k) → Proto.inherited k = true → is_Some (base !! k))
        ∧ ∀ k, r !! k = match m !! k with
                        | Some urls => Some (nullish (base !! k) [] ++ urls)%list
                        | None => base !! k
                        end
    | Thrown => ∃ k, is_Some (m !! k) ∧ Proto.inherited k = true ∧ base !! k = None
    | Untyped => False
    end)).
  - split.
    + intros k [x Hx]. by rewrite lookup_empty in Hx.
    + intros k. by rewrite lookup_empty.
  - intros i x m result Hfresh IH. unfold custom_step.
    destruct result as [r| |]; [| |done].
    + destruct IH as [Hin Hl].
      assert (Hri : r !! i = base !! i) by (by rewrite Hl, Hfresh).
      assert (Hput : ∀ new, new = (nullish (base !! i) [] ++ x)%list →
        (∀ k, is_Some (<[i:=x]> m !! k) → Proto.inherited k = true →
              is_Some (base !! k)) →
        (∀ k, is_Some (<[i:=x]> m !! k) → Proto.inherited k = true →
              is_Some (base !! k))
        ∧ ∀ k, <[i:=new]> r !! k
               = match <[i:=x]> m !! k with
                 | Some urls => Some (nullish (base !! k) [] ++ urls)%list
                 | None => base !! k
                 end).
      { intros new -> Hall. split; [done|]. intros k.
        destruct (decide (i = k)) as [<-|Hk].
        - by rewrite !lookup_insert_eq.
        - rewrite !lookup_insert_ne by done. apply Hl. }
      assert (Hall : is_Some (base !! i) ∨ Proto.inherited i = false →
        ∀ k, is_Some (<[i:=x]> m !! k) → Proto.inherited k = true →
             is_Some (base !! k)).
      { intros Hi k Hk Hinh. destruct (decide (i = k)) as [<-|Hne].
        - destruct Hi as [Hi|Hi]; [done | congruence].
        - rewrite lookup_insert_ne in Hk by done. by apply Hin. }
      unfold Proto.get. rewrite Hri.
      destruct (base !! i) as [l|] eqn:Hb.
      * apply Hput; [done|]. apply Hall. left. eauto.
      * destruct (Proto.inherited i) eqn:Hinh.
        -- exists i. by rewrite lookup_insert_eq.
        -- apply Hput; [done|]. apply Hall. by right.
    + destruct IH as (k & Hk & Hinh & Hb). exists k. split; [|done].
      destruct (decide (i = k)) as [<-|Hne].
      * by rewrite lookup_insert_eq.
      * by rewrite lookup_insert_ne.
Qed.

(** [combinedUrls] runs to its end when no tofu URL is filed under
    [__proto__] and every inherited name among the keys of [customUrls]
    has a tofu URL; its entries are then read off name by name. *)
Lemma combinedUrls_normal tofuUrls customUrls :
  tofu_entry tofuUrls "__proto__" = None →
  (∀ k, is_Some (customUrls !! k) → Proto.inherited k = true →
        is_Some (tofu_entry tofuUrls k)) →
  ∃ combined,
    combinedUrls tofuUrls customUrls = Normal combined
    ∧ ∀ k, combined !! k =
        match customUrls !! k with
        | Some urls => Some (nullish (tofu_entry tofuUrls k) [] ++ urls)%list
        | None => tofu_entry tofuUrls k
        end.
Proof.
  intros Hp Hall. unfold combinedUrls.
  pose proof (tofu_loop tofuUrls) as Hfirst.
  destruct (map_fold tofu_step (Normal ∅) tofuUrls) as [base| |]; [|done|done].
  destruct Hfirst as [_ Hbase].
  pose proof (custom_loop base customUrls) as Hsecond.
  destruct (map_fold custom_step (Normal base) customUrls) as [r| |]; [| |done].
  - exists r. split; [done|]. intros k. destruct Hsecond as [_ ->].
    by rewrite Hbase.
  - destruct Hsecond as (k & Hk & Hinh & Hb).
    specialize (Hall k Hk Hinh). rewrite <- Hbase, Hb in Hall.
    by destruct Hall.
Qed.

(** It throws when a key of [customUrls] is an inherited name without a
    tofu URL. *)
Lemma combinedUrls_thrown tofuUrls customUrls k :
  tofu_entry tofuUrls "__proto__" = None →
  is_Some (customUrls !! k) → Proto.inherited k = true →
  tofu_entry tofuUrls k = None →
  combinedUrls tofuUrls customUrls = Thrown.
Proof.
  intros Hp Hk Hinh Hnone. unfold combinedUrls.
  pose proof (tofu_loop tofuUrls) as Hfirst.
  destruct (map_fold tofu_step (Normal ∅) tofuUrls) as [base| |]; [|done|done].
  destruct Hfirst as [_ Hbase].
  pose proof (custom_loop base customUrls) as Hsecond.
  destruct (map_fold custom_step (Normal base) customUrls) as [r| |]; [|done|done].
  destruct Hsecond as [Hall _]. specialize (Hall k Hk Hinh).
  rewrite Hbase, Hnone in Hall. by destruct Hall.
Qed.

(** It is not followed when a tofu URL is filed under [__proto__]. *)
Lemma combinedUrls_untyped tofuUrls customUrls :
  tofu_entry tofuUrls "__proto__" ≠ None →
  combinedUrls tofuUrls customUrls = Untyped.
Proof.
  intros Hp. unfold combinedUrls.
  pose proof (tofu_loop tofuUrls) as Hfirst.
  destruct (map_fold tofu_step (Normal ∅) tofuUrls) as [base| |]; [|done|].
  - by destruct Hfirst.
  - apply custom_loop_untyped.
Qed.

Lemma tofu_entry_plain tofuUrls k :
  Proto.plain tofuUrls → Proto.inherited k = true → tofu_entry tofuUrls k = None.
Proof. intros Hplain Hk. unfold tofu_entry. by rewrite (Hplain k Hk). Qed.

(** The layers of a page whose keys are no inherited names. *)
Lemma combinedUrls_plain tofuUrls customUrls :
  Proto.plain tofuUrls → Proto.plain customUrls →
  ∃ combined,
    combinedUrls tofuUrls customUrls = Normal combined
    ∧ ∀ k, combined !! k =
        match customUrls !! k with
        | Some urls => Some (nullish (tofu_entry tofuUrls k) [] ++ urls)%list
        | None => tofu_entry tofuUrls k
        end.
Proof.
  intros Ht Hc. apply combinedUrls_normal.
  - by apply tofu_entry_plain.
  - intros k [x Hx] Hinh. by rewrite (Hc k Hinh) in Hx.
Qed.

(** What a row reads when no key of the two layers is an inherited
    name. *)
Lemma row_urls_plain (tofuUrls : gmap string string)
    (customUrls : gmap string (list string)) (row : Repo) :
  Proto.plain tofuUrls →
  Proto.plain customUrls →
  row_urls tofuUrls customUrls row
  = Normal (if Proto.inherited (name row) then Proto.Builtin (name row)
            else Proto.Own
                   ((match tofuUrls !! name row with
                     | Some url => if truthy_str url then [url] else []
                     | None => []
                     end)
                    ++ nullish (customUrls !! name row) [])%list).
Proof.
  intros Ht Hc. unfold row_urls, urls_of.
  destruct (combinedUrls_plain tofuUrls customUrls Ht Hc) as (c & -> & Hl).
  destruct (Proto.inherited (name row)) eqn:Hrow.
  - rewrite get_builtin; [done..|].
    by rewrite Hl, (Hc _ Hrow), tofu_entry_plain.
  - rewrite get_plain, Hl by done. unfold tofu_entry.
    destruct (customUrls !! name row) as [l|]; simpl;
      destruct (tofuUrls !! name row) as [url|]; simpl;
      try destruct (truthy_str url); simpl; rewrite ?app_nil_r; reflexivity.
Qed.

Lemma plain_insert {A} (o : gmap string A) (k : string) (a : A) :
  Proto.plain o → Proto.inherited k = false → Proto.plain (<[k := a]> o).
Proof.
  intros Ho Hk j Hj. rewrite lookup_insert_ne by congruence. by apply Ho.
Qed.

(** [C1, as amended] When no key of the two layers and not the bare name
    of the row is a property name of [Object.prototype], the URL list of
    the row is the tofu URL stored under the bare repository name, when
    there is one and it is not empty, followed by the custom URLs stored
    under the same bare name, when there are any, in their order, with
    nothing removed from them. The URL column shows them joined, and the
    enabled-projects export runs to its end and holds that list in the
    record of every repository of that name, the row's own record among
    them when the row is enabled. *)
Theorem row_urls_by_bare_name (tofuUrls : gmap string string)
    (customUrls : gmap string (list string)) (row : Repo) :
  Proto.plain tofuUrls →
  Proto.plain customUrls →
  Proto.inherited (name row) = false →
  let urls :=
    ((match tofuUrls !! name row with
      | Some url => if truthy_str url then [url] else []
      | None => []
      end)
     ++ nullish (customUrls !! name row) [])%list in
  row_urls tofuUrls customUrls row = Normal (Proto.Own urls)
  ∧ pages_url_accessorFn tofuUrls customUrls row = Normal (join ", " urls)
  ∧ ∀ (a : Layered.Annotations) (repos : list Repo),
      Layered.a_customUrls a = customUrls →
      ∃ projects,
        Editor.exportEnabledProjectData tofuUrls a repos = Normal projects
        ∧ (∀ p, p ∈ projects → Editor.Name p = name row →
                Editor.URLs p = Proto.Own urls)
        ∧ (row ∈ repos →
           nullish (Layered.a_repoEnabled a !! repoKey row) false = true →
           ∃ p, p ∈ projects ∧ Editor.Owner p = owner row
                ∧ Editor.Name p = name row ∧ Editor.URLs p = Proto.Own urls).
Proof.
  intros Ht Hc Hrow urls.
  assert (Hurls : row_urls tofuUrls customUrls row = Normal (Proto.Own urls)).
  { rewrite (row_urls_plain _ _ _ Ht Hc), Hrow. reflexivity. }
  split; [exact Hurls|].
  split; [unfold pages_url_accessorFn; by rewrite Hurls|].
  intros a repos Ha.
  destruct (combinedUrls_plain tofuUrls customUrls Ht Hc) as (c & Hrun & _).
  unfold row_urls in Hurls. rewrite Hrun in Hurls.
  assert (Hread : urls_of c row = Proto.Own urls) by congruence.
  set (enabledRepos :=
         List.filter (λ r, nullish (Layered.a_repoEnabled a !! repoKey r) false) repos).
  exists (Editor.project c a <$> enabledRepos). split; [|split].
  - unfold Editor.exportEnabledProjectData. fold enabledRepos.
    rewrite Ha, Hrun. by destruct enabledRepos.
  - intros p Hp Hname. apply list_elem_of_fmap in Hp as (r & -> & _).
    simpl in *. rewrite <- Hread. unfold urls_of. by rewrite Hname.
  - intros Hin Hon. exists (Editor.project c a row). split.
    + apply list_elem_of_fmap. exists row. split; [done|].
      apply list_elem_of_In, filter_In. split; [|exact Hon].
      by apply list_elem_of_In.
    + by rewrite <- Hread.
Qed.

(** A row whose bare name is an inherited name without an entry of its
    own reads a built-in: the export holds no array for it, and the
    accessor of the URL column throws. *)
Lemma row_urls_inherited_name (tofuUrls : gmap string string)
    (customUrls : gmap string (list string)) (row : Repo) :
  Proto.plain tofuUrls →
  Proto.plain customUrls →
  Proto.inherited (name row) = true →
  row_urls tofuUrls customUrls row = Normal (Proto.Builtin (name row))
  ∧ pages_url_accessorFn tofuUrls customUrls row = Thrown.
Proof.
  intros Ht Hc Hrow.
  assert (Hurls : row_urls tofuUrls customUrls row = Normal (Proto.Builtin (name row))).
  { rewrite (row_urls_plain _ _ _ Ht Hc), Hrow. reflexivity. }
  split; [exact Hurls|]. unfold pages_url_accessorFn. by rewrite Hurls.
Qed.

(** [C1] fails as stated: custom URLs filed under the owner-qualified key
    are not shown, custom URLs filed under the bare name are, and an empty
    custom entry stays in the list. *)
Lemma row_urls_not_by_owner_key :
  let r := Sample.site in
  (row_urls ∅ {["octo/site" := ["http://x"]]} r = Normal (Proto.Own [])
   ∧ Stated.resolvedUrls ∅ {["octo/site" := ["http://x"]]} r = ["http://x"])
  ∧ (row_urls ∅ {["site" := ["http://x"]]} r = Normal (Proto.Own ["http://x"])
     ∧ Stated.resolvedUrls ∅ {["site" := ["http://x"]]} r = [])
  ∧ row_urls {["site" := "octo.example"]} {["site" := [EmptyString; "http://x"]]} r
    = Normal (Proto.Own ["octo.example"; EmptyString; "http://x"])
  ∧ ¬ (∀ tofuUrls customUrls row,
         Proto.plain tofuUrls → Proto.plain customUrls →
         Proto.inherited (name row) = false →
         row_urls tofuUrls customUrls row
         = Normal (Proto.Own (Stated.resolvedUrls tofuUrls customUrls row))).
Proof.
  split; [|split; [|split]].
  - split; vm_compute; reflexivity.
  - split; vm_compute; reflexivity.
  - vm_compute. reflexivity.
  - intros H. specialize (H ∅ {["octo/site" := ["http://x"]]} Sample.site).
    assert (Hno : row_urls ∅ {["octo/site" := ["http://x"]]} Sample.site
                  = Normal (Proto.Own ["http://x"])).
    { apply H; [apply plain_empty | by apply plain_names | reflexivity]. }
    vm_compute in Hno. discriminate.
Qed.

End Urls.

(** ** Import and export of the annotation bundle *)

Import Js.

Section Legacy.
Import Flat.

Lemma set_repoUrls_twice v1 v2 p :
  set_repoUrls v2 (set_repoUrls v1 p) = set_repoUrls v2 p.
Proof. reflexivity. Qed.

Lemma set_repoUrls_same p : set_repoUrls (repoUrls p) p = p.
Proof. destruct p; reflexivity. Qed.

Lemma partial_alter_lookup_eq (f : option value → option value)
    (key : string) (o o' : gmap string value) :
  o' !! key = f (o !! key) →
  (∀ i, i ≠ key → o' !! i = o !! i) →
  o' = partial_alter f key o.
Proof.
  intros Hk Hother. apply map_eq. intros i.
  destruct (decide (key = i)) as [<-|Hne].
  - by rewrite lookup_partial_alter_eq.
  - rewrite lookup_partial_alter_ne by done. apply Hother. done.
Qed.

(** One turn of the legacy loop does to the dictionary what [appended]
    says for its key, unless it throws. *)
Lemma append_url_spec key incoming p o :
  repoUrls p = Obj o →
  (∀ e, o !! key = Some e → truthy e = true → ∃ l, e = Arr l) →
  stops o key incoming = false →
  append_url key incoming p
  = (set_repoUrls (Obj (partial_alter (λ e, appended e (Some incoming)) key o)) p,
     Normal tt).
Proof.
  intros Hp Harr Hgo.
  assert (Hskip : (∀ e, appended e (Some incoming) = e) →
            (p, @Normal unit tt)
            = (set_repoUrls (Obj (partial_alter
                 (λ e, appended e (Some incoming)) key o)) p, Normal tt)).
  { intros Hid. rewrite <- (partial_alter_lookup_eq _ key o o).
    - rewrite <- Hp, set_repoUrls_same. done.
    - by rewrite Hid.
    - done. }
  assert (Hput : ∀ s new, incoming = Str s → truthy_str s = true →
            appended (o !! key) (Some incoming) = Some new →
            (set_repoUrls (Obj (<[key := new]> o)) p, @Normal unit tt)
            = (set_repoUrls (Obj (partial_alter
                 (λ e, appended e (Some incoming)) key o)) p, Normal tt)).
  { intros s new -> Hs Hnew. do 3 f_equal. apply partial_alter_lookup_eq.
    - by rewrite lookup_insert_eq.
    - intros i Hi. by rewrite lookup_insert_ne. }
  unfold append_url.
  destruct incoming as [| b | n | s | l | m]; try (apply Hskip; done).
  destruct (truthy_str s) eqn:Hs.
  - unfold bind, gets, modify, lift. rewrite Hp. unfold Proto.get.
    destruct (o !! key) as [e|] eqn:He.
    + destruct (truthy e) eqn:Hte.
      * destruct (Harr e eq_refl Hte) as [l ->].
        apply (Hput s); [done..|]. simpl. by rewrite Hs.
      * destruct e; try discriminate Hte;
          (apply (Hput s); [done..|]; simpl; by rewrite Hs).
    + simpl in Hgo. rewrite Hs, He in Hgo. simpl in Hgo. rewrite Hgo.
      apply (Hput s); [done..|]. simpl. by rewrite Hs.
  - apply Hskip. intros e. simpl. by rewrite Hs.
Qed.

(** A turn for an inherited name without an entry throws and changes
    nothing. *)
Lemma append_url_stops key incoming p o :
  repoUrls p = Obj o →
  stops o key incoming = true →
  append_url key incoming p = (p, Thrown).
Proof.
  intros Hp Hstop. unfold stops in Hstop.
  destruct incoming as [| b | n | s | l | m]; try discriminate.
  apply andb_true_iff in Hstop as [Hstop Hinh].
  apply andb_true_iff in Hstop as [Hs Hnone].
  apply bool_decide_eq_true in Hnone.
  unfold append_url. rewrite Hs. unfold bind, gets, lift. rewrite Hp.
  unfold Proto.get. by rewrite Hnone, Hinh.
Qed.

Lemma merge_appended_lookup (o m : gmap string value) (name : string) :
  merge appended o m !! name = appended (o !! name) (m !! name).
Proof. rewrite lookup_merge. by destruct (o !! name), (m !! name). Qed.

Lemma stops_lookup (o o' : gmap string value) key v :
  o' !! key = o !! key → stops o' key v = stops o key v.
Proof. intros H. unfold stops. by rewrite H. Qed.

(** The legacy loop over a list of entries with distinct keys: it ends
    with every entry appended when no turn throws; it throws at the first
    turn that does, with the entries before it appended. *)
Lemma append_loop (l : list (string * value)) p o :
  repoUrls p = Obj o →
  appendable o →
  NoDup l.*1 →
  ∃ o' c,
    foldl (λ turns entry, turns ;;; append_url entry.1 entry.2) (ret tt) l p
    = (set_repoUrls (Obj o') p, c)
    ∧ match c with
      | Normal _ =>
          o' = merge appended o (list_to_map l)
          ∧ ∀ k v, (k, v) ∈ l → stops o k v = false
      | Thrown =>
          (∃ k v, (k, v) ∈ l ∧ stops o k v = true)
          ∧ ∀ name, o' !! name = o !! name
                    ∨ o' !! name
                      = appended (o !! name)
                          ((list_to_map l : gmap string value) !! name)
      | Untyped => False
      end.
Proof.
  intros Hp Happ. induction l as [|[k v] l IH] using rev_ind; intros Hnd.
  - exists o, (Normal tt). split.
    + simpl. unfold ret. by rewrite <- Hp, set_repoUrls_same.
    + split; [|by intros k v Hin%elem_of_nil].
      apply map_eq. intros i.
      rewrite merge_appended_lookup, list_to_map_nil, lookup_empty.
      by destruct (o !! i).
  - rewrite fmap_app in Hnd. apply NoDup_app in Hnd as (Hnd & Hfresh & _).
    assert (Hk : k ∉ l.*1).
    { intros Hin. apply (Hfresh k Hin). simpl. apply list_elem_of_singleton. done. }
    assert (Hnone : (list_to_map l : gmap string value) !! k = None)
      by (by apply not_elem_of_list_to_map_1).
    destruct (IH Hnd) as (o1 & c & Hrun & Hc).
    rewrite foldl_snoc. simpl. unfold bind at 1. rewrite Hrun.
    destruct c as [[]| |]; [| |done].
    + destruct Hc as [-> Hgo].
      assert (Hsame : merge appended o (list_to_map l) !! k = o !! k)
        by (by rewrite merge_appended_lookup, Hnone; destruct (o !! k)).
      destruct (stops o k v) eqn:Hstop.
      * exists (merge appended o (list_to_map l)), Thrown. split.
        -- apply append_url_stops with (merge appended o (list_to_map l));
             [done|]. by rewrite (stops_lookup o) by exact Hsame.
        -- split.
           ++ exists k, v. split; [|done]. apply elem_of_app. right.
              by apply list_elem_of_singleton.
           ++ intros name. destruct (decide (name = k)) as [->|Hne].
              ** left. done.
              ** right. rewrite merge_appended_lookup.
                 rewrite (list_to_map_snoc l k v Hk), lookup_insert_ne by done.
                 done.
      * exists (merge appended o (list_to_map (l ++ [(k, v)]))), (Normal tt). split.
        -- rewrite (append_url_spec k v _ (merge appended o (list_to_map l))).
           ++ rewrite set_repoUrls_twice. do 3 f_equal. apply map_eq. intros j.
              rewrite (list_to_map_snoc l k v Hk).
              destruct (decide (k = j)) as [<-|Hne].
              ** rewrite lookup_partial_alter_eq, !merge_appended_lookup,
                   Hnone, lookup_insert_eq.
                 destruct (o !! k); reflexivity.
              ** rewrite lookup_partial_alter_ne, !merge_appended_lookup,
                   lookup_insert_ne by done.
                 done.
           ++ reflexivity.
           ++ intros e He Hte. rewrite Hsame in He. by apply (Happ k).
           ++ by rewrite (stops_lookup o) by exact Hsame.
        -- split; [done|]. intros k' v' Hin. apply elem_of_app in Hin as [Hin|Hin].
           ++ by apply Hgo.
           ++ apply list_elem_of_singleton in Hin. by inversion Hin; subst.
    + destruct Hc as [(k' & v' & Hin & Hstop) Hpart].
      exists o1, Thrown. split; [done|]. split.
      * exists k', v'. split; [|done]. apply elem_of_app. by left.
      * intros name. destruct (decide (name = k)) as [->|Hne].
        -- left. destruct (Hpart k) as [H|H]; [done|].
           rewrite H, Hnone. by destruct (o !! k).
        -- rewrite (list_to_map_snoc l k v Hk), lookup_insert_ne by done.
           apply Hpart.
Qed.

Section Entries.

Variable Object_entries : gmap string value → list (string * value).
Hypothesis entries : enumerates Object_entries.

Lemma entries_NoDup m : NoDup (Object_entries m).*1.
Proof. rewrite (entries m). apply NoDup_fst_map_to_list. Qed.

Lemma entries_to_map m : list_to_map (Object_entries m) = m.
Proof.
  rewrite (list_to_map_proper _ (map_to_list m)).
  - apply list_to_map_to_list.
  - apply entries_NoDup.
  - apply entries.
Qed.

Lemma elem_of_entries m k v : (k, v) ∈ Object_entries m ↔ m !! k = Some v.
Proof. rewrite (entries m). apply elem_of_map_to_list. Qed.

(** The legacy loop over a dictionary appends, name by name, when no turn
    throws. *)
Lemma append_all_spec (m : gmap string value) p o :
  repoUrls p = Obj o →
  appendable o →
  (∀ k v, m !! k = Some v → stops o k v = false) →
  append_all Object_entries (Obj m) p
  = (set_repoUrls (Obj (merge appended o m)) p, Normal tt).
Proof.
  intros Hp Happ Hgo. unfold append_all.
  destruct (append_loop (Object_entries m) p o Hp Happ (entries_NoDup m))
    as (o' & c & Hrun & Hc).
  rewrite Hrun. destruct c as [[]| |]; [| |done].
  - destruct Hc as [-> _]. by rewrite entries_to_map.
  - destruct Hc as [(k & v & Hin & Hstop) _].
    apply elem_of_entries in Hin. by rewrite (Hgo k v Hin) in Hstop.
Qed.


End Entries.

End Legacy.

Section Sequencing.
Context {St : Type}.

Lemma bind_normal {A B} (m : M St A) (k : A → M St B) p p' a :
  m p = (p', Normal a) → bind m k p = k a p'.
Proof. intros H. unfold bind. by rewrite H. Qed.


Lemma if_truthy_modify (c : option value) (f : value → St → St) p :
  if_truthy c (λ x, modify (f x)) p = (assign c f p, Normal tt).
Proof.
  unfold if_truthy, assign, modify, ret.
  destruct c as [v|]; [destruct (truthy v)|]; reflexivity.
Qed.

End Sequencing.

(** One conditional assignment [if (parsed.k) x = parsed.k] of a run. *)
Ltac assignment :=
  unfold bind at 1, lift at 1, member at 1;
  rewrite (bind_normal _ _ _ _ tt (if_truthy_modify _ _ _)).

Section ClassData.
Import Flat.

Variable JSON_parse : string → option value.
Variable Object_entries : gmap string value → list (string * value).

Lemma repoUrls_simple_before payload p :
  repoUrls (simple_before payload p) = repoUrls p.
Proof.
  unfold simple_before, assign.
  destruct (payload !! "classes") as [v|]; [destruct (truthy v)|];
  destruct (payload !! "repoClasses") as [w|]; try destruct (truthy w);
  reflexivity.
Qed.

Lemma repoUrls_simple_after payload p :
  repoUrls (simple_after payload p) = repoUrls p.
Proof.
  unfold simple_after, assign.
  destruct (payload !! "repoEnabled") as [v|]; [destruct (truthy v)|];
  destruct (payload !! "repoDescriptions") as [w|]; try destruct (truthy w);
  reflexivity.
Qed.

(** The run of [importClassData] on a dictionary payload: the four plain
    variables, the URL layer [urls] (assigned or kept), the legacy loop. *)
Lemma importClassData_try_object data payload p urls :
  JSON_parse data = Some (Obj payload) →
  if_truthy (payload !! "repoUrls")
     (λ x, let* u := lift (migrate x) in modify (set_repoUrls u))
     (simple_before payload p)
  = (urls, Normal tt) →
  importClassData_try JSON_parse Object_entries data p
  = (let* v := lift (Layered.pages_urls_value (Obj payload)) in
     if_truthy v (append_all Object_entries) ;;; modify persistClasses)
      (simple_after payload urls).
Proof.
  intros Hparse Hurls. unfold importClassData_try, parsing. rewrite Hparse.
  unfold bind at 1, ret at 1.
  do 2 assignment.
  unfold bind at 1, lift at 1, member at 1.
  fold (simple_before payload p).
  rewrite (bind_normal _ _ _ _ tt Hurls).
  do 2 assignment.
  reflexivity.
Qed.

End ClassData.

Section CustomData.
Import Layered.

Variable JSON_parse : string → option value.
Variable JSON_stringify : value → nat → string.

Lemma importCustomData_syntax_error data p :
  JSON_parse data = None → importCustomData JSON_parse data p = p.
Proof.
  intros H. unfold importCustomData, importCustomData_try, bind, parsing.
  rewrite H. reflexivity.
Qed.

Lemma importCustomData_null data p :
  JSON_parse data = Some Null → importCustomData JSON_parse data p = p.
Proof.
  intros H. unfold importCustomData, importCustomData_try, bind, parsing.
  rewrite H. reflexivity.
Qed.

Lemma importCustomData_object data o p :
  JSON_parse data = Some (Obj o) →
  importCustomData JSON_parse data p = persistCustom (set_custom (imported o) p).
Proof.
  intros H. unfold importCustomData, importCustomData_try, bind, parsing.
  rewrite H. unfold ret, lift, member, if_truthy, modify, imported, pick. simpl.
  destruct p as [t u r l e tf [c rc cu re rd] ls].
  destruct (o !! "classes") as [v1|]; [destruct (truthy v1)|];
  destruct (o !! "repoClasses") as [v2|]; try destruct (truthy v2);
  destruct (o !! "customUrls") as [v3|]; try destruct (truthy v3);
  destruct (o !! "repoEnabled") as [v4|]; try destruct (truthy v4);
  destruct (o !! "repoDescriptions") as [v5|]; try destruct (truthy v5);
  reflexivity.
Qed.

(** A payload that is neither [null] nor a dictionary has none of the
    keys: nothing is assigned and the bundle is persisted as it is. *)
Lemma importCustomData_other data parsed p :
  JSON_parse data = Some parsed →
  parsed ≠ Null →
  (∀ o, parsed ≠ Obj o) →
  importCustomData JSON_parse data p = persistCustom p.
Proof.
  intros H Hnull Hobj. unfold importCustomData, importCustomData_try, bind, parsing.
  rewrite H. destruct parsed; try done; try reflexivity.
  by destruct (Hobj o).
Qed.

(** The custom data after an import, whatever the payload. *)
Lemma importCustomData_custom data parsed p :
  JSON_parse data = Some parsed →
  custom (importCustomData JSON_parse data p) = imported (own parsed) (custom p).
Proof.
  intros H.
  assert (Hnone : imported ∅ (custom p) = custom p).
  { unfold imported, pick. rewrite !lookup_empty. by destruct (custom p). }
  destruct parsed as [| b | n | s | l | o].
  1: rewrite importCustomData_null by done; simpl; by rewrite Hnone.
  5: rewrite (importCustomData_object _ o) by done; reflexivity.
  all: rewrite (importCustomData_other _ _ _ H) by done; simpl; by rewrite Hnone.
Qed.

Lemma pick_falsy o k old :
  truthy_opt (o !! k) = false → pick o k old = old.
Proof.
  unfold pick, truthy_opt. destruct (o !! k) as [v|]; [|done].
  by intros ->.
Qed.

Lemma pick_truthy o k v old :
  o !! k = Some v → truthy v = true → pick o k old = v.
Proof. unfold pick. by intros -> ->. Qed.

(** A falsy value under a key reads like no key at all. *)
Lemma pick_insert_falsy o k v j old :
  truthy v = false → pick (<[k := v]> o) j old = pick (delete k o) j old.
Proof.
  intros Hv. unfold pick. destruct (decide (k = j)) as [<-|Hne].
  - by rewrite lookup_insert_eq, lookup_delete_eq, Hv.
  - by rewrite lookup_insert_ne, lookup_delete_ne.
Qed.

Lemma imported_insert_falsy o k v c :
  truthy v = false → imported (<[k := v]> o) c = imported (delete k o) c.
Proof.
  intros Hv. unfold imported. f_equal; by apply pick_insert_falsy.
Qed.

(** [C10] Import leaves a variable as it is when the payload has no
    top-level key for it or a falsy value ([null], [false], [0], the empty string)
    under the key; and a payload with a falsy value under a key is
    imported exactly as the payload without the key. *)
Theorem import_skips_absent_and_falsy_keys (data : string) (parsed : value)
    (p : Page) :
  JSON_parse data = Some parsed →
  let p' := importCustomData JSON_parse data p in
  (truthy_opt (own parsed !! "classes") = false →
     classes (custom p') = classes (custom p))
  ∧ (truthy_opt (own parsed !! "repoClasses") = false →
     repoClasses (custom p') = repoClasses (custom p))
  ∧ (truthy_opt (own parsed !! "customUrls") = false →
     customUrls (custom p') = customUrls (custom p))
  ∧ (truthy_opt (own parsed !! "repoEnabled") = false →
     repoEnabled (custom p') = repoEnabled (custom p))
  ∧ (truthy_opt (own parsed !! "repoDescriptions") = false →
     repoDescriptions (custom p') = repoDescriptions (custom p))
  ∧ (∀ o k v data',
       parsed = Obj (<[k := v]> o) →
       truthy v = false →
       JSON_parse data' = Some (Obj (delete k o)) →
       p' = importCustomData JSON_parse data' p).
Proof.
  intros Hparse p'. subst p'.
  rewrite (importCustomData_custom _ _ _ Hparse). simpl.
  repeat split; try (intros H; by apply pick_falsy).
  intros o k v data' -> Hv Hparse'.
  rewrite (importCustomData_object _ _ _ Hparse),
          (importCustomData_object _ _ _ Hparse').
  unfold set_custom. by rewrite imported_insert_falsy.
Qed.

Lemma bundle_lookups (c : Custom) :
  own (bundle c) !! "classes" = Some (classes c)
  ∧ own (bundle c) !! "repoClasses" = Some (repoClasses c)
  ∧ own (bundle c) !! "customUrls" = Some (customUrls c)
  ∧ own (bundle c) !! "repoEnabled" = Some (repoEnabled c)
  ∧ own (bundle c) !! "repoDescriptions" = Some (repoDescriptions c).
Proof. unfold bundle, own. repeat split; by simplify_map_eq. Qed.

(** Import after export restores a bundle whose five values are truthy. *)
Lemma import_export_truthy (p0 p : Page) :
  JSON_parse (exportCustomData JSON_stringify p0) = Some (bundle (custom p0)) →
  truthy (classes (custom p0)) = true →
  truthy (repoClasses (custom p0)) = true →
  truthy (customUrls (custom p0)) = true →
  truthy (repoEnabled (custom p0)) = true →
  truthy (repoDescriptions (custom p0)) = true →
  custom (importCustomData JSON_parse (exportCustomData JSON_stringify p0) p)
  = custom p0.
Proof.
  intros Hparse H1 H2 H3 H4 H5.
  rewrite (importCustomData_custom _ _ _ Hparse).
  destruct (bundle_lookups (custom p0)) as (L1 & L2 & L3 & L4 & L5).
  unfold imported.
  rewrite (pick_truthy _ _ _ _ L1 H1), (pick_truthy _ _ _ _ L2 H2),
          (pick_truthy _ _ _ _ L3 H3), (pick_truthy _ _ _ _ L4 H4),
          (pick_truthy _ _ _ _ L5 H5).
  by destruct (custom p0).
Qed.

Lemma pick_keeps_truthy o k old :
  truthy old = true → truthy (pick o k old) = true.
Proof.
  intros H. unfold pick. destruct (o !! k) as [v|]; [|done].
  by destruct (truthy v) eqn:Hv.
Qed.

Lemma import_keeps_truthy data p :
  truthy_bundle (custom p) →
  truthy_bundle (custom (importCustomData JSON_parse data p)).
Proof.
  intros (H1 & H2 & H3 & H4 & H5).
  destruct (JSON_parse data) as [parsed|] eqn:Hparse.
  - rewrite (importCustomData_custom _ _ _ Hparse).
    repeat split; simpl; by apply pick_keeps_truthy.
  - rewrite importCustomData_syntax_error by done. done.
Qed.

(** [C5] For every annotation state (classes, repoClasses, customUrls,
    repoEnabled, repoDescriptions at their declared types), importing the
    text that export produced, into any state of the page, gives back a
    state whose five variables are those of the exported state, provided
    the platform's [JSON.parse] reads back every value that its
    [JSON.stringify] writes with two spaces of indentation. *)
Theorem import_export_round_trip (a : Annotations) (p0 p : Page) :
  (∀ v, JSON_parse (JSON_stringify v 2) = Some v) →
  custom p0 = of_annotations a →
  let p' := importCustomData JSON_parse (exportCustomData JSON_stringify p0) p in
  classes (custom p') = classes (custom p0)
  ∧ repoClasses (custom p') = repoClasses (custom p0)
  ∧ customUrls (custom p') = customUrls (custom p0)
  ∧ repoEnabled (custom p') = repoEnabled (custom p0)
  ∧ repoDescriptions (custom p') = repoDescriptions (custom p0)
  ∧ custom p' = of_annotations a.
Proof.
  intros Hcodec Ha p'. subst p'.
  assert (Heq : custom (importCustomData JSON_parse
                          (exportCustomData JSON_stringify p0) p) = custom p0).
  { apply import_export_truthy; [apply Hcodec | rewrite Ha; reflexivity ..]. }
  rewrite Heq. repeat split; done.
Qed.

End CustomData.


Section Migration.
Import Flat.

Variable JSON_parse : string → option value.
Variable Object_entries : gmap string value → list (string * value).


Lemma pages_urls_value_absent payload :
  payload !! "pages_urls" = None →
  Layered.pages_urls_value (Obj payload) = Normal None.
Proof. intros H. unfold Layered.pages_urls_value, member. by rewrite H. Qed.

Lemma pages_urls_value_object payload w :
  payload !! "pages_urls" = Some (Obj w) →
  Layered.pages_urls_value (Obj payload) = Normal (w !! "value").
Proof. intros H. unfold Layered.pages_urls_value, member. by rewrite H. Qed.





End Migration.


(** ** The cursor pagination of the endpoint *)

Section Pagination.
Import Server.

Variable graphql : option string → Reply.

Lemma cursors_length c ds : ds ≠ [] → length (cursors c ds) = length ds.
Proof.
  intros Hne. unfold cursors. simpl. rewrite length_fmap, length_take.
  destruct ds; [done|]. simpl. lia.
Qed.

Lemma serves_nonempty c ds : serves graphql c ds → ds ≠ [].
Proof. by destruct 1. Qed.

(** One turn on a page that is a success without errors. *)
Lemma paginate_turn fuel c d acc sent :
  ok (status (graphql c)) = true →
  first_error (body (graphql c)) = None →
  data (body (graphql c)) = Some d →
  paginate graphql (S fuel) true c acc sent
  = paginate graphql fuel (hasNextPage d) (endCursor d) (acc ++ nodes d)
      (sent ++ [c]).
Proof. intros Hok Herr Hdata. simpl. by rewrite Hok, Herr, Hdata. Qed.

Lemma paginate_done fuel c acc sent :
  paginate graphql fuel false c acc sent
  = Some ({| response_status := 200; repos := to_repo <$> acc; error := None |},
          sent).
Proof. by destruct fuel. Qed.

(** Along served pages the loop asks once per page, hands every end cursor
    to the next request and accumulates the nodes in order. *)
Lemma paginate_serves c ds :
  serves graphql c ds →
  ∀ fuel acc sent,
    (length ds ≤ fuel)%nat →
    paginate graphql fuel true c acc sent
    = Some ({| response_status := 200;
               repos := to_repo <$> (acc ++ concat (nodes <$> ds));
               error := None |},
            (sent ++ cursors c ds)%list).
Proof.
  induction 1 as [c d Hok Herr Hdata Hlast | c d ds Hok Herr Hdata Hnext Hrest IH];
    intros fuel acc sent Hfuel.
  - destruct fuel as [|fuel]; [simpl in Hfuel; lia|].
    rewrite (paginate_turn _ _ d) by done. rewrite Hlast, paginate_done.
    simpl. by rewrite app_nil_r.
  - destruct fuel as [|fuel]; [simpl in Hfuel; lia|].
    rewrite (paginate_turn _ _ d) by done. rewrite Hnext.
    rewrite IH by (simpl in Hfuel; lia).
    pose proof (serves_nonempty _ _ Hrest) as Hne.
    unfold cursors. simpl. rewrite Nat.sub_0_r.
    destruct ds as [|d' ds]; [done|]. simpl. rewrite Nat.sub_0_r.
    by rewrite <- !app_assoc.
Qed.

(** Served pages: all but the last announce a next page. *)
Lemma serves_shape c ds :
  serves graphql c ds →
  ∃ init last, ds = (init ++ [last])%list
    ∧ Forall (λ d, hasNextPage d = true) init
    ∧ hasNextPage last = false.
Proof.
  induction 1 as [c d _ _ _ Hlast | c d ds _ _ _ Hnext _ (init & last & -> & Hall & Hl)].
  - exists [], d. by repeat split.
  - exists (d :: init), last. repeat split; [|done]. by constructor.
Qed.

Lemma full_pages_length (init : list Repositories) :
  Forall (λ d, length (nodes d) = first) init →
  length (concat (nodes <$> init)) = (first * length init)%nat.
Proof.
  induction 1 as [|d init Hd _ IH]; [simpl; lia|].
  rewrite fmap_cons. simpl concat. rewrite length_app, IH, Hd. simpl. lia.
Qed.

(** The number of pages that cut [total] records into runs of [first]. *)
Lemma pages_count c ds total :
  serves graphql c ds →
  cut_in_pages total ds →
  length ds = max 1 (ceil_div total first).
Proof.
  intros Hs [Hlen Hall].
  destruct (serves_shape _ _ Hs) as (init & last & -> & Hinit & Hlast).
  assert (Hfull : Forall (λ d, length (nodes d) = first) init).
  { apply Forall_forall. intros d Hd.
    apply (Hall d); [apply elem_of_app; by left|].
    by apply (proj1 (Forall_forall _ _) Hinit). }
  destruct (Hall last) as (_ & _ & Hshort);
    [apply elem_of_app; right; apply list_elem_of_singleton; done|].
  destruct (Hshort Hlast) as [Hle Hpos].
  rewrite fmap_app, concat_app, length_app, full_pages_length in Hlen by done.
  simpl in Hlen. rewrite app_nil_r in Hlen.
  rewrite length_app. simpl length.
  change (ceil_div total first) with ((total + 99) / 100).
  change first with 100 in *.
  destruct (decide (total = 0)) as [->|Hnz].
  - assert (length init = 0) as -> by lia. reflexivity.
  - assert (0 < length (nodes last)) by (apply Hpos; lia).
    assert ((total + 99) / 100 = length init + 1) as ->; [|lia].
    symmetry. apply (Nat.div_unique _ _ _ (length (nodes last) - 1)); lia.
Qed.


(** With a token, the endpoint runs the loop from no cursor. *)
Lemma POST_serves (token : string) (ds : list Repositories) (fuel : nat) :
  truthy_str token = true →
  serves graphql None ds →
  length ds ≤ fuel →
  POST graphql fuel token
  = Some ({| response_status := 200;
             repos := to_repo <$> concat (nodes <$> ds);
             error := None |}, cursors None ds).
Proof.
  intros Htoken Hs Hfuel. unfold POST. rewrite Htoken. simpl negb. cbv iota.
  rewrite (paginate_serves None ds Hs) by done. reflexivity.
Qed.

(** [C2, as amended] On the token path, against a remote that serves the
    pages of a collection of [totalCount] records along its cursors, the
    loop runs while a next page is announced, hands the end cursor of
    each page to the next request, answers with the nodes of all pages in
    order, each once, and issues [max(1, ceil(totalCount / 100))]
    requests: one request even when there is no record. *)
Theorem token_fetch_follows_cursors (token : string)
    (ds : list Repositories) (total fuel : nat) :
  truthy_str token = true →
  serves graphql None ds →
  cut_in_pages total ds →
  length ds ≤ fuel →
  ∃ sent,
    POST graphql fuel token
    = Some ({| response_status := 200;
               repos := to_repo <$> concat (nodes <$> ds);
               error := None |}, sent)
    ∧ sent = None :: (endCursor <$> take (length ds - 1) ds)
    ∧ length sent = max 1 (ceil_div total first).
Proof.
  intros Htoken Hs Hcut Hfuel. exists (cursors None ds).
  split; [|split].
  - by apply POST_serves.
  - reflexivity.
  - rewrite cursors_length by (by eapply serves_nonempty).
    by eapply pages_count.
Qed.

End Pagination.

Section PagingRemote.
Import Server.

Lemma offset_of_cursor_at n : offset_of (Some (cursor_at n)) = n.
Proof. induction n as [|n IH]; simpl in *; congruence. Qed.

Lemma serves_pages_from records :
  ∀ more c,
    offset_of c + first * more < length records
      ∨ (more = 0) →
    length records ≤ offset_of c + first * S more →
    serves (remote_of records) c (pages_from records (offset_of c) more).
Proof.
  induction more as [|more IH]; intros c Hlow Hhigh.
  - apply serves_last; try reflexivity.
    simpl. apply Nat.ltb_ge. lia.
  - assert (Hlt : offset_of c + first * S more < length records)
      by (destruct Hlow; [done | discriminate]).
    assert (Hnodes : length (take first (drop (offset_of c) records)) = first).
    { rewrite length_take, length_drop. unfold first in *. lia. }
    simpl pages_from.
    apply serves_next; try reflexivity.
    + simpl. apply Nat.ltb_lt. unfold first in *. lia.
    + assert (Hc : endCursor (page_at records (offset_of c))
                   = Some (cursor_at (offset_of c + first))).
      { unfold page_at. cbn [endCursor].
        destruct (take first (drop (offset_of c) records)) eqn:E.
        - discriminate Hnodes.
        - by rewrite Hnodes. }
      rewrite Hc.
      rewrite <- (offset_of_cursor_at (offset_of c + first)) at 2.
      apply IH; rewrite offset_of_cursor_at; unfold first in *; lia.
Qed.

Lemma concat_pages_from records :
  ∀ more offset,
    length records ≤ offset + first * S more →
    concat (nodes <$> pages_from records offset more) = drop offset records.
Proof.
  induction more as [|more IH]; intros offset Hhigh.
  - simpl. rewrite app_nil_r. apply take_ge. rewrite length_drop.
    unfold first in *. lia.
  - simpl pages_from. rewrite fmap_cons. simpl concat.
    rewrite IH by (unfold first in *; lia).
    simpl. rewrite <- drop_drop. apply take_drop.
Qed.

Lemma length_pages_from records offset more :
  length (pages_from records offset more) = S more.
Proof. revert offset. induction more as [|more IH]; intros; simpl; [done|]. by rewrite IH. Qed.

Lemma elem_of_pages_from records d :
  ∀ more offset, d ∈ pages_from records offset more →
    ∃ j, j ≤ more ∧ d = page_at records (offset + first * j).
Proof.
  induction more as [|more IH]; intros offset Hd; simpl in Hd.
  - apply list_elem_of_singleton in Hd as ->. exists 0. split; [done|].
    f_equal. lia.
  - apply elem_of_cons in Hd as [->|Hd].
    + exists 0. split; [lia|]. f_equal. lia.
    + destruct (IH _ Hd) as (j & Hj & ->). exists (S j). split; [lia|].
      f_equal. lia.
Qed.

(** The number of full pages before the last one. *)
Lemma pages_bounds (n : nat) :
  let more := max 1 (ceil_div n first) - 1 in
  (first * more < n ∨ more = 0)
  ∧ n ≤ first * S more
  ∧ S more = max 1 (ceil_div n first).
Proof.
  unfold ceil_div. change first with 100. change (100 - 1) with 99.
  pose proof (Nat.div_mod_eq (n + 99) 100) as Hd.
  assert (Hm : (n + 99) `mod` 100 < 100) by (apply Nat.mod_upper_bound; lia).
  set (q := (n + 99) `div` 100) in *. clearbody q. simpl. lia.
Qed.

Lemma cut_pages_from records :
  let n := length records in
  cut_in_pages n (pages_from records 0 (max 1 (ceil_div n first) - 1)).
Proof.
  intros n. subst n.
  destruct (pages_bounds (length records)) as (Hlow & Hhigh & _).
  set (more := max 1 (ceil_div (length records) first) - 1) in *.
  clearbody more. change first with 100 in *.
  split.
  - rewrite concat_pages_from by (change first with 100; lia). by rewrite drop_0.
  - intros d Hd.
    destruct (elem_of_pages_from _ _ _ _ Hd) as (j & Hj & ->).
    simpl. split; [done|]. split.
    + intros Hnext. apply Nat.ltb_lt in Hnext.
      rewrite length_take, length_drop. lia.
    + intros Hlast. apply Nat.ltb_ge in Hlast.
      rewrite length_take, length_drop. split; [lia|]. intros Hpos. lia.
Qed.

(** Against the paging remote, for every collection: all records, in
    order, with [max(1, ceil(n / 100))] requests. *)
Lemma token_fetch_over_records (records : list RepoNode) (token : string)
    (fuel : nat) :
  truthy_str token = true →
  max 1 (ceil_div (length records) first) ≤ fuel →
  ∃ sent,
    POST (remote_of records) fuel token
    = Some ({| response_status := 200; repos := to_repo <$> records;
               error := None |}, sent)
    ∧ length sent = max 1 (ceil_div (length records) first).
Proof.
  intros Htoken Hfuel.
  destruct (pages_bounds (length records)) as (Hlow & Hhigh & Hmore).
  set (more := max 1 (ceil_div (length records) first) - 1) in *.
  clearbody more.
  assert (Hs : serves (remote_of records) None (pages_from records 0 more)).
  { apply (serves_pages_from records more None); simpl; [tauto | done]. }
  exists (cursors None (pages_from records 0 more)). split.
  - rewrite (POST_serves _ token _ fuel Htoken Hs)
      by (rewrite length_pages_from; lia).
    rewrite concat_pages_from by done. by rewrite drop_0.
  - rewrite cursors_length by (by destruct more).
    by rewrite length_pages_from.
Qed.

End PagingRemote.

Lemma serves_empty_account :
  Server.serves Sample.empty_account None [Sample.empty_page].
Proof. by apply Server.serves_last. Qed.

Lemma cut_empty_account : Server.cut_in_pages 0 [Sample.empty_page].
Proof.
  split; [reflexivity|]. intros d Hd. apply list_elem_of_singleton in Hd as ->.
  repeat split; simpl; try done; lia.
Qed.

(** [C2] fails as stated: for an account without repositories
    [totalCount] is 0 and [ceil(0 / 100)] is 0, but the loop has issued
    one request by the time it learns so. *)
Lemma empty_account_takes_one_request :
  Server.POST Sample.empty_account 1 "ghp_token"
  = Some ({| Server.response_status := 200; Server.repos := [];
             Server.error := None |}, [None])
  ∧ Server.ceil_div (Server.totalCount Sample.empty_page) Server.first = 0
  ∧ ¬ (∀ graphql token ds total fuel,
         truthy_str token = true →
         Server.serves graphql None ds →
         Server.cut_in_pages total ds →
         length ds ≤ fuel →
         ∃ response sent,
           Server.POST graphql fuel token = Some (response, sent)
           ∧ length sent = Server.ceil_div total Server.first).
Proof.
  split; [reflexivity|]. split; [reflexivity|].
  intros H.
  destruct (H Sample.empty_account "ghp_token" [Sample.empty_page] 0 1
              eq_refl serves_empty_account cut_empty_account (le_n 1))
    as (response & sent & Hpost & Hlen).
  vm_compute in Hpost. inversion Hpost; subst. vm_compute in Hlen. discriminate.
Qed.

Lemma serves_two_pages :
  Server.serves Sample.two_pages None [Sample.page_one; Sample.page_two].
Proof.
  apply Server.serves_next; [reflexivity..|].
  apply Server.serves_last; reflexivity.
Qed.

Lemma cut_two_pages :
  Server.cut_in_pages 150 [Sample.page_one; Sample.page_two].
Proof.
  split; [vm_compute; reflexivity|]. intros d Hd.
  apply elem_of_cons in Hd as [->|Hd];
    [|apply list_elem_of_singleton in Hd as ->].
  all: repeat split; try done; intros; vm_compute; lia.
Qed.

Lemma token_fetch_follows_cursors_witness :
  ∃ sent,
    Server.POST Sample.two_pages 2 "ghp_token"
    = Some ({| Server.response_status := 200;
               Server.repos := Server.to_repo <$> Sample.nodes_from 0 150;
               Server.error := None |}, sent)
    ∧ sent = [None; Some "Y3Vyc29yOjEwMA=="]
    ∧ length sent = 2.
Proof.
  destruct (token_fetch_follows_cursors Sample.two_pages "ghp_token"
              [Sample.page_one; Sample.page_two] 150 2
              eq_refl serves_two_pages cut_two_pages (le_n 2))
    as (sent & Hpost & Hsent & Hlen).
  exists sent. split; [|split].
  - rewrite Hpost. vm_compute. reflexivity.
  - exact Hsent.
  - exact Hlen.
Defined.

(** ** The REST fallback *)

Section Rest.
Import Layered.

Variable rest : string → nat → nat → RestReply.
Variable username : string.

(** One turn on a page that is answered with a success. *)
Lemma rest_loop_turn fuel acc page sent status data :
  rest username 100 page = Answered status data →
  Server.ok status = true →
  rest_loop rest (S fuel) username acc page sent
  = if length data <? 100
    then Some (Got (acc ++ data), sent ++ [(100, page)])
    else rest_loop rest fuel username (acc ++ data) (S page) (sent ++ [(100, page)]).
Proof. intros Hr Hok. simpl. by rewrite Hr, Hok. Qed.

(** A run that ends with a list has asked for the pages [page], ...,
    [page + n] in a row: the last one was short, the ones before it were
    not. *)
Lemma rest_loop_got fuel :
  ∀ acc page sent l sent',
    rest_loop rest fuel username acc page sent = Some (Got l, sent') →
    ∃ n,
      sent' = sent ++ (pair 100 <$> seq page (S n))
      ∧ (∀ j, j < n → ∃ status data,
           rest username 100 (page + j) = Answered status data
           ∧ Server.ok status = true ∧ 100 ≤ length data)
      ∧ (∃ status data,
           rest username 100 (page + n) = Answered status data
           ∧ Server.ok status = true ∧ length data < 100).
Proof.
  induction fuel as [|fuel IH]; intros acc page sent l sent' Hrun; [done|].
  simpl in Hrun.
  destruct (rest username 100 page) as [message|status data] eqn:Hreply; [done|].
  destruct (Server.ok status) eqn:Hok; simpl in Hrun; [|done].
  destruct (length data <? 100) eqn:Hshort.
  - inversion Hrun; subst. exists 0. split; [done|]. split; [intros; lia|].
    exists status, data. rewrite Nat.add_0_r.
    apply Nat.ltb_lt in Hshort. done.
  - apply Nat.ltb_ge in Hshort.
    destruct (IH _ _ _ _ _ Hrun) as (n & -> & Hfull & Hlast).
    exists (S n). split; [|split].
    + rewrite <- app_assoc. reflexivity.
    + intros [|j] Hj.
      * exists status, data. by rewrite Nat.add_0_r.
      * replace (page + S j) with (S page + j) by lia. apply Hfull. lia.
    + replace (page + S n) with (S page + n) by lia. exact Hlast.
Qed.

End Rest.

Section Paged.
Import Layered.

Variable username : string.

Lemma rest_of_page (acc rem : list Repo) (page : nat) :
  length acc = 100 * (page - 1) →
  rest_of (acc ++ rem) username 100 page = Answered 200 (take 100 rem).
Proof.
  intros Hacc. unfold rest_of. rewrite <- Hacc.
  by rewrite drop_app_length.
Qed.

(** Against a remote that pages through the records, the loop asks for
    one page more than there are full pages and gathers all records. *)
Lemma rest_loop_paged fuel :
  ∀ acc rem page sent,
    length acc = 100 * (page - 1) →
    1 ≤ page →
    length rem / 100 < fuel →
    rest_loop (rest_of (acc ++ rem)) fuel username acc page sent
    = Some (Got (acc ++ rem),
            sent ++ (pair 100 <$> seq page (length rem / 100 + 1))).
Proof.
  induction fuel as [|fuel IH]; intros acc rem page sent Hacc Hpage Hfuel; [lia|].
  rewrite (rest_loop_turn _ _ _ _ _ _ 200 (take 100 rem)
             (rest_of_page acc rem page Hacc) eq_refl).
  rewrite length_take.
  destruct (length rem <? 100) eqn:Hshort.
  - apply Nat.ltb_lt in Hshort.
    replace (100 `min` length rem <? 100) with true
      by (symmetry; apply Nat.ltb_lt; lia).
    rewrite take_ge by lia. rewrite Nat.div_small by done. reflexivity.
  - apply Nat.ltb_ge in Hshort.
    replace (100 `min` length rem <? 100) with false
      by (symmetry; apply Nat.ltb_ge; lia).
    assert (Hsplit : acc ++ rem = (acc ++ take 100 rem) ++ drop 100 rem)
      by (by rewrite <- app_assoc, take_drop).
    assert (Hdiv : length rem / 100 = S (length (drop 100 rem) / 100)).
    { rewrite length_drop.
      replace (length rem) with (1 * 100 + (length rem - 100)) at 1 by lia.
      rewrite Nat.div_add_l by lia. lia. }
    rewrite Hsplit at 1. rewrite IH.
    + rewrite <- Hsplit, Hdiv, <- app_assoc. reflexivity.
    + rewrite length_app, length_take. lia.
    + lia.
    + lia.
Qed.

(** [C9] Without a token the loop asks for pages of 100 records under
    consecutive numbers from 1 and ends with the first page that holds
    fewer than 100 records: a run that ends with a list has seen full
    pages up to the last request and a short page at it. Against a remote
    that pages through [records] it gathers all of them with one request
    more than there are full pages; when the number of records is a
    positive multiple of 100, the last full page is followed by one more
    request, which is answered with an empty page, and the loop ends
    there. *)
Theorem rest_fallback_stops_on_short_page (records : list Repo) (fuel : nat) :
  length records / 100 < fuel →
  rest_loop (rest_of records) fuel username [] 1 []
  = Some (Got records, pair 100 <$> seq 1 (length records / 100 + 1))
  ∧ (∀ rest fuel' l sent,
       rest_loop rest fuel' username [] 1 [] = Some (Got l, sent) →
       ∃ n,
         sent = pair 100 <$> seq 1 (S n)
         ∧ (∀ j, j < n → ∃ status data,
              rest username 100 (1 + j) = Answered status data
              ∧ Server.ok status = true ∧ 100 ≤ length data)
         ∧ (∃ status data,
              rest username 100 (1 + n) = Answered status data
              ∧ Server.ok status = true ∧ length data < 100))
  ∧ (∀ k, 0 < k → length records = 100 * k →
       length (seq 1 (length records / 100 + 1)) = k + 1
       ∧ (∃ data, rest_of records username 100 k = Answered 200 data
                  ∧ length data = 100)
       ∧ rest_of records username 100 (k + 1) = Answered 200 []).
Proof.
  intros Hfuel. split; [|split].
  - apply (rest_loop_paged fuel [] records 1 []); [done|lia|done].
  - intros rest fuel' l sent Hrun.
    destruct (rest_loop_got rest username fuel' _ _ _ _ _ Hrun)
      as (n & Hsent & Hfull & Hlast).
    exists n. done.
  - intros k Hk Hlen. split; [|split].
    + rewrite length_seq, Hlen, Nat.mul_comm, Nat.div_mul by lia. done.
    + unfold rest_of. eexists. split; [reflexivity|].
      rewrite length_take, length_drop. lia.
    + unfold rest_of. f_equal. apply length_zero_iff_nil.
      rewrite length_take, length_drop. lia.
Qed.

End Paged.

Lemma rest_fallback_stops_on_short_page_witness :
  Layered.rest_loop (Layered.rest_of (Sample.records 200)) 3 "octo" [] 1 []
  = Some (Layered.Got (Sample.records 200), [(100, 1); (100, 2); (100, 3)])
  ∧ Layered.rest_of (Sample.records 200) "octo" 100 3 = Layered.Answered 200 [].
Proof.
  assert (Hfuel : length (Sample.records 200) / 100 < 3)
    by (vm_compute; lia).
  destruct (rest_fallback_stops_on_short_page "octo" (Sample.records 200) 3 Hfuel)
    as (Hrun & _ & Hexact).
  split.
  - exact Hrun.
  - destruct (Hexact 2) as (_ & _ & Hempty); [lia | reflexivity | exact Hempty].
Defined.

(** ** Failed fetches *)

Section Failure.
Import Layered.

Variable graphql : option string → Server.Reply.
Variable rest : string → nat → nat → RestReply.

(** A page answered with a status outside 200-299 ends the loop of the
    endpoint: the response carries no record of the pages gathered so far
    and a message that is not empty. *)
Lemma paginate_http_error fuel c acc sent :
  Server.ok (Server.status (graphql c)) = false →
  Server.paginate graphql (S fuel) true c acc sent
  = Some ({| Server.response_status := Server.status (graphql c);
             Server.repos := [];
             Server.error := Some ("GitHub API error: "
                                   +:+ pretty (Server.status (graphql c))) |},
          sent ++ [c]).
Proof. intros Hok. simpl. by rewrite Hok. Qed.

(** A page answered with errors ends it as well, with the first message. *)
Lemma paginate_api_error fuel c acc sent message :
  Server.ok (Server.status (graphql c)) = true →
  Server.first_error (Server.body (graphql c)) = Some message →
  Server.paginate graphql (S fuel) true c acc sent
  = Some ({| Server.response_status := 400; Server.repos := [];
             Server.error := Some message |}, sent ++ [c]).
Proof. intros Hok Herr. simpl. by rewrite Hok, Herr. Qed.

(** The page throws on a response whose [error] is a non-empty string. *)
Lemma via_server_error fuel token response sent message :
  Server.POST graphql fuel token = Some (response, sent) →
  Server.error response = Some message →
  truthy_str message = true →
  via_server graphql fuel token = Some (Failed message).
Proof. intros Hpost Herr Hm. unfold via_server. by rewrite Hpost, Herr, Hm. Qed.

(** A REST page that is rejected or answered with a status outside
    200-299 ends the fallback in the [catch]. *)
Lemma rest_loop_rejected fuel username acc page sent message :
  rest username 100 page = Rejected message →
  rest_loop rest (S fuel) username acc page sent
  = Some (Failed message, sent ++ [(100, page)]).
Proof. intros Hr. simpl. by rewrite Hr. Qed.

Lemma rest_loop_http_error fuel username acc page sent status data :
  rest username 100 page = Answered status data →
  Server.ok status = false →
  rest_loop rest (S fuel) username acc page sent
  = Some (Failed ("GitHub API error: " +:+ pretty status), sent ++ [(100, page)]).
Proof. intros Hr Hok. simpl. by rewrite Hr, Hok. Qed.

(** When the [try] block ends in the [catch], nothing is written to the
    store, the list in memory is emptied and the message is shown. *)
Lemma failed_attempt_keeps_store fuel p message :
  truthy_str (token p) || truthy_str (username p) = true →
  attempt graphql rest fuel (set_error EmptyString (set_loading true p)) = Some (Failed message) →
  ∃ p', fetchRepos graphql rest fuel p = Some p'
        ∧ localStorage p' = localStorage p
        ∧ repos p' = []
        ∧ error p' = message
        ∧ loading p' = false.
Proof.
  intros Hcred Hfail. unfold fetchRepos.
  destruct (truthy_str (token p)), (truthy_str (username p)); try done;
    simpl; rewrite Hfail; eexists; done.
Qed.

(** When it ends with a list, the list is shown and stored. *)
Lemma successful_attempt_is_stored fuel p allRepos :
  truthy_str (token p) || truthy_str (username p) = true →
  attempt graphql rest fuel (set_error EmptyString (set_loading true p)) = Some (Got allRepos) →
  ∃ p', fetchRepos graphql rest fuel p = Some p'
        ∧ repomgr_github (localStorage p') = Some allRepos
        ∧ repos p' = allRepos.
Proof.
  intros Hcred Hgot. unfold fetchRepos.
  destruct (truthy_str (token p)), (truthy_str (username p)); try done;
    simpl; rewrite Hgot; eexists; done.
Qed.

End Failure.

(** A second page answered with status 502 after a first full page: the
    hundred records are dropped and the store keeps the earlier list. *)
Lemma bad_gateway_keeps_store :
  ∃ p', Layered.fetchRepos Sample.bad_gateway Sample.no_rest 2 Sample.with_token
        = Some p'
        ∧ Layered.localStorage p' = Layered.localStorage Sample.with_token
        ∧ Layered.repos p' = []
        ∧ Layered.error p' = "GitHub API error: 502".
Proof. eexists. split; [vm_compute; reflexivity|]. done. Qed.

(** [C4] At a second page answered with an error whose message is empty,
    after a first full page: the endpoint answers with status 400,
    [repos: []] and an empty [error]; the page tests only [result.error], finds
    it falsy, takes the empty list as the result and stores it in place
    of the earlier list. *)
Theorem silent_error_overwrites_store :
  Server.POST Sample.silent_error 2 "ghp_token"
  = Some ({| Server.response_status := 400; Server.repos := [];
             Server.error := Some EmptyString |}, [None; Some "Y3Vyc29yOjEwMA=="])
  ∧ Layered.repomgr_github (Layered.localStorage Sample.with_token)
    = Some Sample.earlier
  ∧ ∃ p', Layered.fetchRepos Sample.silent_error Sample.no_rest 2 Sample.with_token
          = Some p'
          ∧ Layered.repomgr_github (Layered.localStorage p') = Some []
          ∧ Layered.repos p' = []
          ∧ Layered.error p' = EmptyString.
Proof.
  split; [vm_compute; reflexivity|]. split; [reflexivity|].
  eexists. split; [vm_compute; reflexivity|]. done.
Qed.

(** ** The JSON reader reads back what the printer writes *)

Section Reading.
Import Js MiniJson.

Lemma app_cons c r s : String c r +:+ s = String c (r +:+ s).
Proof. reflexivity. Qed.

Lemma app_assoc_string a b c : (a +:+ b) +:+ c = a +:+ (b +:+ c).
Proof.
  induction a as [|x a IH]; [reflexivity|]. rewrite !app_cons. by rewrite IH.
Qed.

Lemma app_empty_r s : s +:+ EmptyString = s.
Proof. induction s as [|x s IH]; [reflexivity|]. rewrite app_cons. by rewrite IH. Qed.

Lemma length_app_string a b :
  String.length (a +:+ b) = String.length a + String.length b.
Proof.
  induction a as [|x a IH]; [reflexivity|]. rewrite app_cons. simpl. by rewrite IH.
Qed.

(** *** String literals *)

Lemma read_chars_quote s rest :
  read_chars (quote_chars s +:+ rest) = Some (s, rest).
Proof.
  induction s as [|c s IH].
  - reflexivity.
  - simpl quote_chars.
    destruct (Ascii.eqb c dquote) eqn:Hq.
    { apply Ascii.eqb_eq in Hq as ->. simpl. rewrite ?app_cons. simpl.
      by rewrite IH. }
    destruct (Ascii.eqb c "\") eqn:Hb.
    { apply Ascii.eqb_eq in Hb as ->. simpl. rewrite ?app_cons. simpl.
      by rewrite IH. }
    simpl. destruct (Ascii.eqb c newline) eqn:Hn.
    { apply Ascii.eqb_eq in Hn as ->. rewrite ?app_cons. simpl. by rewrite IH. }
    rewrite ?app_cons. simpl. by rewrite Hq, Hb, IH.
Qed.

(** *** White space *)

Lemma skip_spaces n s : skip (spaces n +:+ s) = skip s.
Proof. induction n as [|n IH]; [reflexivity|]. simpl. rewrite ?app_cons. done. Qed.

Lemma skip_break space level s : skip (break space level +:+ s) = skip s.
Proof.
  unfold break. destruct space; [reflexivity|].
  rewrite ?app_cons. simpl. apply skip_spaces.
Qed.

Lemma skip_start c r : is_space c = false → skip (String c r) = String c r.
Proof. intros H. simpl. by rewrite H. Qed.

Lemma ends_number_break space level c r :
  digit c = None → ends_number (break space level +:+ String c r).
Proof. intros H. unfold break. by destruct space. Qed.

(** *** Numbers *)

Lemma digit_char (d : N) :
  (d < 10)%N → digit (pretty_N_char d) = Some (Z.of_N d).
Proof.
  intros H.
  assert (d = 0 ∨ d = 1 ∨ d = 2 ∨ d = 3 ∨ d = 4 ∨ d = 5 ∨ d = 6 ∨ d = 7
          ∨ d = 8 ∨ d = 9)%N as Hd by lia.
  repeat (destruct Hd as [->|Hd]; [reflexivity|]). by subst.
Qed.

Lemma pretty_N_go_app x : ∀ s rest, pretty_N_go x s +:+ rest = pretty_N_go x (s +:+ rest).
Proof.
  induction (N.lt_wf_0 x) as [x _ IH]; intros s rest.
  assert (x = 0 ∨ 0 < x)%N as [->|Hx] by lia.
  - reflexivity.
  - rewrite (pretty_N_go_step x s), (pretty_N_go_step x (s +:+ rest)) by done.
    rewrite IH by (by apply N.div_lt). reflexivity.
Qed.

Lemma read_digits_go x :
  ∀ s, ∃ k : Z, ∀ acc,
    read_digits (pretty_N_go x s) acc = read_digits s (k * acc + Z.of_N x).
Proof.
  induction (N.lt_wf_0 x) as [x _ IH]; intros s.
  assert (x = 0 ∨ 0 < x)%N as [->|Hx] by lia.
  - exists 1%Z. intros acc. rewrite pretty_N_go_0. f_equal. lia.
  - destruct (IH (x `div` 10)%N (N.div_lt x 10 Hx eq_refl)
                (String (pretty_N_char (x `mod` 10)) s)) as [k Hk].
    exists (10 * k)%Z. intros acc. rewrite pretty_N_go_step by done.
    rewrite Hk. simpl. rewrite digit_char by (by apply N.mod_lt).
    f_equal. rewrite (N.div_mod x 10) at 3 by done. lia.
Qed.

Lemma read_digits_end rest acc :
  ends_number rest → read_digits rest acc = (acc, rest).
Proof. destruct rest as [|c r]; [done|]. simpl. by intros ->. Qed.

Lemma read_digits_pretty x rest :
  ends_number rest →
  read_digits (pretty_N_go x rest) 0 = (Z.of_N x, rest).
Proof.
  intros Hend. destruct (read_digits_go x rest) as [k Hk].
  rewrite Hk, read_digits_end by done. f_equal. lia.
Qed.

Lemma pretty_N_go_start x s :
  (0 < x)%N → ∃ d r, (d < 10)%N ∧ pretty_N_go x s = String (pretty_N_char d) r.
Proof.
  revert s. induction (N.lt_wf_0 x) as [x _ IH]; intros s Hx.
  rewrite pretty_N_go_step by done.
  set (q := (x `div` 10)%N) in *.
  assert (q = 0 ∨ 0 < q)%N as [->|Hq] by lia.
  - rewrite pretty_N_go_0. eexists _, _. split; [|reflexivity]. by apply N.mod_lt.
  - apply IH; [by apply N.div_lt | done].
Qed.

Lemma pretty_Z_start (n : Z) rest : number_start (pretty n +:+ rest).
Proof.
  destruct n as [|p|p].
  - apply (start_digit 0). lia.
  - change (pretty (Z.pos p)) with (pretty_N_go (N.pos p) "").
    rewrite pretty_N_go_app.
    destruct (pretty_N_go_start (N.pos p) ("" +:+ rest)) as (d & r & Hd & ->); [lia|].
    by constructor.
  - change (pretty (Z.neg p)) with ("-" +:+ pretty_N_go (N.pos p) "").
    rewrite app_assoc_string, pretty_N_go_app, ?app_cons.
    destruct (pretty_N_go_start (N.pos p) ("" +:+ rest)) as (d & r & Hd & ->); [lia|].
    by constructor.
Qed.

Lemma ten_cases (d : N) :
  (d < 10)%N →
  (d = 0 ∨ d = 1 ∨ d = 2 ∨ d = 3 ∨ d = 4 ∨ d = 5 ∨ d = 6 ∨ d = 7 ∨ d = 8 ∨ d = 9)%N.
Proof. lia. Qed.

Lemma read_number_pretty (n : Z) rest :
  ends_number rest →
  read_number (pretty n +:+ rest) = Some (Num n, rest).
Proof.
  intros Hend. destruct n as [|p|p].
  - change (pretty 0%Z +:+ rest) with (String "0" rest).
    unfold read_number. simpl. by rewrite read_digits_end.
  - change (pretty (Z.pos p)) with (pretty_N_go (N.pos p) "").
    rewrite pretty_N_go_app. change ("" +:+ rest) with rest.
    pose proof (read_digits_pretty (N.pos p) rest Hend) as Hread.
    destruct (pretty_N_go_start (N.pos p) rest) as (d & r & Hd & Heq); [lia|].
    rewrite Heq in *.
    destruct (ten_cases d Hd) as [->|[->|[->|[->|[->|[->|[->|[->|[->| ->]]]]]]]]];
      unfold read_number; simpl pretty_N_char in *; cbv iota beta;
        simpl digit; cbv iota beta; by rewrite Hread.
  - change (pretty (Z.neg p)) with ("-" +:+ pretty_N_go (N.pos p) "").
    rewrite app_assoc_string, pretty_N_go_app. change ("" +:+ rest) with rest.
    pose proof (read_digits_pretty (N.pos p) rest Hend) as Hread.
    destruct (pretty_N_go_start (N.pos p) rest) as (d & r & Hd & Heq); [lia|].
    rewrite Heq in *. rewrite ?app_cons. change ("" +:+ ?x) with x.
    destruct (ten_cases d Hd) as [->|[->|[->|[->|[->|[->|[->|[->|[->| ->]]]]]]]]];
      unfold read_number; simpl pretty_N_char in *; cbv iota beta;
        simpl digit; cbv iota beta; by rewrite Hread.
Qed.


(** *** Induction on values *)

Lemma cost_element (l : list value) (x : value) :
  x ∈ l → cost x < foldr (λ x acc, S (cost x + acc)) 0 l.
Proof.
  induction l as [|y l IH]; intros Hx; [by apply elem_of_nil in Hx|].
  apply elem_of_cons in Hx as [->|Hx]; simpl; [lia|].
  specialize (IH Hx). lia.
Qed.

Lemma cost_entries (o : gmap string value) :
  map_fold (λ _ x acc, S (cost x + acc)) 0 o
  = foldr (λ kx acc, S (cost kx.2 + acc)) 0 (map_to_list o).
Proof.
  rewrite map_fold_foldr. induction (map_to_list o) as [|[k x] l IH]; [done|].
  simpl. by rewrite IH.
Qed.

Lemma cost_entry (l : list (string * value)) (k : string) (x : value) :
  (k, x) ∈ l → cost x < foldr (λ kx acc, S (cost kx.2 + acc)) 0 l.
Proof.
  induction l as [|y l IH]; intros Hx; [by apply elem_of_nil in Hx|].
  apply elem_of_cons in Hx as [<-|Hx]; simpl; [lia|].
  specialize (IH Hx). lia.
Qed.

Lemma cost_member (o : gmap string value) (k : string) (x : value) :
  o !! k = Some x → cost x < map_fold (λ _ x acc, S (cost x + acc)) 0 o.
Proof.
  intros Hk. rewrite cost_entries. apply (cost_entry _ k).
  by apply elem_of_map_to_list.
Qed.

Lemma value_nested_ind (P : value → Prop) :
  P Null → (∀ b, P (Bool b)) → (∀ n, P (Num n)) → (∀ s, P (Str s)) →
  (∀ l, (∀ x, x ∈ l → P x) → P (Arr l)) →
  (∀ o, (∀ k x, o !! k = Some x → P x) → P (Obj o)) →
  ∀ v, P v.
Proof.
  intros Hnull Hbool Hnum Hstr Harr Hobj v.
  remember (cost v) as n eqn:Hn. revert v Hn.
  induction (lt_wf n) as [n _ IH]. intros v ->.
  destruct v as [| b | z | s | l | o]; auto.
  - apply Harr. intros x Hx. apply (IH (cost x)); [|done].
    simpl. pose proof (cost_element l x Hx). lia.
  - apply Hobj. intros k x Hx. apply (IH (cost x)); [|done].
    simpl. pose proof (cost_member o k x Hx). lia.
Qed.

(** *** Values *)

Lemma prefix_empty s : String.prefix EmptyString s = true.
Proof. by destruct s. Qed.

Lemma substring_all s : String.substring 0 (String.length s) s = s.
Proof. induction s as [|c s IH]; [done|]. simpl. by rewrite IH. Qed.

(** What the text of a value starts with. *)
Lemma print_start space level v rest :
  ∃ c r, print space level v +:+ rest = String c r
         ∧ is_space c = false ∧ c ≠ "]"%char.
Proof.
  assert (Hlit : ∀ c r, is_space c = false → c ≠ "]"%char →
            ∃ c' r', String c r = String c' r'
                     ∧ is_space c' = false ∧ c' ≠ "]"%char) by eauto.
  destruct v as [| [] | n | s | l | o].
  - by apply Hlit.
  - by apply Hlit.
  - by apply Hlit.
  - change (print space level (Num n) +:+ rest) with (pretty n +:+ rest).
    destruct (pretty_Z_start n rest) as [d r Hd | d r Hd].
    + apply Hlit;
      destruct (ten_cases d Hd) as [->|[->|[->|[->|[->|[->|[->|[->|[->| ->]]]]]]]]];
        done.
    + by apply Hlit.
  - by apply Hlit.
  - destruct l; by apply Hlit.
  - simpl. destruct (map_fold _ _ o); by apply Hlit.
Qed.

Lemma read_value_skip fuel s s' :
  skip s = skip s' → read_value fuel s = read_value fuel s'.
Proof. intros H. destruct fuel; [done|]. simpl. by rewrite H. Qed.

Lemma read_value_break fuel space level s :
  read_value fuel (break space level +:+ s) = read_value fuel s.
Proof. apply read_value_skip, skip_break. Qed.

Lemma read_elements_last fuel s x r rest :
  read_value fuel s = Some (x, r) →
  skip r = String "]" rest →
  read_elements (S fuel) s = Some ([x], rest).
Proof. intros Hx Hr. simpl. by rewrite Hx, Hr. Qed.

Lemma read_elements_next fuel s x r rest :
  read_value fuel s = Some (x, r) →
  skip r = String "," rest →
  read_elements (S fuel) s
  = match read_elements fuel rest with
    | Some (l, rest') => Some (x :: l, rest')
    | None => None
    end.
Proof. intros Hx Hr. simpl. by rewrite Hx, Hr. Qed.

(** The elements of an array, each read back by [read_value]. *)
Lemma read_elements_print space level level' (l : list value) :
  l ≠ [] →
  (∀ x, x ∈ l → ∀ rest fuel, cost x ≤ fuel → ends_number rest →
     read_value fuel (print space level x +:+ rest) = Some (x, rest)) →
  ∀ fuel rest,
    foldr (λ x acc, S (cost x + acc)) 0 l ≤ fuel →
    read_elements fuel
      (break space level
       +:+ join ("," +:+ break space level) (print space level <$> l)
       +:+ break space level' +:+ "]" +:+ rest)
    = Some (l, rest).
Proof.
  induction l as [|x l IH]; intros Hne Hall fuel rest Hfuel; [done|].
  simpl in Hfuel. destruct fuel as [|fuel]; [lia|].
  assert (Hx : ∀ rest, ends_number rest →
            read_value fuel (break space level +:+ print space level x +:+ rest)
            = Some (x, rest)).
  { intros rest' Hend. rewrite read_value_break.
    apply Hall; [apply elem_of_cons; by left | lia | done]. }
  destruct l as [|y l].
  - apply (read_elements_last _ _ _ (break space level' +:+ "]" +:+ rest)).
    + apply Hx. by apply ends_number_break.
    + by rewrite skip_break.
  - change (join ("," +:+ break space level) (print space level <$> x :: y :: l))
      with (print space level x +:+ ("," +:+ break space level)
            +:+ join ("," +:+ break space level) (print space level <$> y :: l)).
    rewrite !app_assoc_string.
    erewrite read_elements_next; [|by apply Hx|reflexivity].
    rewrite IH; [done | done | | lia].
    intros z Hz. apply Hall. apply elem_of_cons. by right.
Qed.

Lemma read_members_last fuel s k r1 r2 x r3 rest :
  skip s = String dquote r1 →
  read_chars r1 = Some (k, r2) →
  skip r2 = String ":" r3 →
  read_value fuel r3 = Some (x, rest) →
  ∀ rest', skip rest = String "}" rest' →
  read_members (S fuel) s = Some ({[k := x]}, rest').
Proof.
  intros Hs Hk Hc Hx rest' Hr. simpl. rewrite Hs. simpl.
  by rewrite Hk, Hc, Hx, Hr.
Qed.

Lemma read_members_next fuel s k r1 r2 x r3 rest :
  skip s = String dquote r1 →
  read_chars r1 = Some (k, r2) →
  skip r2 = String ":" r3 →
  read_value fuel r3 = Some (x, rest) →
  ∀ rest', skip rest = String "," rest' →
  read_members (S fuel) s
  = match read_members fuel rest' with
    | Some (o, rest'') =>
        Some (match o !! k with
              | Some _ => o
              | None => <[k := x]> o
              end, rest'')
    | None => None
    end.
Proof.
  intros Hs Hk Hc Hx rest' Hr. simpl. rewrite Hs. simpl.
  by rewrite Hk, Hc, Hx, Hr.
Qed.

Lemma skip_colon space s :
  ∃ r3, skip ((if space is O then ":" else ": ") +:+ s) = String ":" r3
        ∧ skip r3 = skip s.
Proof. destruct space; by eexists. Qed.

Lemma read_members_print space level level' (es : list (string * value)) :
  es ≠ [] →
  NoDup es.*1 →
  (∀ k x, (k, x) ∈ es → ∀ rest fuel, cost x ≤ fuel → ends_number rest →
     read_value fuel (print space level x +:+ rest) = Some (x, rest)) →
  ∀ fuel rest,
    foldr (λ kx acc, S (cost kx.2 + acc)) 0 es ≤ fuel →
    read_members fuel
      (break space level
       +:+ join ("," +:+ break space level) (member_text space level <$> es)
       +:+ break space level' +:+ "}" +:+ rest)
    = Some (list_to_map es, rest).
Proof.
  induction es as [|[k x] es IH]; intros Hne Hnd Hall fuel rest Hfuel; [done|].
  simpl in Hfuel. destruct fuel as [|fuel]; [lia|].
  apply NoDup_cons in Hnd as [Hk Hnd].
  assert (Hx : ∀ rest, ends_number rest →
            ∃ r1 r2 r3,
              skip (break space level +:+ member_text space level (k, x) +:+ rest)
              = String dquote r1
              ∧ read_chars r1 = Some (k, r2)
              ∧ skip r2 = String ":" r3
              ∧ read_value fuel r3 = Some (x, rest)).
  { intros rest' Hend. unfold member_text. simpl fst. simpl snd.
    destruct (skip_colon space (print space level x +:+ rest')) as (r3 & Hc & Hr3).
    exists (quote_chars k +:+ (if space is O then ":" else ": ")
            +:+ print space level x +:+ rest'),
           ((if space is O then ":" else ": ") +:+ print space level x +:+ rest'), r3.
    split; [|split; [|split]].
    - rewrite skip_break. unfold quote. rewrite !app_assoc_string. reflexivity.
    - apply read_chars_quote.
    - exact Hc.
    - rewrite (read_value_skip _ _ _ Hr3).
      apply (Hall k); [apply elem_of_cons; by left | lia | done]. }
  destruct es as [|[k' y] es].
  - destruct (Hx (break space level' +:+ "}" +:+ rest)) as (r1 & r2 & r3 & H1 & H2 & H3 & H4);
      [by apply ends_number_break|].
    simpl join. 
    rewrite (read_members_last _ _ _ _ _ _ _ _ H1 H2 H3 H4 rest).
    + reflexivity.
    + by rewrite skip_break.
  - change (join ("," +:+ break space level)
              (member_text space level <$> (k, x) :: (k', y) :: es))
      with (member_text space level (k, x) +:+ ("," +:+ break space level)
            +:+ join ("," +:+ break space level)
                  (member_text space level <$> (k', y) :: es)).
    rewrite !app_assoc_string.
    match goal with
    | |- read_members _ (_ +:+ _ +:+ "," +:+ ?t) = _ =>
        destruct (Hx ("," +:+ t)) as (r1 & r2 & r3 & H1 & H2 & H3 & H4); [done|];
        rewrite (read_members_next _ _ _ _ _ _ _ _ H1 H2 H3 H4 t eq_refl)
    end.
    rewrite IH; [| done | done | | lia].
    + rewrite not_elem_of_list_to_map_1 by done. reflexivity.
    + intros k0 z Hz. apply (Hall k0). apply elem_of_cons. by right.
Qed.

Lemma print_members space level (o : gmap string value) :
  map_fold (λ k x acc,
     (quote k +:+ (if space is O then ":" else ": ") +:+ print space level x)
     :: acc) [] o
  = member_text space level <$> map_to_list o.
Proof.
  rewrite map_fold_foldr. induction (map_to_list o) as [|[k x] l IH]; [done|].
  simpl. by rewrite IH.
Qed.

Lemma print_object space level (o : gmap string value) :
  print space level (Obj o)
  = match member_text space (S level) <$> map_to_list o with
    | [] => "{}"
    | members =>
        "{" +:+ break space (S level)
        +:+ join ("," +:+ break space (S level)) members
        +:+ break space level +:+ "}"
    end.
Proof. simpl. by rewrite print_members. Qed.

Lemma read_value_array fuel r :
  (∀ rest, skip r ≠ String "]" rest) →
  read_value (S fuel) ("[" +:+ r)
  = match read_elements fuel r with
    | Some (l, rest) => Some (Arr l, rest)
    | None => None
    end.
Proof.
  intros Hopen. change ("[" +:+ r) with (String "[" r). simpl.
  destruct (skip r) as [|c r'] eqn:Hr; [reflexivity|].
  destruct c as [[] [] [] [] [] [] [] []]; try reflexivity.
  by destruct (Hopen r').
Qed.

Lemma read_value_object fuel r :
  (∀ rest, skip r ≠ String "}" rest) →
  read_value (S fuel) ("{" +:+ r)
  = match read_members fuel r with
    | Some (o, rest) => Some (Obj o, rest)
    | None => None
    end.
Proof.
  intros Hopen. change ("{" +:+ r) with (String "{" r). simpl.
  destruct (skip r) as [|c r'] eqn:Hr; [reflexivity|].
  destruct c as [[] [] [] [] [] [] [] []]; try reflexivity.
  by destruct (Hopen r').
Qed.

(** The reader reads a printed value back, whatever text follows it, when
    that text does not go on with a digit and the fuel covers the value. *)
Lemma read_value_print (v : value) :
  ∀ space level rest fuel,
    cost v ≤ fuel → ends_number rest →
    read_value fuel (print space level v +:+ rest) = Some (v, rest).
Proof.
  induction v as [| b | n | s | l IH | o IH] using value_nested_ind;
    intros space level rest fuel Hfuel Hend;
    (destruct fuel as [|fuel]; [simpl in Hfuel; lia|]).
  - change (print space level Null +:+ rest)
      with (String "n" (String "u" (String "l" (String "l" rest)))).
    simpl. unfold after. simpl.
      by rewrite prefix_empty, Nat.sub_0_r, substring_all.
  - destruct b.
    + change (print space level (Bool true) +:+ rest)
        with (String "t" (String "r" (String "u" (String "e" rest)))).
      simpl. unfold after. simpl.
      by rewrite prefix_empty, Nat.sub_0_r, substring_all.
    + change (print space level (Bool false) +:+ rest)
        with (String "f" (String "a" (String "l" (String "s" (String "e" rest))))).
      simpl. unfold after. simpl.
      by rewrite prefix_empty, Nat.sub_0_r, substring_all.
  - change (print space level (Num n) +:+ rest) with (pretty n +:+ rest).
    rewrite <- (read_number_pretty n rest Hend).
    destruct (pretty_Z_start n rest) as [d r Hd | d r Hd]; [|reflexivity].
    destruct (ten_cases d Hd) as [->|[->|[->|[->|[->|[->|[->|[->|[->| ->]]]]]]]]];
      reflexivity.
  - change (print space level (Str s) +:+ rest)
      with (String dquote (quote_chars s +:+ rest)).
    simpl. by rewrite read_chars_quote.
  - destruct l as [|x l]; [reflexivity|].
    change (print space level (Arr (x :: l)))
      with ("[" +:+ break space (S level)
            +:+ join ("," +:+ break space (S level))
                  (print space (S level) <$> x :: l)
            +:+ break space level +:+ "]").
    rewrite !app_assoc_string. rewrite read_value_array.
    + rewrite (read_elements_print space (S level) level (x :: l)); [done|done| |].
      * intros y Hy rest' fuel' Hf He. by apply IH.
      * simpl in Hfuel. simpl. lia.
    + intros rest' Hskip. rewrite skip_break in Hskip.
      destruct l as [|y l].
      * simpl join in Hskip.
        destruct (print_start space (S level) x (break space level +:+ "]" +:+ rest))
          as (c & r & Heq & Hsp & Hc).
        rewrite Heq, skip_start in Hskip by done. congruence.
      * change (join ("," +:+ break space (S level))
                  (print space (S level) <$> x :: y :: l))
          with (print space (S level) x +:+ ("," +:+ break space (S level))
                +:+ join ("," +:+ break space (S level))
                      (print space (S level) <$> y :: l)) in Hskip.
        rewrite !app_assoc_string in Hskip.
        match type of Hskip with
        | skip (_ +:+ ?t) = _ =>
            destruct (print_start space (S level) x t) as (c & r & Heq & Hsp & Hc)
        end.
        rewrite Heq, skip_start in Hskip by done. congruence.
  - rewrite print_object.
    destruct (map_to_list o) as [|[k x] es] eqn:Hes.
    { apply map_to_list_empty_iff in Hes as ->. reflexivity. }
    rewrite <- Hes.
    assert (Hne : map_to_list o ≠ []) by (by rewrite Hes).
    destruct (member_text space (S level) <$> map_to_list o) as [|m ms] eqn:Hms.
    { apply fmap_nil_inv in Hms. done. }
    rewrite <- Hms. rewrite !app_assoc_string. rewrite read_value_object.
    + rewrite (read_members_print space (S level) level (map_to_list o)).
      * by rewrite list_to_map_to_list.
      * done.
      * apply NoDup_fst_map_to_list.
      * intros k' y Hy rest' fuel' Hf He. apply elem_of_map_to_list in Hy.
        by apply (IH k').
      * simpl in Hfuel. rewrite cost_entries in Hfuel. lia.
    + intros rest' Hskip. rewrite skip_break, Hes in Hskip.
      destruct es as [|e es]; simpl in Hskip; discriminate.
Qed.

(** *** The fuel of [parse] *)

Lemma join_bound {A} (size : A → nat) (text : A → string) (sep : string)
    (l : list A) :
  1 ≤ String.length sep →
  (∀ x, x ∈ l → size x ≤ 2 * String.length (text x)) →
  foldr (λ x acc, S (size x + acc)) 0 l
  ≤ 2 * String.length (join sep (text <$> l)) + 2.
Proof.
  intros Hsep. induction l as [|x l IH]; intros Hall; [simpl; lia|].
  assert (Hx : size x ≤ 2 * String.length (text x))
    by (apply Hall, elem_of_cons; by left).
  assert (Hl : ∀ y, y ∈ l → size y ≤ 2 * String.length (text y))
    by (intros y Hy; apply Hall, elem_of_cons; by right).
  specialize (IH Hl). destruct l as [|y l].
  - simpl. lia.
  - change (join sep (text <$> x :: y :: l))
      with (text x +:+ sep +:+ join sep (text <$> y :: l)).
    rewrite !length_app_string.
    change (foldr (λ x acc, S (size x + acc)) 0 (x :: y :: l))
      with (S (size x + foldr (λ x acc, S (size x + acc)) 0 (y :: l))).
    lia.
Qed.

Lemma length_break_comma space level :
  1 ≤ String.length ("," +:+ break space level).
Proof. simpl. lia. Qed.

Lemma cost_bound (v : value) :
  ∀ space level, cost v ≤ 2 * String.length (print space level v).
Proof.
  induction v as [| b | n | s | l IH | o IH] using value_nested_ind;
    intros space level.
  - simpl. lia.
  - destruct b; simpl; lia.
  - change (cost (Num n)) with 1.
    destruct (print_start space level (Num n) EmptyString) as (c & r & Heq & _).
    rewrite app_empty_r in Heq. rewrite Heq. simpl. lia.
  - simpl. lia.
  - destruct l as [|x l]; [simpl; lia|].
    change (print space level (Arr (x :: l)))
      with ("[" +:+ break space (S level)
            +:+ join ("," +:+ break space (S level))
                  (print space (S level) <$> x :: l)
            +:+ break space level +:+ "]").
    rewrite !length_app_string.
    pose proof (join_bound cost (print space (S level))
                  ("," +:+ break space (S level)) (x :: l)
                  (length_break_comma space (S level))
                  (λ y Hy, IH y Hy space (S level))) as Hb.
    change (cost (Arr (x :: l)))
      with (S (foldr (λ x acc, S (cost x + acc)) 0 (x :: l))).
    change (String.length "[") with 1. change (String.length "]") with 1. lia.
  - rewrite print_object.
    change (cost (Obj o)) with (S (map_fold (λ _ x acc, S (cost x + acc)) 0 o)).
    rewrite cost_entries.
    destruct (map_to_list o) as [|e es] eqn:Hes; [simpl; lia|].
    rewrite <- Hes.
    destruct (member_text space (S level) <$> map_to_list o) as [|m ms] eqn:Hms.
    { apply fmap_nil_inv in Hms. by rewrite Hes in Hms. }
    rewrite <- Hms. rewrite !length_app_string.
    pose proof (join_bound (λ kx, cost kx.2) (member_text space (S level))
                  ("," +:+ break space (S level)) (map_to_list o)
                  (length_break_comma space (S level))) as Hb.
    change (String.length "{") with 1. change (String.length "}") with 1.
    assert (Hall : ∀ kx, kx ∈ map_to_list o →
              cost kx.2 ≤ 2 * String.length (member_text space (S level) kx)).
    { intros [k x] Hkx. apply elem_of_map_to_list in Hkx. simpl.
      unfold member_text. simpl. rewrite !length_app_string.
      specialize (IH k x Hkx space (S level)). lia. }
    specialize (Hb Hall). lia.
Qed.

(** [parse] reads back what [stringify] writes, for every value and every
    indentation. *)
Lemma parse_stringify (v : value) (space : nat) :
  parse (stringify v space) = Some v.
Proof.
  unfold parse, stringify.
  pose proof (read_value_print v space 0 EmptyString
                (2 * String.length (print space 0 v) + 2)) as Hread.
  rewrite app_empty_r in Hread. rewrite Hread; [reflexivity| |done].
  pose proof (cost_bound v space 0). lia.
Qed.

End Reading.

(** ** The theorems on sample data *)

Lemma row_urls_by_bare_name_witness :
  let tofuUrls : gmap string string := {["site" := "octo.example"]} in
  let customUrls : gmap string (list string) :=
    <["site" := [EmptyString; "http://x"]]> {["octo/site" := ["http://y"]]} in
  let a : Layered.Annotations :=
    {| Layered.a_classes := []; Layered.a_repoClasses := ∅;
       Layered.a_customUrls := customUrls;
       Layered.a_repoEnabled := {["octo/site" := true]};
       Layered.a_repoDescriptions := ∅ |} in
  View.row_urls tofuUrls customUrls Sample.site
  = Js.Normal (Proto.Own ["octo.example"; EmptyString; "http://x"])
  ∧ View.pages_url_accessorFn tofuUrls customUrls Sample.site
    = Js.Normal "octo.example, , http://x"
  ∧ ∃ projects p,
      Editor.exportEnabledProjectData tofuUrls a Sample.earlier = Js.Normal projects
      ∧ p ∈ projects
      ∧ Editor.URLs p = Proto.Own ["octo.example"; EmptyString; "http://x"].
Proof.
  intros tofuUrls customUrls a.
  assert (Ht : Proto.plain tofuUrls) by (by apply plain_names).
  assert (Hc : Proto.plain customUrls) by (by apply plain_names).
  destruct (row_urls_by_bare_name tofuUrls customUrls Sample.site Ht Hc eq_refl)
    as (Hurls & Hshown & Hexport).
  split; [rewrite Hurls; vm_compute; reflexivity|].
  split; [rewrite Hshown; vm_compute; reflexivity|].
  destruct (Hexport a Sample.earlier eq_refl) as (projects & Hrun & _ & Hown).
  destruct Hown as (p & Hp & _ & _ & Hlist);
    [apply list_elem_of_here | reflexivity |].
  exists projects, p. split; [exact Hrun|]. split; [exact Hp|].
  rewrite Hlist. vm_compute. reflexivity.
Defined.

Lemma sources_filter_keeps_non_forks_witness :
  View.filtered_rows (λ r, View.type_filterFn r "Sources") Sample.four
  = [ Sample.repo "octo" "site" false false;
      Sample.repo "octo" "notes" false true;
      Sample.repo "octo" "tools" false false ]
  ∧ length (View.filtered_rows (λ r, View.type_filterFn r "Sources") Sample.four) = 3.
Proof.
  destruct (sources_filter_keeps_non_forks Sample.four Sample.site)
    as (_ & _ & Hcount).
  destruct Hcount as (Hrows & Hlen & _); [reflexivity..|].
  split; [|exact Hlen]. rewrite Hrows. reflexivity.
Defined.

Lemma import_skips_absent_and_falsy_keys_witness :
  let data :=
    MiniJson.text
      "{'classes': null, 'customUrls': 0, 'repoEnabled': false,
        'repoDescriptions': '', 'repoClasses': {'octo/site': 'lib'}}" in
  let p' := Layered.importCustomData MiniJson.parse data Sample.annotated in
  Layered.classes (Layered.custom p') = Layered.classes (Layered.custom Sample.annotated)
  ∧ Layered.customUrls (Layered.custom p')
    = Layered.customUrls (Layered.custom Sample.annotated)
  ∧ Layered.repoEnabled (Layered.custom p')
    = Layered.repoEnabled (Layered.custom Sample.annotated)
  ∧ Layered.repoDescriptions (Layered.custom p')
    = Layered.repoDescriptions (Layered.custom Sample.annotated)
  ∧ p' = Layered.importCustomData MiniJson.parse
           (MiniJson.text "{'repoClasses': {'octo/site': 'lib'}}") Sample.annotated.
Proof.
  intros data p'.
  set (o := {["repoClasses" := Js.Obj {["octo/site" := Js.Str "lib"]}]}
              : gmap string Js.value).
  set (parsed := Js.Obj (<["classes" := Js.Null]> (<["customUrls" := Js.Num 0]>
                   (<["repoEnabled" := Js.Bool false]>
                   (<["repoDescriptions" := Js.Str EmptyString]> o))))).
  assert (Hparse : MiniJson.parse data = Some parsed) by (vm_compute; reflexivity).
  destruct (import_skips_absent_and_falsy_keys MiniJson.parse data parsed
              Sample.annotated Hparse) as (H1 & _ & H3 & H4 & H5 & _).
  split; [apply H1; reflexivity|].
  split; [apply H3; reflexivity|].
  split; [apply H4; reflexivity|].
  split; [apply H5; reflexivity|].
  vm_compute. reflexivity.
Defined.

Lemma import_export_round_trip_witness :
  let text := Layered.exportCustomData MiniJson.stringify Sample.annotated in
  let p' := Layered.importCustomData MiniJson.parse text
              (Layered.initial Sample.no_store) in
  Layered.classes (Layered.custom p') = Js.Arr [Js.Str "lib"; Js.Str "app"]
  ∧ Layered.custom p' = Layered.of_annotations Sample.annotations.
Proof.
  intros text p'.
  destruct (import_export_round_trip MiniJson.parse MiniJson.stringify
              Sample.annotations Sample.annotated
              (Layered.initial Sample.no_store)
              (λ v, parse_stringify v 2) eq_refl)
    as (H1 & _ & _ & _ & _ & H6).
  split; [exact H1 | exact H6].
Defined.


Lemma map_to_list_enumerates : Flat.enumerates map_to_list.
Proof. intros m. reflexivity. Qed.


(** * Further properties *)


(** ** The counts next to the filter options *)

Section Tallies.
Import Aggregates.

Lemma held_proto n : held "__proto__" n = None.
Proof. by destruct n. Qed.

(** What a run of a reducer holds under each key. *)
Lemma tally_entries {A} (key : A → string) (l : list A) (k : string) :
  foldl (λ acc r, bump (key r) acc) ∅ l !! k
  = held k (length (List.filter (λ r, String.eqb (key r) k) l)).
Proof.
  revert k. induction l as [|r l IH] using rev_ind; intros k.
  - simpl. apply lookup_empty.
  - rewrite foldl_snoc, List.filter_app, length_app.
    set (acc := foldl (λ acc r, bump (key r) acc) ∅ l) in *.
    set (n := length (List.filter (λ r0, String.eqb (key r0) (key r)) l)).
    assert (Hown : acc !! key r = held (key r) n) by apply IH.
    assert (Hbump : bump (key r) acc
              = match held (key r) (S n) with
                | Some e => <[key r := e]> acc
                | None => acc
                end).
    { unfold bump, store, shown, Proto.get. rewrite Hown.
      unfold held. destruct (Proto.inherited (key r)) eqn:Hinh.
      - destruct (String.eqb (key r) "__proto__") eqn:Hproto.
        + by destruct n.
        + destruct n as [|n']; simpl; [reflexivity|].
          rewrite <- replicate_cons_app. reflexivity.
      - destruct (String.eqb_spec (key r) "__proto__") as [Hproto|_];
          [by rewrite Hproto in Hinh|].
        destruct n as [|n']; simpl; [reflexivity|].
        rewrite Nat.add_1_r. reflexivity. }
    rewrite Hbump. simpl List.filter.
    destruct (String.eqb_spec (key r) k) as [<-|Hne].
    + simpl length. fold n. rewrite Nat.add_1_r.
      destruct (held (key r) (S n)) as [e|] eqn:Hheld.
      * by rewrite lookup_insert_eq.
      * rewrite Hown. unfold held in *.
        destruct (Proto.inherited (key r)); [|done].
        destruct (String.eqb (key r) "__proto__"); [by destruct n|done].
    + simpl length. rewrite Nat.add_0_r.
      destruct (held (key r) (S n)) as [e|].
      * rewrite lookup_insert_ne by done. apply IH.
      * apply IH.
Qed.

(** What it shows next to an option. *)
Lemma tally_shown {A} (key : A → string) (l : list A) (k : string) :
  shown (foldl (λ acc r, bump (key r) acc) ∅ l) k
  = let n := length (List.filter (λ r, String.eqb (key r) k) l) in
    if Proto.inherited k then garbled k n else Count n.
Proof.
  unfold shown, Proto.get, garbled. rewrite tally_entries.
  set (n := length _). simpl. unfold held.
  destruct (Proto.inherited k) eqn:Hinh; destruct n as [|n']; try done.
  by destruct (String.eqb k "__proto__").
Qed.

Lemma total_insert (k : string) (e : tally) (acc : gmap string tally) :
  total (<[k := e]> acc) + number (default (Count 0) (acc !! k))
  = total acc + number e.
Proof.
  unfold total.
  assert (Hcomm : ∀ (m : gmap string tally) (j1 j2 : string) (z1 z2 : tally)
                    (y : nat),
            j1 ≠ j2 → m !! j1 = Some z1 → m !! j2 = Some z2 →
            number z1 + (number z2 + y) = number z2 + (number z1 + y))
    by (intros; lia).
  destruct (acc !! k) as [old|] eqn:Hk.
  - rewrite <- (insert_delete_eq acc k e).
    rewrite map_fold_insert_L; [|apply Hcomm | apply lookup_delete_eq].
    rewrite (map_fold_delete_L _ _ k old acc); [simpl; lia | apply Hcomm | done].
  - rewrite map_fold_insert_L; [simpl; lia | apply Hcomm | done].
Qed.

(** A tally counts the items whose key is no inherited name. *)
Lemma total_tally {A} (key : A → string) (l : list A) :
  total (foldl (λ acc r, bump (key r) acc) ∅ l)
  = length (List.filter (λ r, negb (Proto.inherited (key r))) l).
Proof.
  induction l as [|r l IH] using rev_ind.
  - simpl. unfold total. apply map_fold_empty.
  - rewrite foldl_snoc, List.filter_app, length_app, <- IH.
    pose proof (tally_entries key l (key r)) as Hown.
    set (acc := foldl (λ acc r, bump (key r) acc) ∅ l) in *.
    set (n := length (List.filter (λ r0, String.eqb (key r0) (key r)) l)) in *.
    assert (Hins : ∀ e, total (<[key r := e]> acc)
                        + number (default (Count 0) (held (key r) n))
                        = total acc + number e)
      by (intros e; rewrite <- Hown; apply total_insert).
    unfold bump, store, shown, Proto.get. rewrite Hown. simpl List.filter.
    unfold held in *. destruct (Proto.inherited (key r)) eqn:Hinh; simpl.
    + destruct (String.eqb (key r) "__proto__") eqn:Hproto.
      * destruct n; lia.
      * destruct n as [|n']; simpl.
        -- specialize (Hins (Text [Source (key r); Digits 1])). simpl in Hins. lia.
        -- specialize (Hins (Text (Source (key r) :: Digits 1
                                     :: replicate n' (Digits 1) ++ [Digits 1]))).
           simpl in Hins. lia.
    + destruct (String.eqb_spec (key r) "__proto__") as [Hproto|_];
        [by rewrite Hproto in Hinh|].
      destruct n as [|n']; simpl.
      * specialize (Hins (Count 1)). simpl in Hins. lia.
      * specialize (Hins (Count (S (n' + 1)))). simpl in Hins. lia.
Qed.

Lemma length_filter_ext {A} (f g : A → bool) (l : list A) :
  (∀ x, f x = g x) → length (List.filter f l) = length (List.filter g l).
Proof.
  intros Hfg. induction l as [|x l IH]; simpl; [done|].
  rewrite Hfg. destruct (g x); simpl; lia.
Qed.

Lemma length_filter_split {A} (f g h : A → bool) (l : list A) :
  (∀ x, f x = g x || h x) → (∀ x, g x && h x = false) →
  length (List.filter f l) = length (List.filter g l) + length (List.filter h l).
Proof.
  intros Hf Hgh. induction l as [|x l IH]; simpl; [done|].
  rewrite Hf. specialize (Hgh x).
  destruct (g x), (h x); simpl in *; try discriminate; lia.
Qed.

Lemma length_filter_all {A} (f : A → bool) (l : list A) :
  (∀ x, f x = true) → length (List.filter f l) = length l.
Proof.
  intros Hf. induction l as [|x l IH]; simpl; [done|].
  rewrite Hf. simpl. by rewrite IH.
Qed.

Lemma length_filter_none {A} (f : A → bool) (l : list A) :
  (∀ x, f x = false) → length (List.filter f l) = 0.
Proof.
  intros Hf. induction l as [|x l IH]; simpl; [done|]. by rewrite Hf.
Qed.

Lemma getType_not_inherited r : Proto.inherited (View.getType r) = false.
Proof. unfold View.getType. by destruct (fork r), (private r). Qed.

(** The value next to every type option is the number of rows that the
    type filter keeps for that option; an option named like a property of
    [Object.prototype] would show the built-in. *)
Theorem type_option_count_is_filtered (repos : list Repo) (type : string) :
  type_option_count repos type
  = if Proto.inherited type then Native type
    else Count (length (View.filtered_rows (λ r, View.type_filterFn r type) repos)).
Proof.
  unfold type_option_count, sourceCount. unfold typeCounts, View.filtered_rows.
  rewrite !tally_shown. simpl.
  destruct (String.eqb type "Sources") eqn:Hs.
  - apply String.eqb_eq in Hs as ->. simpl. f_equal. symmetry.
    apply (length_filter_split (λ r, View.type_filterFn r "Sources")).
    + intros r. unfold View.type_filterFn. reflexivity.
    + intros r. unfold View.getType. by destruct (fork r), (private r).
  - destruct (Proto.inherited type) eqn:Hinh.
    + rewrite length_filter_none; [done|]. intros r.
      apply String.eqb_neq. intros Heq.
      by rewrite <- Heq, getType_not_inherited in Hinh.
    + f_equal. apply length_filter_ext. intros r. unfold View.type_filterFn.
      by rewrite Hs.
Qed.

(** The value next to a class option and the rows of the class filter:
    their number, but a text that starts with the built-in for a label
    that is a property name of [Object.prototype]; the number under the
    option for rows without a label also counts the rows labelled
    with the text of the option. *)
Theorem class_count_and_filter (repoClasses : gmap string string)
    (repos : list Repo) :
  (∀ cls, cls ≠ EmptyString → cls ≠ "(none)" →
     shown (classCounts repoClasses repos) cls
     = let n := length (List.filter
                          (λ r, View.class_filterFn repoClasses r cls) repos) in
       if Proto.inherited cls then garbled cls n else Count n)
  ∧ shown (classCounts repoClasses repos) "(none)"
    = Count
        (length (List.filter (λ r, View.class_filterFn repoClasses r "(none)") repos)
         + length (List.filter
                     (λ r, String.eqb (View.class_accessorFn repoClasses r) "(none)")
                     repos)).
Proof.
  unfold classCounts. split.
  - intros cls Hne Hnone. rewrite tally_shown. simpl.
    assert (Hlen : length (List.filter
                     (λ r, String.eqb (or_str (repoClasses !! repoKey r) "(none)") cls)
                     repos)
                   = length (List.filter
                       (λ r, View.class_filterFn repoClasses r cls) repos)).
    { apply length_filter_ext. intros r.
      assert (E1 : String.eqb cls "(none)" = false) by (by apply String.eqb_neq).
      assert (E2 : String.eqb "(none)" cls = false)
        by (apply String.eqb_neq; congruence).
      assert (E3 : String.eqb EmptyString cls = false)
        by (apply String.eqb_neq; congruence).
      unfold View.class_filterFn. rewrite E1.
      destruct (repoClasses !! repoKey r) as [[|c s]|];
        cbv [or_str truthy_str nullish]; rewrite ?E2, ?E3; reflexivity. }
    by rewrite Hlen.
  - rewrite tally_shown. simpl. f_equal.
    apply length_filter_split.
    + intros r. unfold View.class_filterFn, View.class_accessorFn.
      destruct (repoClasses !! repoKey r) as [[|c s]|];
        cbv [or_str truthy_str nullish]; reflexivity.
    + intros r. unfold View.class_filterFn, View.class_accessorFn.
      destruct (repoClasses !! repoKey r) as [[|c s]|];
        cbv [nullish]; reflexivity.
Qed.

(** The value next to a language option and the rows of the language
    filter: their number, but a text that starts with the built-in for a
    language named like a property of [Object.prototype]; the rows without
    a language are counted under the text [(none)], which no filter value
    selects. *)
Theorem language_count_and_filter (repos : list Repo) :
  (∀ lang, lang ≠ "(none)" →
     shown (languageCounts repos) lang
     = let n := length (List.filter (λ r, language_filterFn r lang) repos) in
       if Proto.inherited lang then garbled lang n else Count n)
  ∧ shown (languageCounts repos) "(none)"
    = Count
        (length (List.filter (λ r, bool_decide (language r = None)) repos)
         + length (List.filter (λ r, language_filterFn r "(none)") repos))
  ∧ (∀ r filterValue, language r = None → language_filterFn r filterValue = false).
Proof.
  unfold languageCounts. split; [|split].
  - intros lang Hne. rewrite tally_shown. simpl.
    assert (Hlen : length (List.filter
                     (λ r, String.eqb (nullish (language r) "(none)") lang) repos)
                   = length (List.filter (λ r, language_filterFn r lang) repos)).
    { apply length_filter_ext. intros r. unfold language_filterFn, nullish.
      destruct (language r) as [l|]; [done|].
      apply String.eqb_neq. congruence. }
    by rewrite Hlen.
  - rewrite tally_shown. simpl. f_equal.
    apply length_filter_split.
    + intros r. unfold language_filterFn, nullish.
      destruct (language r) as [l|]; reflexivity.
    + intros r. unfold language_filterFn.
      destruct (language r) as [l|]; reflexivity.
  - intros r fv Hr. unfold language_filterFn. by rewrite Hr.
Qed.

(** Every tally counts every repository once, except those whose key is a
    property name of [Object.prototype]: its numbers add up to the number
    of the other repositories, to all of them for the type tally, whose
    keys are the three type labels. *)
Theorem tallies_add_up (repoClasses : gmap string string) (repos : list Repo) :
  total (languageCounts repos)
  = length (List.filter
              (λ r, negb (Proto.inherited (nullish (language r) "(none)"))) repos)
  ∧ total (typeCounts repos) = length repos
  ∧ total (ownerCounts repos)
    = length (List.filter (λ r, negb (Proto.inherited (owner r))) repos)
  ∧ total (classCounts repoClasses repos)
    = length (List.filter
                (λ r, negb (Proto.inherited
                              (or_str (repoClasses !! repoKey r) "(none)"))) repos)
  ∧ plus (sourceCount repos) (shown (typeCounts repos) "Fork")
    = Count (length repos).
Proof.
  unfold sourceCount. unfold languageCounts, typeCounts, ownerCounts, classCounts.
  rewrite !total_tally, !tally_shown. simpl.
  repeat split; try done.
  - apply length_filter_all. intros r. by rewrite getType_not_inherited.
  - f_equal. apply type_counts_total.
Qed.

End Tallies.

Lemma class_count_and_filter_witness :
  Aggregates.shown (Aggregates.classCounts Cases.labelled Sample.four) "app"
  = Aggregates.Count 1
  ∧ length (List.filter (λ r, View.class_filterFn Cases.labelled r "app") Sample.four)
    = 1
  ∧ Aggregates.shown (Aggregates.classCounts Cases.labelled Sample.four) "constructor"
    = Aggregates.Text [Aggregates.Source "constructor"; Aggregates.Digits 1]
  ∧ Aggregates.shown (Aggregates.classCounts Cases.labelled Sample.four) "(none)"
    = Aggregates.Count 2.
Proof.
  destruct (class_count_and_filter Cases.labelled Sample.four) as [Hcls Hnone].
  split; [|split; [|split]].
  - rewrite (Hcls "app"); [reflexivity | discriminate | discriminate].
  - reflexivity.
  - rewrite (Hcls "constructor"); [reflexivity | discriminate | discriminate].
  - rewrite Hnone. reflexivity.
Defined.

Lemma language_count_and_filter_witness :
  Aggregates.shown (Aggregates.languageCounts Cases.polyglot) "Rust"
  = Aggregates.Count 2
  ∧ length (List.filter (λ r, Aggregates.language_filterFn r "Rust") Cases.polyglot)
    = 2
  ∧ Aggregates.shown (Aggregates.languageCounts Cases.polyglot) "constructor"
    = Aggregates.Text [Aggregates.Source "constructor"; Aggregates.Digits 1]
  ∧ Aggregates.shown (Aggregates.languageCounts Cases.polyglot) "(none)"
    = Aggregates.Count 1
  ∧ length (List.filter (λ r, Aggregates.language_filterFn r "(none)") Cases.polyglot)
    = 0.
Proof.
  destruct (language_count_and_filter Cases.polyglot) as (Hlang & Hnone & _).
  split; [|split; [|split; [|split]]].
  - rewrite (Hlang "Rust"); [reflexivity | discriminate].
  - reflexivity.
  - rewrite (Hlang "constructor"); [reflexivity | discriminate].
  - rewrite Hnone. reflexivity.
  - reflexivity.
Defined.

(** ** The editing handlers *)

Section Editing.
Import Js Layered Editor.

Lemma elem_of_filter_neq (cls c : string) (l : list string) :
  c ∈ List.filter (λ c, negb (String.eqb c cls)) l ↔ c ∈ l ∧ c ≠ cls.
Proof.
  rewrite !list_elem_of_In, filter_In, negb_true_iff, String.eqb_neq. done.
Qed.

Lemma NoDup_filter_neq (cls : string) (l : list string) :
  NoDup l → NoDup (List.filter (λ c, negb (String.eqb c cls)) l).
Proof.
  induction 1 as [|c l Hc _ IH]; simpl; [constructor|].
  destruct (negb (String.eqb c cls)); [|done].
  constructor; [|done]. rewrite elem_of_filter_neq. tauto.
Qed.

Lemma filter_neq_fresh (cls : string) (l : list string) :
  cls ∉ l → List.filter (λ c, negb (String.eqb c cls)) l = l.
Proof.
  induction l as [|c l IH]; intros Hfresh; simpl; [done|].
  apply not_elem_of_cons in Hfresh as [Hne Hfresh].
  assert (String.eqb c cls = false) as -> by (apply String.eqb_neq; congruence).
  simpl. by rewrite IH.
Qed.

Lemma settle_keeps (P : State → Prop) (c : completion State) (st : State) :
  P st → (∀ st', c = Normal st' → P st') → P (settle c st).
Proof. intros Hst Hc. destruct c; simpl; eauto. Qed.

(** Every handler that changes a variable stores the bundle, one that
    throws changes nothing; the class list stays free of repetitions. *)
Lemma handle_keeps (e : event) (st st' : State) :
  NoDup (a_classes (annotations st)) →
  in_step st →
  handle e st = Some st' →
  NoDup (a_classes (annotations st')) ∧ in_step st'.
Proof.
  intros Hnd Hstep Hrun. unfold in_step in *.
  destruct e as [nm | cls | row | repoName i value | repoName i | repoName value
                 | row value | row | row v];
    simpl in Hrun.
  4: { unfold edit_url in Hrun.
       destruct (repoCustomUrls st repoName) as [urls|b].
       - destruct (i <? length urls); [|done]. inversion Hrun; subst. done.
       - inversion Hrun; subst. done. }
  all: inversion Hrun; subst; clear Hrun.
  - unfold add_class. destruct (truthy_str nm); [|done].
    case_bool_decide as Hin; [done|]. simpl. split; [|done].
    apply NoDup_app. split; [done|]. split; [|apply NoDup_singleton].
    intros x Hx Hx'. apply list_elem_of_singleton in Hx' as ->. done.
  - simpl. split; [by apply NoDup_filter_neq | done].
  - done.
  - apply (settle_keeps (λ s, NoDup (a_classes (annotations s))
                              ∧ repomgr_custom s = Some (annotations s)));
      [done|].
    unfold remove_url. intros st' Hst'.
    destruct (repoCustomUrls st repoName); inversion Hst'; subst. done.
  - apply (settle_keeps (λ s, NoDup (a_classes (annotations s))
                              ∧ repomgr_custom s = Some (annotations s)));
      [done|].
    unfold add_url. intros st' Hst'. destruct (truthy_str value).
    + destruct (repoCustomUrls st repoName); inversion Hst'; subst. done.
    + inversion Hst'; subst. done.
  - done.
  - done.
  - done.
Qed.

(** Whatever the sequence of edits, the class list stays free of
    repetitions and the stored bundle is the bundle in memory. *)
Theorem edits_keep_store_in_step (es : list event) (st st' : State) :
  NoDup (a_classes (annotations st)) →
  in_step st →
  handle_all es st = Some st' →
  NoDup (a_classes (annotations st')) ∧ in_step st'.
Proof.
  revert st. induction es as [|e es IH]; intros st Hnd Hstep Hrun; simpl in Hrun.
  - inversion Hrun; subst. done.
  - destruct (handle e st) as [st1|] eqn:He; [|done].
    destruct (handle_keeps e st st1 Hnd Hstep He) as [Hnd1 Hstep1].
    by apply (IH st1).
Qed.

(** Adding a class puts it into the list once; deleting it removes it;
    deleting a class that was just added gives back the list. *)
Theorem add_then_delete_class (name : string) (st : State) :
  truthy_str name = true →
  NoDup (a_classes (annotations st)) →
  name ∈ a_classes (annotations (add_class name st))
  ∧ NoDup (a_classes (annotations (add_class name st)))
  ∧ (name ∉ a_classes (annotations (delete_class name (add_class name st))))
  ∧ ((name ∉ a_classes (annotations st)) →
     a_classes (annotations (delete_class name (add_class name st)))
     = a_classes (annotations st)).
Proof.
  intros Hname Hnd. unfold add_class. rewrite Hname.
  case_bool_decide as Hin; simpl.
  - split; [done|]. split; [done|]. split; [|done].
    rewrite elem_of_filter_neq. tauto.
  - split; [apply elem_of_app; right; by apply list_elem_of_singleton|].
    split.
    { apply NoDup_app. split; [done|]. split; [|apply NoDup_singleton].
      intros x Hx Hx'. apply list_elem_of_singleton in Hx' as ->. done. }
    split; [rewrite elem_of_filter_neq; tauto|].
    intros _. rewrite List.filter_app, filter_neq_fresh by done. simpl.
    rewrite String.eqb_refl. simpl. apply app_nil_r.
Qed.

(** What a click on the enabled cell does to the check boxes. *)
Lemma toggle_accessor (row row' : Repo) (st : State) :
  enabled_accessorFn (a_repoEnabled (annotations (toggle_enabled row st))) row'
  = if bool_decide (repoKey row' = repoKey row)
    then negb (enabled_accessorFn (a_repoEnabled (annotations st)) row')
    else enabled_accessorFn (a_repoEnabled (annotations st)) row'.
Proof.
  unfold enabled_accessorFn. simpl. case_bool_decide as Hk.
  - rewrite Hk, lookup_insert_eq. reflexivity.
  - rewrite lookup_insert_ne by congruence. reflexivity.
Qed.

Lemma export_ext tofuUrls (a a' : Annotations) (repos : list Repo) :
  a_customUrls a' = a_customUrls a →
  a_repoClasses a' = a_repoClasses a →
  a_repoDescriptions a' = a_repoDescriptions a →
  (∀ r, nullish (a_repoEnabled a' !! repoKey r) false
        = nullish (a_repoEnabled a !! repoKey r) false) →
  exportEnabledProjectData tofuUrls a' repos
  = exportEnabledProjectData tofuUrls a repos.
Proof.
  intros Hu Hc Hd He. unfold exportEnabledProjectData.
  rewrite Hu, (filter_ext_eq _ _ repos He).
  destruct (List.filter _ repos) as [|r l]; [done|].
  destruct (View.combinedUrls tofuUrls (a_customUrls a)) as [c| |]; [|done..].
  f_equal. apply list_fmap_ext. intros _ r' _. unfold project. by rewrite Hc, Hd.
Qed.

(** A click on the enabled cell flips the check box of the rows with that
    repo key and of no other row; a second click gives back every check
    box and the exported list, though the map may have gained an entry. *)
Theorem toggle_enabled_twice (row : Repo) (st : State)
    (tofuUrls : gmap string string) (repos : list Repo) :
  (∀ row',
     enabled_accessorFn (a_repoEnabled (annotations (toggle_enabled row st))) row'
     = if bool_decide (repoKey row' = repoKey row)
       then negb (enabled_accessorFn (a_repoEnabled (annotations st)) row')
       else enabled_accessorFn (a_repoEnabled (annotations st)) row')
  ∧ (∀ row',
       enabled_accessorFn
         (a_repoEnabled (annotations (toggle_enabled row (toggle_enabled row st))))
         row'
       = enabled_accessorFn (a_repoEnabled (annotations st)) row')
  ∧ exportEnabledProjectData tofuUrls
      (annotations (toggle_enabled row (toggle_enabled row st))) repos
    = exportEnabledProjectData tofuUrls (annotations st) repos
  ∧ a_repoEnabled (annotations (toggle_enabled row (toggle_enabled row st)))
      !! repoKey row
    = Some (enabled_accessorFn (a_repoEnabled (annotations st)) row).
Proof.
  assert (Htwice : ∀ row',
    enabled_accessorFn
      (a_repoEnabled (annotations (toggle_enabled row (toggle_enabled row st)))) row'
    = enabled_accessorFn (a_repoEnabled (annotations st)) row').
  { intros row'. rewrite !toggle_accessor.
    case_bool_decide; [apply negb_involutive | done]. }
  split; [intros; apply toggle_accessor|]. split; [exact Htwice|]. split.
  - apply export_ext; try reflexivity. intros r. apply Htwice.
  - simpl. rewrite lookup_insert_eq, lookup_insert_eq. simpl.
    unfold enabled_accessorFn. by rewrite negb_involutive.
Qed.

(** A new custom URL goes to the end of the list shown for the rows with
    that bare name, whoever owns them, and leaves the other rows alone,
    when the keys of the two layers are no property names of
    [Object.prototype]; under such a name the handler throws and changes
    nothing. *)
Theorem add_url_shows_last (tofuUrls : gmap string string) (repoName value : string)
    (st : State) (row : Repo) :
  truthy_str value = true →
  Proto.plain tofuUrls →
  Proto.plain (a_customUrls (annotations st)) →
  (Proto.inherited repoName = false →
   ∃ st',
     add_url repoName value st = Normal st'
     ∧ View.row_urls tofuUrls (a_customUrls (annotations st')) row
       = match View.row_urls tofuUrls (a_customUrls (annotations st)) row with
         | Normal (Proto.Own urls) =>
             Normal (Proto.Own (if bool_decide (name row = repoName)
                                then urls ++ [value] else urls))
         | other => other
         end
     ∧ ∃ urls, View.row_urls tofuUrls (a_customUrls (annotations st)) row
               = Normal urls)
  ∧ (Proto.inherited repoName = true →
     add_url repoName value st = Thrown
     ∧ handle (AddUrl repoName value) st = Some st).
Proof.
  intros Hv Ht Hc. split.
  - intros Hname. unfold add_url, repoCustomUrls. rewrite Hv, get_plain by done.
    set (urls := nullish (a_customUrls (annotations st) !! repoName) []).
    assert (Hread : nullish (Proto.Own <$> a_customUrls (annotations st) !! repoName)
                      (Proto.Own []) = Proto.Own urls)
      by (subst urls; by destruct (a_customUrls (annotations st) !! repoName)).
    rewrite Hread. eexists. split; [reflexivity|]. simpl.
    rewrite !row_urls_plain by (done || by apply plain_insert).
    split; [|eauto].
    destruct (Proto.inherited (name row)) eqn:Hrow; [done|].
    case_bool_decide as Hn.
    + rewrite Hn, lookup_insert_eq. simpl. subst urls.
      by rewrite app_assoc.
    + rewrite lookup_insert_ne by congruence. reflexivity.
  - intros Hname.
    assert (Hthrown : add_url repoName value st = Thrown).
    { unfold add_url, repoCustomUrls. rewrite Hv.
      by rewrite get_builtin by (done || by apply Hc). }
    split; [exact Hthrown|]. simpl. by rewrite Hthrown.
Qed.

(** Removing the URL that was just added gives back the list shown for
    every row, when the keys of the two layers and the bare name are no
    property names of [Object.prototype]. *)
Theorem remove_added_url (tofuUrls : gmap string string) (repoName value : string)
    (st : State) (row : Repo) :
  truthy_str value = true →
  Proto.plain tofuUrls →
  Proto.plain (a_customUrls (annotations st)) →
  Proto.inherited repoName = false →
  let urls := nullish (a_customUrls (annotations st) !! repoName) [] in
  ∃ st1 st2,
    add_url repoName value st = Normal st1
    ∧ remove_url repoName (length urls) st1 = Normal st2
    ∧ a_customUrls (annotations st2) !! repoName = Some urls
    ∧ View.row_urls tofuUrls (a_customUrls (annotations st2)) row
      = View.row_urls tofuUrls (a_customUrls (annotations st)) row.
Proof.
  intros Hv Ht Hc Hname urls.
  assert (Hread : ∀ st0, repoCustomUrls st0 repoName
            = Proto.Own (nullish (a_customUrls (annotations st0) !! repoName) [])).
  { intros st0. unfold repoCustomUrls. rewrite get_plain by done.
    by destruct (a_customUrls (annotations st0) !! repoName). }
  unfold add_url, remove_url. rewrite Hv, Hread. fold urls.
  eexists. eexists. split; [reflexivity|]. rewrite Hread. simpl.
  rewrite lookup_insert_eq. simpl.
  assert (Hdel : delete (length urls) (urls ++ [value]) = urls).
  { rewrite delete_middle. apply app_nil_r. }
  rewrite Hdel. split; [reflexivity|]. simpl.
  split; [by rewrite lookup_insert_eq|].
  rewrite !row_urls_plain
    by (done || (repeat (apply plain_insert; [|done]); done)).
  destruct (Proto.inherited (name row)) eqn:Hrow; [done|].
  destruct (decide (name row = repoName)) as [Hn|Hn].
  - rewrite Hn, lookup_insert_eq. reflexivity.
  - rewrite lookup_insert_ne by congruence.
    rewrite lookup_insert_ne by congruence. reflexivity.
Qed.

(** Typing into the text area shows the text, unless it is empty; an
    empty text and "Clear Override" both show the remote description, and
    the rows with other keys keep theirs. *)
Theorem description_edit_and_clear (row row' : Repo) (value : string) (st : State) :
  View.description_accessorFn
    (a_repoDescriptions (annotations (edit_description row value st))) row'
  = (if bool_decide (repoKey row' = repoKey row)
     then or_str (Some value) (or_str (description row') EmptyString)
     else View.description_accessorFn (a_repoDescriptions (annotations st)) row')
  ∧ View.description_accessorFn
      (a_repoDescriptions (annotations (clear_description row st))) row'
    = View.description_accessorFn
        (a_repoDescriptions (annotations (edit_description row EmptyString st))) row'
  ∧ View.description_accessorFn
      (a_repoDescriptions (annotations (clear_description row st))) row
    = or_str (description row) EmptyString.
Proof.
  unfold View.description_accessorFn. simpl. split; [|split].
  - case_bool_decide as Hk.
    + by rewrite Hk, lookup_insert_eq.
    + by rewrite lookup_insert_ne by congruence.
  - destruct (decide (repoKey row' = repoKey row)) as [Hk|Hk].
    + by rewrite Hk, lookup_delete_eq, lookup_insert_eq.
    + by rewrite lookup_delete_ne, lookup_insert_ne by congruence.
  - by rewrite lookup_delete_eq.
Qed.

End Editing.

(** ** Repeated and partial imports *)

Section Reimport.
Import Layered.

Variable JSON_parse : string → option value.

Lemma pick_pick o k old : pick o k (pick o k old) = pick o k old.
Proof. unfold pick. destruct (o !! k) as [v|]; [|done]. by destruct (truthy v). Qed.

Lemma imported_imported o c : imported o (imported o c) = imported o c.
Proof. unfold imported. simpl. by rewrite !pick_pick. Qed.

Lemma pick_commute o1 o2 k old :
  truthy_opt (o1 !! k) && truthy_opt (o2 !! k) = false →
  pick o2 k (pick o1 k old) = pick o1 k (pick o2 k old).
Proof.
  unfold pick, truthy_opt.
  destruct (o1 !! k) as [v1|], (o2 !! k) as [v2|]; try done.
  destruct (truthy v1), (truthy v2); done.
Qed.

(** Importing the same text a second time changes nothing more. *)
Theorem import_twice_is_import_once (data : string) (p : Page) :
  importCustomData JSON_parse data (importCustomData JSON_parse data p)
  = importCustomData JSON_parse data p.
Proof.
  destruct (JSON_parse data) as [parsed|] eqn:Hparse.
  - destruct parsed as [| b | n | s | l | o].
    1: by rewrite !importCustomData_null.
    5: { rewrite !(importCustomData_object _ _ o) by done.
         unfold persistCustom, set_custom, set_localStorage. simpl.
         by rewrite imported_imported. }
    all: rewrite !(importCustomData_other _ _ _ _ Hparse) by done; reflexivity.
  - by rewrite !importCustomData_syntax_error.
Qed.

(** Two imports that do not carry a truthy value for the same variable
    give the same variables and the same store in either order. *)
Theorem partial_imports_commute (data1 data2 : string)
    (o1 o2 : gmap string value) (p : Page) :
  JSON_parse data1 = Some (Obj o1) →
  JSON_parse data2 = Some (Obj o2) →
  (∀ k, truthy_opt (o1 !! k) && truthy_opt (o2 !! k) = false) →
  importCustomData JSON_parse data2 (importCustomData JSON_parse data1 p)
  = importCustomData JSON_parse data1 (importCustomData JSON_parse data2 p).
Proof.
  intros H1 H2 Hdisj.
  rewrite (importCustomData_object JSON_parse data1 o1 p H1).
  rewrite (importCustomData_object JSON_parse data2 o2 _ H2).
  rewrite (importCustomData_object JSON_parse data2 o2 p H2).
  rewrite (importCustomData_object JSON_parse data1 o1 _ H1).
  unfold persistCustom, set_custom, set_localStorage, imported. simpl.
  rewrite !(pick_commute o1 o2) by apply Hdisj. reflexivity.
Qed.

Lemma importTofuOutput_nothing data p :
  (JSON_parse data = None
   ∨ ∃ parsed v, JSON_parse data = Some parsed
                 ∧ (pages_urls_value parsed = Thrown
                    ∨ pages_urls_value parsed = Normal v ∧ truthy_opt v = false)) →
  importTofuOutput JSON_parse data p = p.
Proof.
  unfold importTofuOutput, importTofuOutput_try, bind, parsing, lift.
  intros [Hparse|(parsed & v & Hparse & [Hv | [Hv Hfalsy]])];
    rewrite Hparse; simpl; [done | by rewrite Hv |].
  rewrite Hv. unfold if_truthy. destruct v as [x|]; [|done].
  simpl in Hfalsy. by rewrite Hfalsy.
Qed.

(** Tofu output replaces the tofu layer as a whole and stores it; the
    other variables and the four other keys of the store stay; a text
    without a truthy [pages_urls.value] changes nothing. *)
Theorem tofu_output_replaces_layer (data : string) (parsed : value)
    (v : option value) (p : Page) :
  JSON_parse data = Some parsed →
  pages_urls_value parsed = Normal v →
  let p' := importTofuOutput JSON_parse data p in
  match v with
  | Some new =>
      if truthy new then
        tofuUrls p' = new
        ∧ repomgr_tofu_urls (localStorage p') = Some new
        ∧ custom p' = custom p ∧ repos p' = repos p
        ∧ token p' = token p ∧ username p' = username p
        ∧ loading p' = loading p ∧ error p' = error p
        ∧ repomgr_custom (localStorage p') = repomgr_custom (localStorage p)
        ∧ repomgr_github (localStorage p') = repomgr_github (localStorage p)
        ∧ repomgr_token (localStorage p') = repomgr_token (localStorage p)
        ∧ repomgr_username (localStorage p') = repomgr_username (localStorage p)
      else p' = p
  | None => p' = p
  end.
Proof.
  intros Hparse Hv p'. subst p'.
  unfold importTofuOutput, importTofuOutput_try, bind, parsing, lift.
  rewrite Hparse. simpl. rewrite Hv. unfold if_truthy.
  destruct v as [new|]; [|done].
  destruct (truthy new); [|done]. simpl. done.
Qed.

End Reimport.

Section Reimport_flat.
Import Flat Formats.

Variable JSON_parse : string → option value.
Variable Object_entries : gmap string value → list (string * value).

Lemma stops_plain (m o : gmap string value) k v :
  Proto.plain m → m !! k = Some v → stops o k v = false.
Proof.
  intros Hm Hk. destruct (Proto.inherited k) eqn:Hinh.
  - by rewrite (Hm k Hinh) in Hk.
  - unfold stops. destruct v; try done. by rewrite Hinh, andb_false_r.
Qed.

Lemma merge_appended_empty (o : gmap string value) : merge appended o ∅ = o.
Proof.
  apply map_eq. intros k. rewrite lookup_merge, lookup_empty.
  by destruct (o !! k).
Qed.

Lemma arrays_appendable o : arrays o → appendable o.
Proof. intros H k e He _. by apply (H k). Qed.

Lemma arrays_migrated o : strings_or_arrays o → arrays (migrate_entry <$> o).
Proof.
  intros H k e He. rewrite lookup_fmap in He.
  destruct (o !! k) as [x|] eqn:Hx; [|done]. simpl in He. inversion He; subst.
  destruct (H k x Hx) as [[s ->]|[l ->]]; simpl; [|eauto].
  destruct (truthy_str s); eauto.
Qed.

Lemma arrays_appended o m : arrays o → arrays (merge appended o m).
Proof.
  intros H k e He. rewrite lookup_merge in He.
  destruct (o !! k) as [x|] eqn:Hx, (m !! k) as [y|] eqn:Hy; simpl in He;
    try done.
  - destruct (H k x Hx) as [l ->].
    destruct y; try (inversion He; subst; eauto; fail).
    destruct (truthy_str s); inversion He; subst; eauto.
  - inversion He; subst. by apply (H k).
  - destruct y; try done. destruct (truthy_str s); inversion He; subst; eauto.
Qed.

(** The run of [importClassData] on payloads of the present and older
    formats: [base] is the URL layer after the migration (or the layer
    kept), [m] the legacy entries. *)
Lemma importClassData_formats data payload p base m :
  enumerates Object_entries →
  JSON_parse data = Some (Obj payload) →
  (payload !! "repoUrls" = None ∧ repoUrls p = Obj base
   ∨ ∃ o1, payload !! "repoUrls" = Some (Obj o1) ∧ base = migrate_entry <$> o1) →
  ((∃ v, Layered.pages_urls_value (Obj payload) = Normal v
         ∧ truthy_opt v = false ∧ m = ∅)
   ∨ Layered.pages_urls_value (Obj payload) = Normal (Some (Obj m))
     ∧ appendable base ∧ Proto.plain m) →
  importClassData JSON_parse Object_entries data p
  = Some (persistClasses
            (set_repoUrls (Obj (merge appended base m))
               (simple_after payload (simple_before payload p)))).
Proof.
  intros Hentries Hparse Hu Hl. unfold importClassData.
  set (p1 := simple_before payload p).
  assert (Hstep : ∃ p2,
    if_truthy (payload !! "repoUrls")
      (λ x, let* u := lift (migrate x) in modify (set_repoUrls u)) p1
    = (p2, Normal tt)
    ∧ repoUrls p2 = Obj base
    ∧ set_repoUrls (Obj (merge appended base m)) (simple_after payload p2)
      = set_repoUrls (Obj (merge appended base m)) (simple_after payload p1)).
  { destruct Hu as [[Hnone Hp]|(o1 & Ho1 & ->)].
    - exists p1. rewrite Hnone. split; [done|]. split; [|done].
      subst p1. by rewrite repoUrls_simple_before.
    - exists (set_repoUrls (Obj (migrate_entry <$> o1)) p1). rewrite Ho1.
      split; [done|]. split; [done|].
      unfold simple_after, assign.
      destruct (payload !! "repoEnabled") as [x|]; [destruct (truthy x)|];
      destruct (payload !! "repoDescriptions") as [y|]; try destruct (truthy y);
      reflexivity. }
  destruct Hstep as (p2 & Hrun & Hbase & Hsame).
  rewrite (importClassData_try_object _ _ _ payload p p2 Hparse Hrun).
  assert (Hafter : repoUrls (simple_after payload p2) = Obj base)
    by (by rewrite repoUrls_simple_after).
  unfold bind at 1, lift at 1.
  destruct Hl as [(v & -> & Hv & ->)|(-> & Happ & Hplain)].
  - unfold if_truthy.
    assert (Hskip : (match v with
                     | Some v0 =>
                         if truthy v0 then append_all Object_entries v0 else ret tt
                     | None => ret tt
                     end) = (ret tt : M Page unit)).
    { destruct v as [x|]; [|done]. simpl in Hv. by rewrite Hv. }
    rewrite Hskip. simpl. rewrite <- Hsame, merge_appended_empty.
    rewrite <- Hafter, set_repoUrls_same. reflexivity.
  - unfold if_truthy. simpl truthy. cbv iota.
    rewrite (bind_normal _ _ _ _ tt
               (append_all_spec _ Hentries m _ base Hafter Happ
                  (λ k v, stops_plain m base k v Hplain))).
    simpl. by rewrite Hsame.
Qed.

(** On payloads of the present or the older formats, whose legacy names
    are no property names of [Object.prototype], the import runs to its
    end, leaves a URL layer in the present format and stores it. *)
Theorem import_keeps_present_format (data : string) (payload : gmap string value)
    (p : Page) (o : gmap string value) :
  enumerates Object_entries →
  JSON_parse data = Some (Obj payload) →
  repoUrls p = Obj o →
  arrays o →
  (payload !! "repoUrls" = None
   ∨ ∃ o1, payload !! "repoUrls" = Some (Obj o1) ∧ strings_or_arrays o1) →
  (payload !! "pages_urls" = None
   ∨ ∃ w m, payload !! "pages_urls" = Some (Obj w) ∧ w !! "value" = Some (Obj m)
            ∧ Proto.plain m) →
  ∃ p' o',
    importClassData JSON_parse Object_entries data p = Some p'
    ∧ repoUrls p' = Obj o'
    ∧ arrays o'
    ∧ repomgr_repo_urls (localStorage p') = Some (Obj o').
Proof.
  intros Hentries Hparse Hp Harr Hu Hl.
  set (base := match payload !! "repoUrls" with
               | Some (Obj o1) => migrate_entry <$> o1
               | _ => o
               end).
  assert (Hbase : arrays base).
  { subst base. destruct Hu as [->|(o1 & -> & Ho1)]; [done|].
    by apply arrays_migrated. }
  set (m := match payload !! "pages_urls" with
            | Some (Obj w) => match w !! "value" with
                              | Some (Obj m) => m
                              | _ => ∅
                              end
            | _ => ∅
            end).
  exists (persistClasses
            (set_repoUrls (Obj (merge appended base m))
               (simple_after payload (simple_before payload p)))),
         (merge appended base m).
  split; [|split; [done|split; [by apply arrays_appended | done]]].
  apply importClassData_formats; [done|done| |].
  - subst base. destruct Hu as [Hn|(o1 & Ho1 & _)].
    + left. by rewrite Hn.
    + right. exists o1. by rewrite Ho1.
  - subst m. destruct Hl as [Hn|(w & m' & Hw & Hm' & Hplain)].
    + left. exists None. rewrite Hn.
      by rewrite (pages_urls_value_absent _ Hn).
    + right. rewrite Hw, Hm'.
      split; [|split; [by apply arrays_appendable | done]].
      by rewrite (pages_urls_value_object _ _ Hw), Hm'.
Qed.

(** A legacy payload whose names are no property names of
    [Object.prototype], imported twice, appends its URLs twice. *)
Theorem legacy_import_twice_appends_twice (data : string)
    (payload w m o : gmap string value) (p : Page) :
  enumerates Object_entries →
  JSON_parse data = Some (Obj payload) →
  payload !! "repoUrls" = None →
  payload !! "pages_urls" = Some (Obj w) →
  w !! "value" = Some (Obj m) →
  Proto.plain m →
  repoUrls p = Obj o →
  arrays o →
  ∃ p1 p2 o2,
    importClassData JSON_parse Object_entries data p = Some p1
    ∧ importClassData JSON_parse Object_entries data p1 = Some p2
    ∧ repoUrls p2 = Obj o2
    ∧ (∀ name, o2 !! name = appended (appended (o !! name) (m !! name)) (m !! name))
    ∧ (∀ name u, m !! name = Some (Str u) → truthy_str u = true →
         o2 !! name
         = Some (Arr (match o !! name with
                      | Some (Arr l) => l
                      | _ => []
                      end ++ [Str u; Str u]))).
Proof.
  intros Hlist Hparse Hnone Hw Hm Hplain Hp Harr.
  assert (Hl : ∀ base, arrays base →
    (∃ v, Layered.pages_urls_value (Obj payload) = Normal v
          ∧ truthy_opt v = false ∧ m = ∅)
    ∨ Layered.pages_urls_value (Obj payload) = Normal (Some (Obj m))
      ∧ appendable base ∧ Proto.plain m).
  { intros base Hb. right. split; [|split; [by apply arrays_appendable | done]].
    by rewrite (pages_urls_value_object _ _ Hw), Hm. }
  set (p1 := persistClasses
               (set_repoUrls (Obj (merge appended o m))
                  (simple_after payload (simple_before payload p)))).
  assert (H1 : importClassData JSON_parse Object_entries data p = Some p1).
  { apply importClassData_formats; [done | done | by left | by apply Hl]. }
  assert (Hp1 : repoUrls p1 = Obj (merge appended o m)) by done.
  eexists p1, _, (merge appended (merge appended o m) m).
  split; [exact H1|]. split.
  { apply importClassData_formats; [done | done | by left |].
    apply Hl. by apply arrays_appended. }
  split; [done|].
  assert (Hentries : ∀ name,
    merge appended (merge appended o m) m !! name
    = appended (appended (o !! name) (m !! name)) (m !! name)).
  { intros name. rewrite !lookup_merge.
    destruct (o !! name) as [x|], (m !! name) as [y|]; try reflexivity.
    - unfold diag_None at 2. by destruct (appended (Some x) (Some y)).
    - unfold diag_None at 2. by destruct (appended None (Some y)). }
  split; [exact Hentries|].
  intros name u Hname Hu. rewrite Hentries, Hname. simpl. rewrite Hu.
  destruct (o !! name) as [x|] eqn:Hx.
  - destruct (Harr name x Hx) as [l ->]. by rewrite <- app_assoc.
  - reflexivity.
Qed.

(** A payload whose [repoUrls] is a bare non-empty string stops the
    import there: [classes] and [repoClasses] are already assigned, the
    other variables are not, and nothing is stored. *)
Theorem import_stops_at_bare_string (data : string) (payload : gmap string value)
    (c : ascii) (s : string) (p : Page) :
  JSON_parse data = Some (Obj payload) →
  payload !! "repoUrls" = Some (Str (String c s)) →
  ∃ p',
    importClassData JSON_parse Object_entries data p = Some p'
    ∧ classes p' = pick payload "classes" (classes p)
    ∧ repoClasses p' = pick payload "repoClasses" (repoClasses p)
    ∧ repoUrls p' = repoUrls p
    ∧ repoEnabled p' = repoEnabled p
    ∧ repoDescriptions p' = repoDescriptions p
    ∧ localStorage p' = localStorage p.
Proof.
  intros Hparse Hurls. exists (simple_before payload p).
  split.
  - unfold importClassData, importClassData_try, parsing. rewrite Hparse.
    unfold bind at 1, ret at 1.
    do 2 assignment.
    unfold bind at 1, lift at 1, member at 1.
    fold (simple_before payload p).
    rewrite Hurls. reflexivity.
  - unfold simple_before, assign, pick.
    destruct (payload !! "classes") as [x|]; [destruct (truthy x)|];
    destruct (payload !! "repoClasses") as [y|]; try destruct (truthy y);
    done.
Qed.

End Reimport_flat.

(** A text that is not JSON, or the text [null], changes nothing: not the
    variables, not the store, whichever import reads it. *)
Theorem imports_of_nothing (JSON_parse : string → option value)
    (Object_entries : gmap string value → list (string * value)) (data : string)
    (p : Layered.Page) (q : Flat.Page) :
  JSON_parse data = None ∨ JSON_parse data = Some Null →
  Layered.importCustomData JSON_parse data p = p
  ∧ Layered.importTofuOutput JSON_parse data p = p
  ∧ Flat.importClassData JSON_parse Object_entries data q = Some q.
Proof.
  intros H. split; [|split].
  - destruct H; [by apply importCustomData_syntax_error
                | by apply importCustomData_null].
  - apply importTofuOutput_nothing. destruct H as [H|H]; [by left|].
    right. exists Null, None. split; [done|]. by left.
  - unfold Flat.importClassData, Flat.importClassData_try, bind, parsing.
    destruct H as [->| ->]; reflexivity.
Qed.

(** ** Runs that stop before the last page *)

Section Stopped.
Import Server Runs.

Variable graphql : option string → Reply.

Lemma requested_cons c d ds :
  requested c (d :: ds) = c :: requested (endCursor d) ds.
Proof. reflexivity. Qed.

(** Along pages that announce a next page the loop goes on. *)
Lemma paginate_leads c ds c' :
  leads graphql c ds c' →
  ∀ fuel acc sent,
    paginate graphql (length ds + fuel) true c acc sent
    = paginate graphql fuel true c' (acc ++ concat (nodes <$> ds))
        (sent ++ requested c ds).
Proof.
  induction 1 as [c | c d ds c' Hok Herr Hdata Hnext _ IH]; intros fuel acc sent.
  - simpl. by rewrite !app_nil_r.
  - cbn [length Nat.add]. rewrite (paginate_turn _ _ _ d) by done.
    rewrite Hnext, IH, requested_cons. rewrite fmap_cons. simpl concat.
    by rewrite <- !app_assoc.
Qed.

(** Every finished run of the loop went along pages that announced a next
    page and made one last request, whose answer decides the response. *)
Lemma paginate_finished fuel :
  ∀ c acc sent r sent',
    paginate graphql fuel true c acc sent = Some (r, sent') →
    ∃ ds c',
      leads graphql c ds c'
      ∧ sent' = sent ++ requested c ds ++ [c']
      ∧ S (length ds) ≤ fuel
      ∧ match error r with
        | None =>
            response_status r = 200%Z
            ∧ ok (status (graphql c')) = true
            ∧ first_error (body (graphql c')) = None
            ∧ (∀ d, data (body (graphql c')) = Some d → hasNextPage d = false)
            ∧ repos r
              = to_repo <$> (acc ++ concat (nodes <$> ds)
                             ++ match data (body (graphql c')) with
                                | Some d => nodes d
                                | None => []
                                end)
        | Some message =>
            repos r = [] ∧ ok (response_status r) = false
            ∧ (ok (status (graphql c')) = false
               ∧ response_status r = status (graphql c')
               ∧ message = "GitHub API error: " +:+ pretty (status (graphql c'))
               ∨ ok (status (graphql c')) = true
                 ∧ first_error (body (graphql c')) = Some message
                 ∧ response_status r = 400%Z)
        end.
Proof.
  induction fuel as [|fuel IH]; intros c acc sent r sent' Hrun; [done|].
  simpl in Hrun.
  destruct (ok (status (graphql c))) eqn:Hok; simpl in Hrun.
  2: { inversion Hrun; subst. exists [], c. simpl.
       split; [constructor|]. split; [done|]. split; [lia|].
       split; [done|]. split; [done|]. left. done. }
  destruct (first_error (body (graphql c))) as [message|] eqn:Herr.
  { inversion Hrun; subst. exists [], c. simpl.
    split; [constructor|]. split; [done|]. split; [lia|].
    split; [done|]. split; [done|]. right. done. }
  destruct (data (body (graphql c))) as [d|] eqn:Hdata.
  2: { inversion Hrun; subst. exists [], c. simpl.
       split; [constructor|]. split; [done|]. split; [lia|].
       rewrite Hdata. repeat split; try done. by rewrite !app_nil_r. }
  destruct (hasNextPage d) eqn:Hnext.
  - destruct (IH _ _ _ _ _ Hrun) as (ds & c' & Hleads & Hsent & Hfuel & Hres).
    exists (d :: ds), c'. split; [by econstructor|].
    split; [by rewrite Hsent, requested_cons, <- !app_assoc|].
    split; [simpl; lia|].
    destruct (error r); [done|].
    destruct Hres as (Hst & Hok' & Herr' & Hlast & Hrepos).
    repeat split; try done. rewrite Hrepos, fmap_cons. simpl concat.
    by rewrite <- !app_assoc.
  - rewrite paginate_done in Hrun. inversion Hrun; subst.
    exists [], c. simpl. split; [constructor|]. split; [done|]. split; [lia|].
    rewrite Hdata. repeat split; try done. intros d' Hd'. by inversion Hd'; subst.
Qed.

(** Every finished run of the endpoint asked first without a cursor and
    then with the end cursor of each page in turn, at most [fuel] times,
    along pages that announced a next page, up to a last request. Either
    the last answer is a failure, and the response carries its error, no
    record and a failure status; or it is a success without a next page
    (or without data), and the response has status 200, no error and the
    nodes of all the pages, the last one included, in order. *)
Theorem POST_finished (fuel : nat) (token : string) (r : Response)
    (sent : list (option string)) :
  truthy_str token = true →
  POST graphql fuel token = Some (r, sent) →
  ∃ ds c',
    leads graphql None ds c'
    ∧ sent = requested None ds ++ [c']
    ∧ length sent ≤ fuel
    ∧ match error r with
      | None =>
          response_status r = 200%Z
          ∧ ok (status (graphql c')) = true
          ∧ first_error (body (graphql c')) = None
          ∧ (∀ d, data (body (graphql c')) = Some d → hasNextPage d = false)
          ∧ repos r
            = to_repo <$> (concat (nodes <$> ds)
                           ++ match data (body (graphql c')) with
                              | Some d => nodes d
                              | None => []
                              end)
      | Some message =>
          repos r = [] ∧ ok (response_status r) = false
          ∧ (ok (status (graphql c')) = false
             ∧ response_status r = status (graphql c')
             ∧ message = "GitHub API error: " +:+ pretty (status (graphql c'))
             ∨ ok (status (graphql c')) = true
               ∧ first_error (body (graphql c')) = Some message
               ∧ response_status r = 400%Z)
      end.
Proof.
  intros Htoken Hrun. unfold POST in Hrun. rewrite Htoken in Hrun. simpl in Hrun.
  destruct (paginate_finished _ _ _ _ _ _ Hrun)
    as (ds & c' & Hleads & Hsent & Hfuel & Hres).
  exists ds, c'. split; [done|]. split; [done|]. split; [|done].
  rewrite Hsent. simpl. rewrite length_app. unfold requested.
  rewrite length_take. simpl. rewrite length_fmap. lia.
Qed.

End Stopped.

Section Stopped_fetch.
Import Server Runs Layered.

Variable graphql : option string → Reply.
Variable rest : string → nat → nat → RestReply.

Lemma attempt_token fuel p :
  truthy_str (token p) = true →
  attempt graphql rest fuel (set_error EmptyString (set_loading true p))
  = via_server graphql fuel (token p).
Proof. intros Ht. unfold attempt. simpl. by rewrite Ht. Qed.

Lemma POST_leads token ds c' fuel :
  truthy_str token = true →
  leads graphql None ds c' →
  POST graphql (length ds + fuel) token
  = paginate graphql fuel true c' (concat (nodes <$> ds)) (requested None ds).
Proof.
  intros Ht Hl. unfold POST. rewrite Ht. simpl negb. cbv iota.
  by rewrite (paginate_leads graphql None ds c' Hl).
Qed.

(** On the token path: when a page is answered with a status outside
    200-299, or with errors whose first message is not empty, after any
    number of pages, the records gathered are dropped, the store keeps
    what it had, the list in memory is emptied and the message is
    shown. *)
Theorem token_failure_keeps_store (ds : list Repositories) (c' : option string)
    (fuel : nat) (message : string) (p : Page) :
  truthy_str (token p) = true →
  leads graphql None ds c' →
  (ok (status (graphql c')) = false
   ∧ message = "GitHub API error: " +:+ pretty (status (graphql c'))
   ∨ ok (status (graphql c')) = true
     ∧ first_error (body (graphql c')) = Some message
     ∧ truthy_str message = true) →
  length ds < fuel →
  ∃ p', fetchRepos graphql rest fuel p = Some p'
        ∧ localStorage p' = localStorage p
        ∧ repos p' = []
        ∧ error p' = message
        ∧ loading p' = false.
Proof.
  intros Ht Hl Hfail Hfuel.
  apply failed_attempt_keeps_store; [by rewrite Ht|].
  rewrite attempt_token by done.
  replace fuel with (length ds + S (fuel - S (length ds))) by lia.
  destruct Hfail as [[Hok ->]|(Hok & Herr & Hm)].
  - eapply via_server_error.
    + rewrite (POST_leads _ ds c') by done. by apply paginate_http_error.
    + reflexivity.
    + reflexivity.
  - eapply via_server_error.
    + rewrite (POST_leads _ ds c') by done. by apply paginate_api_error.
    + reflexivity.
    + done.
Qed.

(** On the token path: when a page is answered with a success that has
    neither data nor errors, the loop ends and the records of the pages
    before it are taken for the whole list: shown and stored, without a
    message. *)
Theorem dataless_page_stores_partial_list (ds : list Repositories)
    (c' : option string) (fuel : nat) (p : Page) :
  truthy_str (token p) = true →
  leads graphql None ds c' →
  ok (status (graphql c')) = true →
  first_error (body (graphql c')) = None →
  data (body (graphql c')) = None →
  length ds < fuel →
  ∃ p', fetchRepos graphql rest fuel p = Some p'
        ∧ repos p' = to_repo <$> concat (nodes <$> ds)
        ∧ repomgr_github (localStorage p') = Some (to_repo <$> concat (nodes <$> ds))
        ∧ error p' = EmptyString.
Proof.
  intros Ht Hl Hok Herr Hdata Hfuel.
  assert (Hgot : attempt graphql rest fuel (set_error EmptyString (set_loading true p))
                 = Some (Got (to_repo <$> concat (nodes <$> ds)))).
  { rewrite attempt_token by done.
    replace fuel with (length ds + S (fuel - S (length ds))) by lia.
    unfold via_server. rewrite (POST_leads _ ds c') by done.
    simpl. by rewrite Hok, Herr, Hdata. }
  unfold fetchRepos. rewrite Ht. simpl. rewrite Hgot.
  eexists. split; [reflexivity|]. done.
Qed.

(** The fallback along full pages. *)
Lemma rest_loop_full username (datas : list (list Repo)) :
  ∀ page fuel acc sent,
    (∀ j data, datas !! j = Some data →
       100 ≤ length data
       ∧ ∃ status, rest username 100 (page + j) = Answered status data
                   ∧ ok status = true) →
    rest_loop rest (length datas + fuel) username acc page sent
    = rest_loop rest fuel username (acc ++ concat datas) (page + length datas)
        (sent ++ (pair 100 <$> seq page (length datas))).
Proof.
  induction datas as [|data datas IH]; intros page fuel acc sent Hfull.
  - simpl. by rewrite !app_nil_r, Nat.add_0_r.
  - destruct (Hfull 0 data eq_refl) as (Hlen & status & Hreply & Hok).
    rewrite Nat.add_0_r in Hreply.
    cbn [length Nat.add].
    rewrite (rest_loop_turn _ _ _ _ _ _ status data Hreply Hok).
    replace (length data <? 100) with false by (symmetry; apply Nat.ltb_ge; lia).
    rewrite IH.
    + simpl. rewrite <- !app_assoc. simpl.
      by replace (page + S (length datas)) with (S page + length datas) by lia.
    + intros j d Hj. replace (S page + j) with (page + S j) by lia.
      by apply (Hfull (S j)).
Qed.

(** On the fallback: when a page is rejected or answered with a status
    outside 200-299, after any number of full pages, the records gathered
    are dropped, the store keeps what it had, the list in memory is
    emptied and the message is shown. *)
Theorem rest_failure_keeps_store (datas : list (list Repo)) (fuel : nat)
    (message : string) (p : Page) :
  truthy_str (token p) = false →
  truthy_str (username p) = true →
  full_pages rest (username p) datas →
  (rest (username p) 100 (S (length datas)) = Rejected message
   ∨ ∃ status data,
       rest (username p) 100 (S (length datas)) = Answered status data
       ∧ ok status = false
       ∧ message = "GitHub API error: " +:+ pretty status) →
  length datas < fuel →
  ∃ p', fetchRepos graphql rest fuel p = Some p'
        ∧ localStorage p' = localStorage p
        ∧ repos p' = []
        ∧ error p' = message
        ∧ loading p' = false.
Proof.
  intros Ht Hu Hfull Hfail Hfuel.
  apply failed_attempt_keeps_store; [by rewrite Hu, orb_true_r|].
  unfold attempt. simpl. rewrite Ht.
  replace fuel with (length datas + S (fuel - S (length datas))) by lia.
  rewrite (rest_loop_full _ datas 1) by apply Hfull.
  destruct Hfail as [Hrej|(status & data & Hreply & Hok & ->)].
  - by rewrite (rest_loop_rejected _ _ _ _ _ _ message Hrej).
  - by rewrite (rest_loop_http_error _ _ _ _ _ _ status data Hreply Hok).
Qed.

End Stopped_fetch.

(** ** Reloading the page *)

Section Reload.
Import Layered Startup.

Lemma nullish_value_id v d : v ≠ Null → nullish_value v d = v.
Proof. by destruct v. Qed.

(** A page mounted on the store that the three persist functions wrote
    shows the token, the user name, the repository list, the tofu URLs
    and the custom data that were persisted. *)
Theorem reload_restores_persisted (p : Page) (store : Storage) :
  without_null (custom p) →
  store = localStorage (persistCustom (persistTofuUrls (persistGithub p))) →
  let p' := onMount (initial store) in
  token p' = token p
  ∧ username p' = username p
  ∧ repos p' = repos p
  ∧ tofuUrls p' = tofuUrls p
  ∧ custom p' = custom p
  ∧ localStorage p' = store.
Proof.
  intros (H1 & H2 & H3 & H4 & H5) -> p'. subst p'.
  unfold onMount. simpl.
  rewrite !nullish_value_id by done.
  repeat split. by destruct (custom p).
Qed.

End Reload.

Lemma reload_restores_persisted_witness :
  Layered.custom
    (Startup.onMount
       (Layered.initial
          (Layered.localStorage
             (Layered.persistCustom
                (Layered.persistTofuUrls (Layered.persistGithub Sample.annotated))))))
  = Layered.of_annotations Sample.annotations.
Proof.
  destruct (reload_restores_persisted Sample.annotated _
              ltac:(repeat split; discriminate) eq_refl)
    as (_ & _ & _ & _ & Hcustom & _).
  exact Hcustom.
Defined.

(** ** The further properties on sample data *)

Lemma NoDup_sample_classes :
  NoDup (Layered.a_classes (Editor.annotations Cases.editing)).
Proof.
  apply NoDup_cons. split; [|apply NoDup_singleton].
  rewrite list_elem_of_singleton. discriminate.
Qed.

Lemma edits_keep_store_in_step_witness :
  ∃ st',
    Editor.handle_all
      [ Editor.AddClass "tool"; Editor.ToggleEnabled Sample.site;
        Editor.AddUrl "site" "https://a.example";
        Editor.EditUrl "site" 0 "https://b.example";
        Editor.DeleteClass "lib" ] Cases.editing = Some st'
    ∧ NoDup (Layered.a_classes (Editor.annotations st'))
    ∧ Editor.in_step st'.
Proof.
  destruct (Editor.handle_all
              [ Editor.AddClass "tool"; Editor.ToggleEnabled Sample.site;
                Editor.AddUrl "site" "https://a.example";
                Editor.EditUrl "site" 0 "https://b.example";
                Editor.DeleteClass "lib" ] Cases.editing) as [st'|] eqn:Hrun;
    [|vm_compute in Hrun; discriminate].
  exists st'. split; [reflexivity|].
  exact (edits_keep_store_in_step _ Cases.editing st'
           NoDup_sample_classes eq_refl Hrun).
Defined.

Lemma add_then_delete_class_witness :
  Layered.a_classes
    (Editor.annotations
       (Editor.delete_class "tool" (Editor.add_class "tool" Cases.editing)))
  = ["lib"; "app"].
Proof.
  destruct (add_then_delete_class "tool" Cases.editing eq_refl NoDup_sample_classes)
    as (_ & _ & _ & Hback).
  rewrite Hback; [reflexivity|].
  change ("tool" ∉ ["lib"; "app"]).
  rewrite !elem_of_cons, elem_of_nil. intros [H|[H|[]]]; discriminate.
Defined.

Lemma plain_sample_urls :
  Proto.plain (Layered.a_customUrls (Editor.annotations Cases.editing)).
Proof. by apply plain_names. Qed.

Lemma plain_sample_tofu : Proto.plain ({["site" := "octo.example"]} : gmap string string).
Proof. by apply plain_names. Qed.

Lemma add_url_shows_last_witness :
  (∃ st',
     Editor.add_url "site" "https://new.example" Cases.editing = Js.Normal st'
     ∧ View.row_urls {["site" := "octo.example"]}
         (Layered.a_customUrls (Editor.annotations st')) Sample.site
       = Js.Normal (Proto.Own ["octo.example"; "https://octo.example";
                               "https://octo.example"; "https://new.example"]))
  ∧ Editor.add_url "constructor" "https://new.example" Cases.editing = Js.Thrown.
Proof.
  destruct (add_url_shows_last {["site" := "octo.example"]} "site"
              "https://new.example" Cases.editing Sample.site eq_refl
              plain_sample_tofu plain_sample_urls) as [Hadd _].
  destruct (Hadd eq_refl) as (st' & Hrun & Hshown & _).
  destruct (add_url_shows_last {["site" := "octo.example"]} "constructor"
              "https://new.example" Cases.editing Sample.site eq_refl
              plain_sample_tofu plain_sample_urls) as [_ Hthrows].
  split; [|apply Hthrows; reflexivity].
  exists st'. split; [exact Hrun|]. rewrite Hshown. vm_compute. reflexivity.
Defined.

Lemma remove_added_url_witness :
  ∃ st1 st2,
    Editor.add_url "site" "https://new.example" Cases.editing = Js.Normal st1
    ∧ Editor.remove_url "site" 2 st1 = Js.Normal st2
    ∧ View.row_urls {["site" := "octo.example"]}
        (Layered.a_customUrls (Editor.annotations st2)) Sample.site
      = Js.Normal (Proto.Own ["octo.example"; "https://octo.example";
                              "https://octo.example"]).
Proof.
  destruct (remove_added_url {["site" := "octo.example"]} "site"
              "https://new.example" Cases.editing Sample.site eq_refl
              plain_sample_tofu plain_sample_urls eq_refl)
    as (st1 & st2 & Hadd & Hremove & _ & Hshown).
  exists st1, st2. split; [exact Hadd|]. split; [exact Hremove|].
  rewrite Hshown. vm_compute. reflexivity.
Defined.

Lemma partial_imports_commute_witness :
  let d1 := MiniJson.text "{'classes': ['lib']}" in
  let d2 := MiniJson.text "{'repoEnabled': {'octo/site': true}}" in
  let p := Layered.initial Sample.no_store in
  Layered.importCustomData MiniJson.parse d2
    (Layered.importCustomData MiniJson.parse d1 p)
  = Layered.importCustomData MiniJson.parse d1
      (Layered.importCustomData MiniJson.parse d2 p).
Proof.
  intros d1 d2 p.
  apply (partial_imports_commute MiniJson.parse d1 d2
           {["classes" := Js.Arr [Js.Str "lib"]]}
           {["repoEnabled" := Js.Obj {["octo/site" := Js.Bool true]}]}).
  - vm_compute. reflexivity.
  - vm_compute. reflexivity.
  - intros k. destruct (decide (k = "classes")) as [->|Hne].
    + vm_compute. reflexivity.
    + rewrite lookup_singleton_ne by done. reflexivity.
Defined.

Lemma tofu_output_replaces_layer_witness :
  let p' := Layered.importTofuOutput MiniJson.parse
              (MiniJson.text "{'pages_urls': {'value': {'site': 'octo.example'}}}")
              Sample.annotated in
  Layered.tofuUrls p' = Js.Obj {["site" := Js.Str "octo.example"]}
  ∧ Layered.custom p' = Layered.custom Sample.annotated.
Proof.
  intros p'.
  assert (Hparse :
    MiniJson.parse
      (MiniJson.text "{'pages_urls': {'value': {'site': 'octo.example'}}}")
    = Some (Js.Obj {["pages_urls" :=
              Js.Obj {["value" := Js.Obj {["site" := Js.Str "octo.example"]}]}]}))
    by (vm_compute; reflexivity).
  assert (Hvalue :
    Layered.pages_urls_value
      (Js.Obj {["pages_urls" :=
         Js.Obj {["value" := Js.Obj {["site" := Js.Str "octo.example"]}]}]})
    = Js.Normal (Some (Js.Obj {["site" := Js.Str "octo.example"]})))
    by (vm_compute; reflexivity).
  pose proof (tofu_output_replaces_layer MiniJson.parse _ _ _
                Sample.annotated Hparse Hvalue) as H.
  cbv zeta in H. change (Js.truthy (Js.Obj _)) with true in H.
  cbv iota in H. destruct H as (Htofu & _ & Hcustom & _).
  split; [exact Htofu | exact Hcustom].
Defined.

Lemma arrays_empty : Formats.arrays ∅.
Proof. intros k e He. by rewrite lookup_empty in He. Qed.

Lemma arrays_sample : Formats.arrays {["r" := Js.Arr [Js.Str "http://x"]]}.
Proof. intros k e He. apply lookup_singleton_Some in He as [_ <-]. eauto. Qed.

Lemma plain_sample_legacy :
  Proto.plain ({["r" := Js.Str "http://y"]} : gmap string Js.value).
Proof. by apply plain_names. Qed.

Lemma import_keeps_present_format_witness :
  ∃ p' o',
    Flat.importClassData MiniJson.parse map_to_list
      (MiniJson.text
         "{'repoUrls': {'r': 'http://x'}, 'pages_urls': {'value': {'r': 'http://y'}}}")
      (Sample.flat_page ∅) = Some p'
    ∧ Flat.repoUrls p' = Js.Obj o'
    ∧ Formats.arrays o'.
Proof.
  destruct (import_keeps_present_format MiniJson.parse map_to_list
              (MiniJson.text
                 "{'repoUrls': {'r': 'http://x'}, 'pages_urls': {'value': {'r': 'http://y'}}}")
              (<["repoUrls" := Js.Obj {["r" := Js.Str "http://x"]}]>
                 {["pages_urls" :=
                    Js.Obj {["value" := Js.Obj {["r" := Js.Str "http://y"]}]}]})
              (Sample.flat_page ∅) ∅ map_to_list_enumerates)
    as (p' & o' & Hrun & Hurls & Harr & _).
  - vm_compute. reflexivity.
  - reflexivity.
  - exact arrays_empty.
  - right. exists {["r" := Js.Str "http://x"]}. split; [reflexivity|].
    intros k e He. apply lookup_singleton_Some in He as [_ <-]. left. eauto.
  - right. exists {["value" := Js.Obj {["r" := Js.Str "http://y"]}]},
                  {["r" := Js.Str "http://y"]}.
    split; [reflexivity|]. split; [reflexivity | exact plain_sample_legacy].
  - exists p', o'. done.
Defined.

Lemma legacy_import_twice_appends_twice_witness :
  let data := MiniJson.text "{'pages_urls': {'value': {'r': 'http://y'}}}" in
  ∃ p1 p2 o2,
    Flat.importClassData MiniJson.parse map_to_list data
      (Sample.flat_page {["r" := Js.Arr [Js.Str "http://x"]]}) = Some p1
    ∧ Flat.importClassData MiniJson.parse map_to_list data p1 = Some p2
    ∧ Flat.repoUrls p2 = Js.Obj o2
    ∧ o2 !! "r"
      = Some (Js.Arr [Js.Str "http://x"; Js.Str "http://y"; Js.Str "http://y"]).
Proof.
  intros data.
  destruct (legacy_import_twice_appends_twice MiniJson.parse map_to_list data
              {["pages_urls" :=
                 Js.Obj {["value" := Js.Obj {["r" := Js.Str "http://y"]}]}]}
              {["value" := Js.Obj {["r" := Js.Str "http://y"]}]}
              {["r" := Js.Str "http://y"]}
              {["r" := Js.Arr [Js.Str "http://x"]]}
              (Sample.flat_page {["r" := Js.Arr [Js.Str "http://x"]]})
              map_to_list_enumerates)
    as (p1 & p2 & o2 & H1 & H2 & Hurls & _ & Htwice).
  - vm_compute. reflexivity.
  - reflexivity.
  - reflexivity.
  - reflexivity.
  - exact plain_sample_legacy.
  - reflexivity.
  - exact arrays_sample.
  - exists p1, p2, o2. split; [exact H1|]. split; [exact H2|].
    split; [exact Hurls|].
    rewrite (Htwice "r" "http://y"); reflexivity.
Defined.

Lemma import_stops_at_bare_string_witness :
  ∃ p',
    Flat.importClassData MiniJson.parse map_to_list
      (MiniJson.text
         "{'classes': ['lib'], 'repoUrls': 'http://x', 'repoEnabled': {'octo/site': true}}")
      (Sample.flat_page ∅) = Some p'
    ∧ Flat.classes p' = Js.Arr [Js.Str "lib"]
    ∧ Flat.repoEnabled p' = Js.Obj ∅
    ∧ Flat.localStorage p' = Sample.flat_store.
Proof.
  destruct (import_stops_at_bare_string MiniJson.parse map_to_list
              (MiniJson.text
                 "{'classes': ['lib'], 'repoUrls': 'http://x', 'repoEnabled': {'octo/site': true}}")
              (<["classes" := Js.Arr [Js.Str "lib"]]>
                 (<["repoUrls" := Js.Str "http://x"]>
                    {["repoEnabled" := Js.Obj {["octo/site" := Js.Bool true]}]}))
              "h"%char "ttp://x" (Sample.flat_page ∅))
    as (p' & Hrun & Hclasses & _ & _ & Henabled & _ & Hstore).
  - vm_compute. reflexivity.
  - reflexivity.
  - exists p'. split; [exact Hrun|]. split; [|split].
    + rewrite Hclasses. reflexivity.
    + exact Henabled.
    + exact Hstore.
Defined.

Lemma imports_of_nothing_witness :
  Layered.importCustomData MiniJson.parse "{'classes': ['lib']" Sample.annotated
  = Sample.annotated
  ∧ Flat.importClassData MiniJson.parse map_to_list "{'classes': ['lib']"
      (Sample.flat_page ∅)
    = Some (Sample.flat_page ∅).
Proof.
  destruct (imports_of_nothing MiniJson.parse map_to_list "{'classes': ['lib']"
              Sample.annotated (Sample.flat_page ∅))
    as (H1 & _ & H3).
  - left. vm_compute. reflexivity.
  - split; [exact H1 | exact H3].
Defined.

Lemma leads_page_one (remote : option string → Server.Reply) :
  remote None = Sample.success Sample.page_one →
  Runs.leads remote None [Sample.page_one] (Some "Y3Vyc29yOjEwMA==").
Proof.
  intros H. eapply Runs.leads_on; rewrite ?H; try reflexivity.
  apply Runs.leads_here.
Qed.

Lemma POST_finished_witness :
  let r := {| Server.response_status := 200;
              Server.repos :=
                Server.to_repo
                  <$> (Server.nodes Sample.page_one ++ Server.nodes Sample.page_two);
              Server.error := None |} in
  Server.POST Sample.two_pages 2 "ghp_token"
  = Some (r, [None; Some "Y3Vyc29yOjEwMA=="])
  ∧ length (Server.repos r) = 150
  ∧ ∃ ds c',
      Runs.leads Sample.two_pages None ds c'
      ∧ [None; Some "Y3Vyc29yOjEwMA=="] = Runs.requested None ds ++ [c']
      ∧ Server.repos r
        = Server.to_repo
            <$> (concat (Server.nodes <$> ds)
                 ++ match Server.data (Server.body (Sample.two_pages c')) with
                    | Some d => Server.nodes d
                    | None => []
                    end).
Proof.
  intros r.
  assert (Hrun : Server.POST Sample.two_pages 2 "ghp_token"
                 = Some (r, [None; Some "Y3Vyc29yOjEwMA=="]))
    by (vm_compute; reflexivity).
  split; [exact Hrun|]. split; [vm_compute; reflexivity|].
  destruct (POST_finished Sample.two_pages 2 "ghp_token" r
              [None; Some "Y3Vyc29yOjEwMA=="] eq_refl Hrun)
    as (ds & c' & Hleads & Hsent & _ & Hres).
  exists ds, c'. split; [exact Hleads|]. split; [exact Hsent|].
  simpl in Hres. destruct Hres as (_ & _ & _ & _ & Hrepos). exact Hrepos.
Defined.

Lemma token_failure_keeps_store_witness :
  ∃ p',
    Layered.fetchRepos Sample.bad_gateway Sample.no_rest 2 Sample.with_token = Some p'
    ∧ Layered.localStorage p' = Layered.localStorage Sample.with_token
    ∧ Layered.repos p' = []
    ∧ Layered.error p' = "GitHub API error: 502".
Proof.
  destruct (token_failure_keeps_store Sample.bad_gateway Sample.no_rest
              [Sample.page_one] (Some "Y3Vyc29yOjEwMA==") 2
              "GitHub API error: 502" Sample.with_token)
    as (p' & Hrun & Hstore & Hrepos & Herror & _).
  - reflexivity.
  - by apply leads_page_one.
  - left. split; reflexivity.
  - simpl. lia.
  - exists p'. done.
Defined.

Lemma dataless_page_stores_partial_list_witness :
  ∃ p',
    Layered.fetchRepos Cases.dataless Sample.no_rest 2 Sample.with_token = Some p'
    ∧ length (Layered.repos p') = 100
    ∧ Layered.repomgr_github (Layered.localStorage p') = Some (Layered.repos p').
Proof.
  destruct (dataless_page_stores_partial_list Cases.dataless Sample.no_rest
              [Sample.page_one] (Some "Y3Vyc29yOjEwMA==") 2 Sample.with_token)
    as (p' & Hrun & Hrepos & Hstore & _).
  - reflexivity.
  - by apply leads_page_one.
  - reflexivity.
  - reflexivity.
  - reflexivity.
  - simpl. lia.
  - exists p'. split; [exact Hrun|]. split.
    + rewrite Hrepos. vm_compute. reflexivity.
    + by rewrite Hstore, Hrepos.
Defined.

Lemma full_first_page :
  Runs.full_pages Cases.rate_limited "octo" [Sample.records 100].
Proof.
  intros j data Hj. destruct j as [|j]; [|done].
  inversion Hj; subst. split; [vm_compute; lia|].
  exists 200%Z. split; reflexivity.
Qed.

Lemma rest_failure_keeps_store_witness :
  ∃ p',
    Layered.fetchRepos Sample.two_pages Cases.rate_limited 2 Sample.with_username
    = Some p'
    ∧ Layered.localStorage p' = Layered.localStorage Sample.with_username
    ∧ Layered.repos p' = []
    ∧ Layered.error p' = "GitHub API error: 403".
Proof.
  destruct (rest_failure_keeps_store Sample.two_pages Cases.rate_limited
              [Sample.records 100] 2 "GitHub API error: 403" Sample.with_username)
    as (p' & Hrun & Hstore & Hrepos & Herror & _).
  - reflexivity.
  - reflexivity.
  - exact full_first_page.
  - right. exists 403%Z, []. split; [reflexivity|]. split; reflexivity.
  - simpl. lia.
  - exists p'. done.
Defined.
